(** * Client-side synchronisation hooks: cache, synchronizer, channel

    A shallow embedding of three React hooks of the admin panel and the
    properties their specification states about them:

    - [Cache]   : [useCache]      (src/unnamed/part_006)
    - [Sync]    : [useSync]       (src/unnamed/part_007) together with
                  [retryRequest]  (hooks/useNetwork.ts)
    - [Channel] : [useWebSocket]  (hooks/useWebSocket.ts)

    and, beyond the properties of the specification,

    - [CacheStore], [CacheFetch] : [clear], the load from storage at
                  mount, [refresh] and [usePaginatedCache] (part_006)
    - [SyncLog], [SyncEffects], [SyncGroup] : runs of [sync], the
                  effect that syncs pending changes and [useSyncGroup]
                  (part_007)
    - [Offline]                  : [useOfflineFirst] (hooks/useNetwork.ts)
    - [ChannelTimers]            : the reconnect timers and heartbeat
                  intervals of [useWebSocket]

    Conventions of the embedding.  A React ref ([useRef]) is a field of the
    state record and is read at its current value.  A React state cell
    ([useState]) is a field as well, but a callback built with [useCallback]
    reads the value the cell had in the render that created the callback:
    those captured values are passed to the callback as an explicit
    closure record.  Functional updaters ([setState(prev => ...)]) act on the
    current value of the cell.  The wall clock ([Date.now()], [new Date()])
    is an argument or a cell set by the environment. *)

From Stdlib Require Import ZArith Lia.
From stdpp Require Import gmap strings list fin_maps sorting pretty.

(* ===================================================================== *)
(** * The bounded cache: [useCache] *)
(* ===================================================================== *)

Module Cache.

(** [interface CacheEntry<T>] *)
Record CacheEntry (T : Type) : Type := mkEntry {
  data : T;
  timestamp : Z;
  expiresAt : Z;
}.
Arguments mkEntry {T}.
Arguments data {T}.
Arguments timestamp {T}.
Arguments expiresAt {T}.

(** The mutable cells of one [useCache] instance: the two refs, the durable
    backing ([None] when the [storage] option is not given) and the hook's
    [data] and [error] state. *)
Record State (T : Type) : Type := mkState {
  cacheRef : gmap string (CacheEntry T);
  accessOrderRef : list string;
  storage : option (gmap string string);
  hookData : option T;
  hookError : option string;
}.
Arguments mkState {T}.
Arguments cacheRef {T}.
Arguments accessOrderRef {T}.
Arguments storage {T}.
Arguments hookData {T}.
Arguments hookError {T}.

(** JavaScript truthiness of a string: only the empty string is falsy. *)
Definition truthy (k : string) : bool := negb (String.eqb k EmptyString).

(** [Array.prototype.pop]: the last element (or [undefined]) and the
    shortened array. *)
Definition pop {A} (l : list A) : option A * list A :=
  (last l, removelast l).

(** The template literal [`cache:${key}`]. *)
Definition storageKey (key : string) : string := "cache:" +:+ key.

(** [storage.removeItem(k)] guarded by [if (storage)]. *)
Definition removeItem (k : string) (st : option (gmap string string))
  : option (gmap string string) :=
  match st with
  | Some m => Some (delete k m)
  | None => None
  end.

(** [storage.setItem(k, v)] guarded by [if (storage)]. *)
Definition setItem (k v : string) (st : option (gmap string string))
  : option (gmap string string) :=
  match st with
  | Some m => Some (<[k := v]> m)
  | None => None
  end.

Section useCache.
Context {T : Type}.
(** The options of the hook. *)
Variable ttl : Z.
Variable maxSize : nat.
Variable validate : option (T → bool).
Variable serialize : CacheEntry T → string.

Definition with_cache (c : gmap string (CacheEntry T)) (s : State T) : State T :=
  mkState c (accessOrderRef s) (storage s) (hookData s) (hookError s).
Definition with_order (o : list string) (s : State T) : State T :=
  mkState (cacheRef s) o (storage s) (hookData s) (hookError s).
Definition with_storage (st : option (gmap string string)) (s : State T) : State T :=
  mkState (cacheRef s) (accessOrderRef s) st (hookData s) (hookError s).

(** The state of a freshly mounted hook without durable backing (with a
    backing, the mount effect first loads the unexpired [cache:] items). *)
Definition initial : State T := mkState ∅ [] None None None.

(** [updateAccessOrder]: the key goes to the front, older occurrences are
    filtered out. *)
Definition updateAccessOrder (key : string) (order : list string) : list string :=
  key :: filter (λ k, k ≠ key) order.

(** One iteration of the body of the [while] of [enforceSizeLimit]. *)
Definition evictOne (s : State T) : State T :=
  let '(lastKey, rest) := pop (accessOrderRef s) in
  let s1 := with_order rest s in
  match lastKey with
  | Some k =>
      if truthy k
      then with_storage (removeItem (storageKey k) (storage s1))
             (with_cache (delete k (cacheRef s1)) s1)
      else s1
  | None => s1
  end.

(** [while (cacheRef.current.size > maxSize) { ... }], with fuel: [None]
    means the fuel ran out before the loop condition became false. *)
Fixpoint enforceLoop (fuel : nat) (s : State T) : option (State T) :=
  if decide (maxSize < size (cacheRef s)) then
    match fuel with
    | O => None
    | S fuel' => enforceLoop fuel' (evictOne s)
    end
  else Some s.

(** [enforceSizeLimit].  Every iteration pops one key, so after
    [length accessOrder] iterations the order is empty and stays empty:
    a loop that has not stopped by then never stops
    ([enforceSizeLimit_None_diverges]).  [None] is that divergence. *)
Definition enforceSizeLimit (s : State T) : option (State T) :=
  enforceLoop (S (length (accessOrderRef s))) s.

(** [validate && !validate(value)] *)
Definition rejected (value : T) : bool :=
  match validate with
  | Some v => negb (v value)
  | None => false
  end.

(** [set(key, value)].  [now1] and [now2] are the two readings of
    [Date.now()] (for [timestamp] and for [expiresAt]).  [None]: the call
    never returns.  A rejected value throws before anything is touched;
    the [catch] records the error.  [serialize] and [storage.setItem] are
    taken to succeed; they run after the cache and the order have been
    updated.  The call whose write throws is [CacheStore.setWrite]. *)
Definition set (key : string) (value : T) (now1 now2 : Z) (s : State T)
  : option (State T) :=
  if rejected value then
    Some (mkState (cacheRef s) (accessOrderRef s) (storage s) (hookData s)
            (Some "Invalid data"))
  else
    let entry := mkEntry value now1 (now2 + ttl) in
    let s1 := with_cache (<[key := entry]> (cacheRef s)) s in
    let s2 := with_order (updateAccessOrder key (accessOrderRef s1)) s1 in
    match enforceSizeLimit s2 with
    | None => None
    | Some s3 =>
        Some (mkState (cacheRef s3) (accessOrderRef s3)
                (setItem (storageKey key) (serialize entry) (storage s3))
                (Some value) None)
    end.

(** [get(key)] at time [now]. *)
Definition get (key : string) (now : Z) (s : State T) : option T * State T :=
  match cacheRef s !! key with
  | None => (None, s)
  | Some entry =>
      if decide (expiresAt entry < now)%Z then
        (None, with_storage (removeItem (storageKey key) (storage s))
                 (with_cache (delete key (cacheRef s)) s))
      else
        (Some (data entry), with_order (updateAccessOrder key (accessOrderRef s)) s)
  end.

(** [remove(key)] *)
Definition remove (key : string) (s : State T) : State T :=
  with_storage (removeItem (storageKey key) (storage s))
    (with_order (filter (λ k, k ≠ key) (accessOrderRef s))
       (with_cache (delete key (cacheRef s)) s)).

(** [has(key)] at time [now]. *)
Definition has (key : string) (now : Z) (s : State T) : bool * State T :=
  match cacheRef s !! key with
  | None => (false, s)
  | Some entry =>
      if decide (expiresAt entry < now)%Z then (false, remove key s)
      else (true, s)
  end.

(** [keys()]: the cached keys.  The cache is a finite map, listed here
    in the order of its representation; the insertion order in which
    the JavaScript [Map] lists its keys is not recorded. *)
Definition keys (s : State T) : list string := (map_to_list (cacheRef s)).*1.

(** ** Recency, in the words of the specification

    The operations a caller can apply, and a bookkeeping of touches kept
    beside the cells of the hook: every operation is one tick, and a
    [set] that stores its value or a [get] that returns a value records
    the tick as the moment its key was last touched. *)
Inductive Op :=
| OpSet (key : string) (value : T) (now1 now2 : Z)
| OpGet (key : string) (now : Z)
| OpHas (key : string) (now : Z)
| OpRemove (key : string).

Definition opKey (op : Op) : string :=
  match op with
  | OpSet key _ _ _ | OpGet key _ | OpHas key _ | OpRemove key => key
  end.

Definition perform (op : Op) (s : State T) : option (State T) :=
  match op with
  | OpSet key value now1 now2 => set key value now1 now2 s
  | OpGet key now => Some (get key now s).2
  | OpHas key now => Some (has key now s).2
  | OpRemove key => Some (remove key s)
  end.

Definition touched (op : Op) (s : State T) : option string :=
  match op with
  | OpSet key value _ _ => if rejected value then None else Some key
  | OpGet key now =>
      match (get key now s).1 with
      | Some _ => Some key
      | None => None
      end
  | OpHas _ _ | OpRemove _ => None
  end.

Record Tracked : Type := mkTracked {
  cells : State T;
  ticks : nat;
  lastTouched : gmap string nat;
}.

Definition track (op : Op) (t : Tracked) : option Tracked :=
  s' ← perform op (cells t);
  Some (mkTracked s' (S (ticks t))
          (match touched op (cells t) with
           | Some k => <[k := ticks t]> (lastTouched t)
           | None => lastTouched t
           end)).

Fixpoint tracks (ops : list Op) (t : Tracked) : option Tracked :=
  match ops with
  | [] => Some t
  | op :: rest => t' ← track op t; tracks rest t'
  end.

Definition fresh : Tracked := mkTracked initial 0 ∅.

(** [a] was touched after [b]. *)
Definition newer (lt : gmap string nat) (a b : string) : Prop :=
  ∃ na nb, lt !! a = Some na ∧ lt !! b = Some nb ∧ nb < na.

(** The invariant of the cells when no key is the empty string: listed
    keys are non-empty, every cached key is listed, every listed key has
    been touched, and the order lists the keys from the most recently
    to the least recently touched. *)
Record Inv (t : Tracked) : Prop := mkInv {
  inv_truthy : ∀ k, k ∈ accessOrderRef (cells t) → k ≠ EmptyString;
  inv_listed : ∀ k, is_Some (cacheRef (cells t) !! k) → k ∈ accessOrderRef (cells t);
  inv_stamped : ∀ k, k ∈ accessOrderRef (cells t) →
                 ∃ n, lastTouched t !! k = Some n ∧ n < ticks t;
  inv_sorted : StronglySorted (newer (lastTouched t)) (accessOrderRef (cells t));
}.

End useCache.

End Cache.

(* ===================================================================== *)
(** * The synchronizer: [useSync] and [retryRequest] *)
(* ===================================================================== *)

Module Sync.

(** A JavaScript [Error], by its message. *)
Definition JsError := string.

(** ['idle' | 'syncing' | 'error' | 'success'] *)
Inductive SyncStatus := Idle | Syncing | Failed | Success.

(** ['update' | 'delete'] *)
Inductive ChangeType := Update | Delete.

#[global] Instance SyncStatus_eq_dec : EqDecision SyncStatus.
Proof. solve_decision. Defined.
#[global] Instance ChangeType_eq_dec : EqDecision ChangeType.
Proof. solve_decision. Defined.

Section useSync.
(** The synchronised resource [T] is a JavaScript object: a finite map
    from field names to values of some type [V]. *)
Context {V : Type}.
#[local] Abbreviation Obj := (gmap string V).

(** [interface PendingChange<T>] *)
Record PendingChange : Type := mkChange {
  timestamp : Z;
  change : Obj;            (* the field [data: Partial<T>] *)
  type : ChangeType;
}.

(** [interface SyncState<T>] *)
Record SyncState : Type := mkSyncState {
  data : Obj;
  lastSynced : option Z;
  isSyncing : bool;
  error : option JsError;
  syncStatus : SyncStatus;
}.

(** Calls of the caller's [onSync] and [onError] callbacks. *)
Inductive Notification :=
| onSync (d : Obj)
| onError (e : JsError).

(** The mutable cells of one [useSync] instance: the [state] cell, the
    [useLocalStorage] cell holding the pending log, the [isMounted] ref,
    [online] of [useNetwork], the wall clock read by [Date.now()] and
    [new Date()], and the callbacks invoked so far. *)
Record World : Type := mkWorld {
  state : SyncState;
  pendingChanges : list PendingChange;
  isMounted : bool;
  online : bool;
  clock : Z;
  notified : list Notification;
}.

(** What the callbacks created in one render have captured: the
    dependencies [online], [state.isSyncing] and [pendingChanges] of
    [sync]'s [useCallback]. [retryRequest] of the same render has
    captured the same [online]. *)
Record Render : Type := mkRender {
  r_online : bool;
  r_isSyncing : bool;
  r_pendingChanges : list PendingChange;
}.

Definition render (w : World) : Render :=
  mkRender (online w) (isSyncing (state w)) (pendingChanges w).

(** An [async] function as a resumption: synchronous steps on the cells,
    reads of the cells, and the points where it awaits the network or a
    timer.  [Never] is a promise that is never settled. *)
Inductive Async : Type :=
| Ret
| Act (f : World → World) (next : Async)
| Read (k : World → Async)
| Delay (ms : nat) (next : Async)
| AwaitFetch (k : JsError + Obj → Async)
| AwaitPush (d : Obj) (k : JsError + unit → Async)
| Never.

(** ** [retryRequest] of [useNetwork]

    [request] is the thunk [() => Promise<T>], [online] the captured
    [state.online].  When offline the code awaits a promise whose
    resolver tests the captured (false) [state.online]: it never
    resolves. *)
Fixpoint retryLoop {A} (online : bool) (request : (JsError + A → Async) → Async)
    (delay : nat) (remaining i : nat) (lastError : option JsError)
    (k : JsError + A → Async) : Async :=
  match remaining with
  | O => k (inl (default "Request failed after retries" lastError))
  | S remaining' =>
      request (λ r,
        match r with
        | inr a => k (inr a)
        | inl e =>
            if online
            then Delay (delay * (i + 1))
                   (retryLoop online request delay remaining' (S i) (Some e) k)
            else Never
        end)
  end.

Definition retryRequest {A} (online : bool)
    (request : (JsError + A → Async) → Async)
    (maxRetries delay : nat) (k : JsError + A → Async) : Async :=
  retryLoop online request delay maxRetries 0 None k.

(** ** The options of [useSync] *)
Variable retryAttempts : nat.
Variable retryDelay : nat.
Variable hasFetch : bool.        (* [fetchData] is supplied *)
Variable hasPush : bool.         (* [pushData] is supplied *)
Variable mergeStrategy : option (Obj → Obj → Obj).
Variable validateData : option (Obj → bool).

(** [{ ...local, ...remote }]: fields of [remote] win. *)
Definition defaultMergeStrategy (local remote : Obj) : Obj := remote ∪ local.

(** [mergeStrategy || defaultMergeStrategy] *)
Definition merge : Obj → Obj → Obj :=
  default defaultMergeStrategy mergeStrategy.

Definition validateAndApply (newData : Obj) : bool :=
  match validateData with
  | Some v => v newData
  | None => true
  end.

(** The [for (const change of pendingChanges)] loop of [sync]. *)
Definition applyPending (remoteData : Obj) (pending : list PendingChange) : Obj :=
  foldl (λ finalData c,
           match type c with
           | Update => merge finalData (change c)
           | Delete => finalData
           end) remoteData pending.

Definition setSyncing (w : World) : World :=
  let s := state w in
  mkWorld (mkSyncState (data s) (lastSynced s) true (error s) Syncing)
    (pendingChanges w) (isMounted w) (online w) (clock w) (notified w).

(** Modelled from the spec: [useLocalStorage] (imported from
    [./useLocalStorage], which is not among the sources).  The pending log
    is the ordered array persisted under [<key>_pending_changes]; its
    setter replaces the array, or applies a functional updater to the
    current array as the setter of [useState] does. *)
Definition setPendingChanges (p : list PendingChange) (w : World) : World :=
  mkWorld (state w) p (isMounted w) (online w) (clock w) (notified w).

(** [setState({ data: finalData, lastSynced: new Date(), ... })] and
    [onSync?.(finalData)] *)
Definition setSuccess (finalData : Obj) (w : World) : World :=
  mkWorld (mkSyncState finalData (Some (clock w)) false None Success)
    (pendingChanges w) (isMounted w) (online w) (clock w)
    (notified w ++ [onSync finalData]).

(** [setState(prev => ({ ...prev, isSyncing: false, error: syncError,
    syncStatus: 'error' }))] and [onError?.(syncError)] *)
Definition setFailed (syncError : JsError) (w : World) : World :=
  let s := state w in
  mkWorld (mkSyncState (data s) (lastSynced s) false (Some syncError) Failed)
    (pendingChanges w) (isMounted w) (online w) (clock w)
    (notified w ++ [onError syncError]).

(** The success branch: [if (isMounted.current) { ... }] *)
Definition finish (finalData : Obj) : Async :=
  Read (λ w, if isMounted w then Act (setSuccess finalData) Ret else Ret).

(** The [catch] branch. *)
Definition fail (syncError : JsError) : Async :=
  Read (λ w, if isMounted w then Act (setFailed syncError) Ret else Ret).

(** [sync], as the callback created in render [R]. *)
Definition sync (R : Render) : Async :=
  if negb (r_online R) || negb hasFetch || r_isSyncing R then Ret
  else
    Act setSyncing
      (retryRequest (r_online R) AwaitFetch retryAttempts retryDelay (λ r,
         match r with
         | inl e => fail e
         | inr remoteData =>
             let finalData := applyPending remoteData (r_pendingChanges R) in
             if negb (validateAndApply finalData) then fail "Data validation failed"
             else if hasPush && negb (Nat.eqb (length (r_pendingChanges R)) 0) then
               retryRequest (r_online R) (AwaitPush finalData) retryAttempts retryDelay (λ r,
                 match r with
                 | inl e => fail e
                 | inr _ => Act (setPendingChanges []) (finish finalData)
                 end)
             else finish finalData
         end)).

(** The updater passed to [setState] by [update]. *)
Definition applyUpdate (changes : Obj) (w : World) : World :=
  let prev := state w in
  let newData := merge (data prev) changes in
  if negb (validateAndApply newData) then w
  else
    mkWorld (mkSyncState newData (lastSynced prev) (isSyncing prev) (error prev)
               (syncStatus prev))
      (pendingChanges w ++ [mkChange (clock w) changes Update])
      (isMounted w) (online w) (clock w) (notified w).

(** [update(changes)] *)
Definition update (changes : Obj) : Async := Act (applyUpdate changes) Ret.

(** ** Running a call against the network

    [fetchData o n] is what the promise of the [n]-th call of the
    caller's [fetchData] settles to during the run, [pushData o n d]
    likewise for [pushData(d)]. *)
Record Oracle : Type := mkOracle {
  fetchData : nat → JsError + Obj;
  pushData : nat → Obj → JsError + unit;
}.

(** Network and timer activity of a run, in order. *)
Inductive Io :=
| IoFetch (ok : bool)
| IoPush (d : Obj) (ok : bool)
| IoDelay (ms : nat).

Record Run : Type := mkRun {
  settled : bool;
  final : World;
  trace : list Io;
}.

Definition io (e : Io) (r : Run) : Run :=
  mkRun (settled r) (final r) (e :: trace r).

Definition is_ok {A} (r : JsError + A) : bool :=
  match r with inr _ => true | inl _ => false end.

(** Runs a call to completion with nothing else interleaved; [nf] and
    [np] count the fetch and push requests issued so far. *)
Fixpoint exec (p : Async) (o : Oracle) (nf np : nat) (w : World) : Run :=
  match p with
  | Ret => mkRun true w []
  | Never => mkRun false w []
  | Act f next => exec next o nf np (f w)
  | Read k => exec (k w) o nf np w
  | Delay ms next => io (IoDelay ms) (exec next o nf np w)
  | AwaitFetch k =>
      let r := fetchData o nf in
      io (IoFetch (is_ok r)) (exec (k r) o (S nf) np w)
  | AwaitPush d k =>
      let r := pushData o np d in
      io (IoPush d (is_ok r)) (exec (k r) o nf (S np) w)
  end.

Definition call (p : Async) (o : Oracle) (w : World) : Run := exec p o 0 0 w.

(** ** Interleaving: calls in flight

    [start] runs a call up to its first suspension point; what is left
    is a task waiting for the network or a timer. *)
Fixpoint start (p : Async) (w : World) : World * Async :=
  match p with
  | Act f next => start next (f w)
  | Read k => start (k w) w
  | _ => (w, p)
  end.

Definition invoke (p : Async) (wt : World * list Async) : World * list Async :=
  let '(w', t) := start p wt.1 in
  (w', match t with Ret => wt.2 | _ => wt.2 ++ [t] end).

Definition awaitsFetch (t : Async) : bool :=
  match t with AwaitFetch _ => true | _ => false end.

(** The world of a freshly mounted hook. *)
Definition initial (initialData : Obj) (pending : list PendingChange)
    (online : bool) (now : Z) : World :=
  mkWorld (mkSyncState initialData None false None Idle) pending true online now [].

(** A sequence of [sync] calls, one after the other, each with the
    closure and the network behaviour it is given. *)
Definition syncs (calls : list (Render * Oracle)) (w : World) : World :=
  foldl (λ w c, final (call (sync c.1) c.2 w)) w calls.

(** Repeated [sync] calls with no mutation in between, React rendering
    between them: each call is the callback of the render of the world
    its predecessor has left, so it sees the state and the pending log
    its predecessor has left. *)
Definition resyncs (os : list Oracle) (w : World) : World :=
  foldl (λ w o, final (call (sync (render w)) o w)) w os.

(** ** Vocabulary of the statements *)

(** The activity of [n] attempts that all fail, in a retry loop whose
    index starts at [i]: each request ([ev false]) is followed by the
    pause the loop takes after it. *)
Definition failedAttempts (ev : bool → Io) (delay i n : nat) : list Io :=
  flat_map (λ j, [ev false; IoDelay (delay * (i + j + 1))]) (seq 0 n).

(** The error [retryRequest] throws after [n] failed attempts whose
    outcomes are [resp 0 .. resp (n - 1)]. *)
Definition lastFailure {A} (resp : nat → JsError + A) (n : nat)
    (lastError : option JsError) : JsError :=
  match n with
  | O => default "Request failed after retries" lastError
  | S m => match resp m with inl e => e | inr _ => "Request failed after retries" end
  end.

Definition prepend (l : list Io) (r : Run) : Run :=
  mkRun (settled r) (final r) (l ++ trace r).

Definition isFetch (e : Io) : bool :=
  match e with IoFetch _ => true | _ => false end.

(** The three conditions under which [sync] does anything. *)
Definition proceeds (R : Render) : Prop :=
  r_online R = true ∧ hasFetch = true ∧ r_isSyncing R = false.

(** The state change of the [catch] branch and of the success branch,
    guarded by [isMounted.current]. *)
Definition failed (e : JsError) (w : World) : World :=
  if isMounted w then setFailed e w else w.
Definition succeeded (finalData : Obj) (w : World) : World :=
  if isMounted w then setSuccess finalData w else w.

(** A hook on which the [sync] of the current render passes the guard
    (given [fetchData]). *)
Definition ready (w : World) : Prop :=
  isMounted w = true ∧ online w = true ∧ isSyncing (state w) = false.

(** The fetch of a call resolves to [remote] within the retry budget. *)
Definition fetches (remote : Obj) (o : Oracle) : Prop :=
  ∃ m, m < retryAttempts ∧
       (∀ j, j < m → is_ok (fetchData o j) = false) ∧
       fetchData o m = inr remote.

(** The push of [d] succeeds within the retry budget. *)
Definition pushes (d : Obj) (o : Oracle) : Prop :=
  ∃ mp, mp < retryAttempts ∧
        (∀ j, j < mp → is_ok (pushData o j d) = false) ∧
        is_ok (pushData o mp d) = true.

End useSync.

End Sync.

(* ===================================================================== *)
(** * The reconnecting channel: [useWebSocket] *)
(* ===================================================================== *)

Module Channel.

(** [WebSocket.CONNECTING | OPEN | CLOSING | CLOSED] *)
Inductive ReadyState := CONNECTING | OPEN | CLOSING | CLOSED.

#[global] Instance ReadyState_eq_dec : EqDecision ReadyState.
Proof. solve_decision. Defined.

(** What a [connect] callback has captured from the render that created
    it: [online] and [state.reconnectCount] (both are in the dependency
    list of its [useCallback]; the other dependencies are options of the
    hook and do not change).  The handlers [connect] installs on a socket,
    and the timer callback it schedules, are closures over the same
    values; inside them [connect] is that same callback. *)
Record Closure : Type := mkClosure {
  c_online : bool;
  c_reconnectCount : nat;
}.

(** A browser [WebSocket] object: its [readyState], the closure of the
    [connect] call that installed its handlers, and the frames handed to
    its [send]. *)
Record Socket : Type := mkSocket {
  ws_readyState : ReadyState;
  ws_handlers : Closure;
  ws_sent : list string;
}.

(** [interface WebSocketState] *)
Record WebSocketState : Type := mkWsState {
  readyState : ReadyState;
  connected : bool;
  error : option string;
  lastMessage : option string;
  reconnectCount : nat;
}.

Section useWebSocket.
(** Messages ([any]) and their wire form
    [typeof message === 'string' ? message : JSON.stringify(message)];
    [None] when [JSON.stringify] throws. *)
Context {Msg : Type}.
Variable encode : Msg → option string.

(** The options of the hook (no event callbacks supplied).
    [reconnectInterval] is only the delay of the reconnect timer; when a
    pending timer fires is up to the environment ([TimeoutFires]). *)
Variable reconnectAttempts : nat.
Variable heartbeatInterval : nat.
Variable heartbeatMessage : Msg.

(** The cells of one [useWebSocket] instance and the browser objects it
    has created.  Sockets, timeouts and intervals are identified by
    their position in the tables; a timeout or interval entry records
    whether it is still pending.  [rendered] holds the values
    [(online, connected, reconnectCount)] of the last committed render
    ([None] before the mount). *)
Record World : Type := mkWorld {
  state : WebSocketState;
  online : bool;
  sockets : list Socket;
  timeouts : list (bool * Closure);
  intervals : list bool;
  wsRef : option nat;
  reconnectTimeoutRef : option nat;
  heartbeatIntervalRef : option nat;
  reconnectingRef : bool;
  messageQueueRef : list Msg;
  rendered : option (bool * bool * nat);
}.

Definition with_state (s : WebSocketState) (w : World) : World :=
  mkWorld s (online w) (sockets w) (timeouts w) (intervals w) (wsRef w)
    (reconnectTimeoutRef w) (heartbeatIntervalRef w) (reconnectingRef w)
    (messageQueueRef w) (rendered w).
Definition with_sockets (l : list Socket) (w : World) : World :=
  mkWorld (state w) (online w) l (timeouts w) (intervals w) (wsRef w)
    (reconnectTimeoutRef w) (heartbeatIntervalRef w) (reconnectingRef w)
    (messageQueueRef w) (rendered w).
Definition with_timeouts (l : list (bool * Closure)) (w : World) : World :=
  mkWorld (state w) (online w) (sockets w) l (intervals w) (wsRef w)
    (reconnectTimeoutRef w) (heartbeatIntervalRef w) (reconnectingRef w)
    (messageQueueRef w) (rendered w).
Definition with_intervals (l : list bool) (w : World) : World :=
  mkWorld (state w) (online w) (sockets w) (timeouts w) l (wsRef w)
    (reconnectTimeoutRef w) (heartbeatIntervalRef w) (reconnectingRef w)
    (messageQueueRef w) (rendered w).
Definition with_wsRef (r : option nat) (w : World) : World :=
  mkWorld (state w) (online w) (sockets w) (timeouts w) (intervals w) r
    (reconnectTimeoutRef w) (heartbeatIntervalRef w) (reconnectingRef w)
    (messageQueueRef w) (rendered w).
Definition with_reconnectTimeoutRef (r : option nat) (w : World) : World :=
  mkWorld (state w) (online w) (sockets w) (timeouts w) (intervals w) (wsRef w)
    r (heartbeatIntervalRef w) (reconnectingRef w)
    (messageQueueRef w) (rendered w).
Definition with_heartbeatIntervalRef (r : option nat) (w : World) : World :=
  mkWorld (state w) (online w) (sockets w) (timeouts w) (intervals w) (wsRef w)
    (reconnectTimeoutRef w) r (reconnectingRef w)
    (messageQueueRef w) (rendered w).
Definition with_reconnectingRef (b : bool) (w : World) : World :=
  mkWorld (state w) (online w) (sockets w) (timeouts w) (intervals w) (wsRef w)
    (reconnectTimeoutRef w) (heartbeatIntervalRef w) b
    (messageQueueRef w) (rendered w).
Definition with_messageQueueRef (q : list Msg) (w : World) : World :=
  mkWorld (state w) (online w) (sockets w) (timeouts w) (intervals w) (wsRef w)
    (reconnectTimeoutRef w) (heartbeatIntervalRef w) (reconnectingRef w)
    q (rendered w).
Definition with_rendered (r : option (bool * bool * nat)) (w : World) : World :=
  mkWorld (state w) (online w) (sockets w) (timeouts w) (intervals w) (wsRef w)
    (reconnectTimeoutRef w) (heartbeatIntervalRef w) (reconnectingRef w)
    (messageQueueRef w) r.
Definition with_online (b : bool) (w : World) : World :=
  mkWorld (state w) b (sockets w) (timeouts w) (intervals w) (wsRef w)
    (reconnectTimeoutRef w) (heartbeatIntervalRef w) (reconnectingRef w)
    (messageQueueRef w) (rendered w).

(** [setState(prev => ({ ...prev, ... }))] *)
Definition setState (f : WebSocketState → WebSocketState) (w : World) : World :=
  with_state (f (state w)) w.

(** [wsRef.current?.readyState] *)
Definition currentReadyState (w : World) : option ReadyState :=
  i ← wsRef w; ws_readyState <$> (sockets w !! i).

(** The browser changes the [readyState] of a socket. *)
Definition setReadyState (i : nat) (r : ReadyState) (w : World) : World :=
  match sockets w !! i with
  | Some s => with_sockets (<[i := mkSocket r (ws_handlers s) (ws_sent s)]> (sockets w)) w
  | None => w
  end.

(** [clearTimeout(id)] *)
Definition clearTimeout (id : option nat) (w : World) : World :=
  match id with
  | Some t =>
      match timeouts w !! t with
      | Some (_, c) => with_timeouts (<[t := (false, c)]> (timeouts w)) w
      | None => w
      end
  | None => w
  end.

(** [clearInterval(id)] *)
Definition clearInterval (id : option nat) (w : World) : World :=
  match id with
  | Some h => with_intervals (<[h := false]> (intervals w)) w
  | None => w
  end.

(** [connect], as the callback whose closure is [c].  The constructor
    [new WebSocket(url, protocols)] is taken to succeed. *)
Definition connect (c : Closure) (w : World) : World :=
  if negb (c_online c) || bool_decide (currentReadyState w = Some OPEN) then w
  else
    let id := length (sockets w) in
    let w1 := with_sockets (sockets w ++ [mkSocket CONNECTING c []]) w in
    let w2 := with_wsRef (Some id) w1 in
    setState (λ prev, mkWsState CONNECTING (connected prev) (error prev)
                        (lastMessage prev) (reconnectCount prev)) w2.

(** [send(message)].  When the encoding throws, the state records an
    error; the text [Failed to send message] stands for it, the message
    of the thrown error is not recorded. *)
Definition send (message : Msg) (w : World) : bool * World :=
  match wsRef w with
  | None => (false, with_messageQueueRef (messageQueueRef w ++ [message]) w)
  | Some i =>
      match sockets w !! i with
      | Some s =>
          if bool_decide (ws_readyState s = OPEN) then
            match encode message with
            | Some d =>
                (true, with_sockets
                         (<[i := mkSocket (ws_readyState s) (ws_handlers s) (ws_sent s ++ [d])]>
                            (sockets w)) w)
            | None =>
                (false, setState (λ prev, mkWsState (readyState prev) (connected prev)
                                            (Some "Failed to send message")
                                            (lastMessage prev) (reconnectCount prev)) w)
            end
          else (false, with_messageQueueRef (messageQueueRef w ++ [message]) w)
      | None => (false, with_messageQueueRef (messageQueueRef w ++ [message]) w)
      end
  end.

(** [while (messageQueueRef.current.length > 0) { send(shift()) }], with
    fuel: [None] means the fuel ran out with the queue still non-empty. *)
Fixpoint flushQueue (fuel : nat) (w : World) : option World :=
  match messageQueueRef w with
  | [] => Some w
  | message :: rest =>
      match fuel with
      | O => None
      | S fuel' => flushQueue fuel' (send message (with_messageQueueRef rest w)).2
      end
  end.

(** [setState(prev => ({ ...prev, connected: true, error: null,
    readyState: WebSocket.OPEN, reconnectCount: 0 }))] *)
Definition setOpen (w : World) : World :=
  setState (λ prev, mkWsState OPEN true None (lastMessage prev) 0) w.

(** The [onopen] handler.  An iteration of the flush loop either sends a
    message and shortens the queue or puts the message back, so a loop
    that has not finished after [length queue] iterations never
    finishes ([flushQueue_None_diverges]); [None] is that divergence. *)
Definition onopen (w : World) : option World :=
  let w1 := setOpen w in
  w2 ← flushQueue (length (messageQueueRef w1)) w1;
  Some (if bool_decide (0 < heartbeatInterval) then
          with_heartbeatIntervalRef (Some (length (intervals w2)))
            (with_intervals (intervals w2 ++ [true]) w2)
        else w2).

(** The callback given to [setTimeout] by [onclose]. *)
Definition reconnect (c : Closure) (w : World) : World :=
  let w1 := setState (λ prev, mkWsState (readyState prev) (connected prev) (error prev)
                                (lastMessage prev) (reconnectCount prev + 1)) w in
  connect c (with_reconnectingRef false w1).

(** The [onclose] handler installed by the [connect] with closure [c]:
    [state.reconnectCount] is the captured one. *)
Definition onclose (c : Closure) (w : World) : World :=
  let w1 := setState (λ prev, mkWsState CLOSED false (error prev)
                                (lastMessage prev) (reconnectCount prev)) w in
  let w2 := clearInterval (heartbeatIntervalRef w1) w1 in
  if negb (reconnectingRef w2) && bool_decide (c_reconnectCount c < reconnectAttempts) then
    with_reconnectTimeoutRef (Some (length (timeouts w2)))
      (with_timeouts (timeouts w2 ++ [(true, c)])
         (with_reconnectingRef true w2))
  else w2.

(** The [onerror] handler: [wsRef.current?.readyState || WebSocket.CLOSED],
    where [CONNECTING] is the falsy number 0. *)
Definition onerror (w : World) : World :=
  let r := match currentReadyState w with
           | Some CONNECTING | None => CLOSED
           | Some r => r
           end in
  setState (λ prev, mkWsState r (connected prev) (Some "WebSocket error")
                      (lastMessage prev) (reconnectCount prev)) w.

(** The [onmessage] handler; the decoded form of the text is not modelled. *)
Definition onmessage (text : string) (w : World) : World :=
  setState (λ prev, mkWsState (readyState prev) (connected prev) (error prev)
                      (Some text) (reconnectCount prev)) w.

(** [close()].  [ws.close()] moves a socket that is not yet closed to
    [CLOSING]; the browser delivers its close event later. *)
Definition close (w : World) : World :=
  let w1 := clearTimeout (reconnectTimeoutRef w) w in
  let w2 := clearInterval (heartbeatIntervalRef w1) w1 in
  let w3 := match wsRef w2 with
            | Some i =>
                with_wsRef None
                  (match ws_readyState <$> (sockets w2 !! i) with
                   | Some CLOSED | None => w2
                   | Some _ => setReadyState i CLOSING w2
                   end)
            | None => w2
            end in
  setState (λ prev, mkWsState CLOSED false (error prev) (lastMessage prev)
                      (reconnectCount prev))
    (with_messageQueueRef [] w3).

(** A render followed by its effects.  The callback [connect] is new
    exactly when [online] or [state.reconnectCount] differ from the last
    render, so the first effect (dependencies [online, connect, close])
    is run again in that case, after its cleanup [close]; the second
    effect has the dependencies [online, state.connected,
    state.reconnectCount, reconnectAttempts, connect] and tests the
    values of the render. *)
Definition commit (w : World) : World :=
  let o := online w in
  let cn := connected (state w) in
  let rc := reconnectCount (state w) in
  let c := mkClosure o rc in
  let effect1 (w : World) := if o then connect c w else w in
  let effect2 (w : World) :=
    if o && negb cn && bool_decide (rc < reconnectAttempts) then connect c w else w in
  let w' :=
    match rendered w with
    | None => effect2 (effect1 w)
    | Some (o', cn', rc') =>
        let w1 := if bool_decide ((o', rc') = (o, rc)) then w else effect1 (close w) in
        if bool_decide ((o', cn', rc') = (o, cn, rc)) then w1 else effect2 w1
    end in
  with_rendered (Some (o, cn, rc)) w'.

(** What can happen to a mounted hook. *)
Inductive Event :=
| Commit                                   (* React renders and runs effects *)
| WsOpen (i : nat)                         (* socket [i] is connected *)
| WsClose (i : nat)                        (* socket [i] is closed or has failed *)
| WsError (i : nat)
| WsMessage (i : nat) (text : string)
| TimeoutFires (t : nat)
| IntervalFires (h : nat)
| CallSend (message : Msg)
| CallClose
| CallConnect
| NetworkStatus (o : bool).

Inductive Result :=
| Next (w : World)
| NotEnabled          (* the event cannot happen in this world *)
| Hangs.              (* the handler never returns *)

Definition step (e : Event) (w : World) : Result :=
  match e with
  | Commit => Next (commit w)
  | WsOpen i =>
      match sockets w !! i with
      | Some s =>
          if bool_decide (ws_readyState s = CONNECTING)
          then match onopen (setReadyState i OPEN w) with
               | Some w' => Next w'
               | None => Hangs
               end
          else NotEnabled
      | None => NotEnabled
      end
  | WsClose i =>
      match sockets w !! i with
      | Some s =>
          if bool_decide (ws_readyState s = CLOSED) then NotEnabled
          else Next (onclose (ws_handlers s) (setReadyState i CLOSED w))
      | None => NotEnabled
      end
  | WsError i =>
      match sockets w !! i with
      | Some s => Next (onerror w)
      | None => NotEnabled
      end
  | WsMessage i text =>
      match sockets w !! i with
      | Some s =>
          if bool_decide (ws_readyState s = OPEN) then Next (onmessage text w)
          else NotEnabled
      | None => NotEnabled
      end
  | TimeoutFires t =>
      match timeouts w !! t with
      | Some (true, c) =>
          Next (reconnect c (with_timeouts (<[t := (false, c)]> (timeouts w)) w))
      | _ => NotEnabled
      end
  | IntervalFires h =>
      match intervals w !! h with
      | Some true => Next (send heartbeatMessage w).2
      | _ => NotEnabled
      end
  | CallSend message => Next (send message w).2
  | CallClose => Next (close w)
  | CallConnect =>
      match rendered w with
      | Some (o, _, rc) => Next (connect (mkClosure o rc) w)
      | None => NotEnabled
      end
  | NetworkStatus o => Next (with_online o w)
  end.

Definition world (r : Result) : option World :=
  match r with
  | Next w => Some w
  | NotEnabled | Hangs => None
  end.

Fixpoint run (events : list Event) (w : World) : Result :=
  match events with
  | [] => Next w
  | e :: rest =>
      match step e w with
      | Next w' => run rest w'
      | r => r
      end
  end.

(** The hook before its first render is committed. *)
Definition initial (online : bool) : World :=
  mkWorld (mkWsState CLOSED false None None 0) online [] [] [] None None None
    false [] None.

End useWebSocket.

End Channel.

(* ===================================================================== *)
(** * Concrete configurations and scenarios *)
(* ===================================================================== *)

Module Scenarios.

(** ** Cache *)

Definition entryText (e : Cache.CacheEntry nat) : string := "entry".

(** A cache of numbers with [ttl = 10], [maxSize = 5], no validator and no
    durable backing, after [set("k", 7)] at time 0. *)
Definition cache_k : Cache.State nat :=
  default Cache.initial (Cache.set 10 5 None entryText "k" 7 0 0 Cache.initial).

(** ** Synchronizer *)

(** Field values of the synchronised objects. *)
Inductive Value := Num (z : Z) | Str (s : string).

Definition count (n : Z) : gmap string Value := {[ "count" := Num n ]}.
Definition remote0 : gmap string Value :=
  {[ "count" := Num 0; "extra" := Str "x" ]}.
Definition merged1 : gmap string Value :=
  {[ "count" := Num 1; "extra" := Str "x" ]}.

(** The network is down: every request is rejected. *)
Definition networkDown : Sync.Oracle :=
  Sync.mkOracle (λ _, inl "Network error") (λ _ (_ : gmap string Value), inl "Network error").

(** Fetches resolve to [remote]; pushes are rejected. *)
Definition pushRejected (remote : gmap string Value) : Sync.Oracle :=
  Sync.mkOracle (λ _, inr remote) (λ _ _, inl "Network error").

(** Fetches resolve to [remote]; pushes are accepted. *)
Definition networkUp (remote : gmap string Value) : Sync.Oracle :=
  Sync.mkOracle (λ _, inr remote) (λ _ _, inr ()).

(** A mounted hook with [initialData = {count: 0}], online, idle. *)
Definition idle0 : Sync.World := Sync.initial (count 0) [] true 0.

(** The same hook after [update({count: 1})] (default merge, no
    validator). *)
Definition edited1 : Sync.World := Sync.applyUpdate None None (count 1) idle0.

(** ** Channel *)

(** Text messages, sent as they are. *)
Definition text (m : string) : option string := Some m.

(** A server that never accepts a connection, with [reconnectAttempts = 3]:
    the hook mounts (its two effects each call [connect]), both sockets
    fail, the reconnect timer fires and React renders the new
    [reconnectCount]; and so on. *)
Definition neverConnects : list (@Channel.Event string) :=
  [ Channel.Commit; Channel.WsClose 0; Channel.WsClose 1; Channel.TimeoutFires 0;
    Channel.Commit; Channel.WsClose 2; Channel.WsClose 3; Channel.WsClose 4;
    Channel.TimeoutFires 1;
    Channel.Commit; Channel.WsClose 5; Channel.WsClose 6; Channel.WsClose 7;
    Channel.TimeoutFires 2;
    Channel.Commit; Channel.WsClose 8; Channel.WsClose 9 ].

Definition runChannel (events : list (@Channel.Event string)) : @Channel.Result string :=
  Channel.run text 3 1000 "ping" events (Channel.initial true).

(** The hook has mounted while online and [send("m")] was called before
    any socket opened. *)
Definition mountedQueued : @Channel.World string :=
  default (Channel.initial true)
    (Channel.world (runChannel [Channel.Commit; Channel.CallSend "m"])).

End Scenarios.

(* ===================================================================== *)
(** * The cache, continued: [clear] and the load from storage at mount *)
(* ===================================================================== *)

Module CacheStore.
Import Cache.

(** [k.startsWith('cache:')] *)
Definition isCacheKey (k : string) : bool := String.prefix "cache:" k.

(** [s.replace(pattern, replacement)] with a string pattern: the first
    occurrence of the pattern is replaced. *)
Definition replace (pattern replacement s : string) : string :=
  match String.index 0 pattern s with
  | Some i =>
      String.substring 0 i s +:+ replacement +:+
      String.substring (i + String.length pattern)
        (String.length s - (i + String.length pattern)) s
  | None => s
  end.

Section store.
Context {T : Type}.
Variable validate : option (T → bool).
(** [deserialize(rawData)] followed by the destructuring of its result;
    [inl] is the error either of them throws. *)
Variable deserialize : string → string + CacheEntry T.

(** [clear()] *)
Definition clear (s : State T) : State T :=
  mkState ∅ [] (filter (λ kv : string * string, isCacheKey kv.1 = false) <$> storage s)
    (hookData s) (hookError s).

(** The [forEach] of the mount effect over the [cache:] keys of the
    storage.  [now key] is the reading of [Date.now()] when [key] is
    examined.  A throw leaves the loop: the [catch] records the error and
    the keys not yet examined stay as they are. *)
Fixpoint loadKeys (now : string → Z) (keys : list string) (s : State T) : State T :=
  match keys with
  | [] => s
  | key :: rest =>
      match storage s ≫= (λ m, m !! key) with
      | Some rawData =>
          if truthy rawData then
            match deserialize rawData with
            | inl err =>
                mkState (cacheRef s) (accessOrderRef s) (storage s) (hookData s) (Some err)
            | inr e =>
                if bool_decide (now key < expiresAt e)%Z && negb (rejected validate (data e))
                then
                  let cacheKey := replace "cache:" EmptyString key in
                  loadKeys now rest
                    (with_order (accessOrderRef s ++ [cacheKey])
                       (with_cache
                          (<[cacheKey := mkEntry (data e) (timestamp e) (expiresAt e)]>
                             (cacheRef s)) s))
                else loadKeys now rest (with_storage (removeItem key (storage s)) s)
            end
          else loadKeys now rest s
      | None => loadKeys now rest s
      end
  end.

(** The mount effect: [if (!storage) return], then the loop over
    [Object.keys(storage).filter(k => k.startsWith('cache:'))].  The order
    in which [Object.keys] lists the items is the argument [keys]. *)
Definition mount (now : string → Z) (keys : list string) (s : State T) : State T :=
  match storage s with
  | None => s
  | Some _ => loadKeys now (filter (λ k, isCacheKey k = true) keys) s
  end.

(** What the loop does with the item stored under [key]: the entry it
    loads, if any ... *)
Definition loaded (now : string → Z) (m : gmap string string) (key : string)
  : option (CacheEntry T) :=
  match m !! key with
  | Some rawData =>
      if truthy rawData then
        match deserialize rawData with
        | inr e =>
            if bool_decide (now key < expiresAt e)%Z && negb (rejected validate (data e))
            then Some e else None
        | inl _ => None
        end
      else None
  | None => None
  end.

(** ... and whether it removes the item from the storage. *)
Definition purged (now : string → Z) (m : gmap string string) (key : string) : bool :=
  match m !! key with
  | Some rawData =>
      isCacheKey key && truthy rawData &&
      match deserialize rawData with
      | inr e =>
          negb (bool_decide (now key < expiresAt e)%Z && negb (rejected validate (data e)))
      | inl _ => false
      end
  | None => false
  end.

(** No [cache:] item makes [deserialize] throw. *)
Definition parses (m : gmap string string) : Prop :=
  ∀ key rawData, m !! key = Some rawData → isCacheKey key = true →
    truthy rawData = true → ∃ e, deserialize rawData = inr e.

(** A freshly created hook whose durable backing holds the items [m]. *)
Definition created (m : gmap string string) : State T := mkState ∅ [] (Some m) None None.

(** The durable backing holds, under [cache:key], the serialised form of
    exactly the cached entries. *)
Definition mirrors (serialize : CacheEntry T → string) (s : State T) : Prop :=
  ∃ m, storage s = Some m ∧
       ∀ k, m !! storageKey k = serialize <$> cacheRef s !! k.

(** Every cached key other than the empty string is listed, and no key
    is listed twice. *)
Definition listed (s : State T) : Prop :=
  NoDup (accessOrderRef s) ∧
  ∀ k, k ≠ EmptyString → is_Some (cacheRef s !! k) → k ∈ accessOrderRef s.

(** ... and, moreover, no listed key is the empty string and the empty
    string is listed when cached. *)
Definition wellListed (s : State T) : Prop :=
  NoDup (accessOrderRef s) ∧
  (∀ k, k ∈ accessOrderRef s → k ≠ EmptyString) ∧
  (∀ k, is_Some (cacheRef s !! k) → k ∈ accessOrderRef s).

(** A sequence of calls alone, without the bookkeeping of touches: every
    write to the backing succeeds and the mount effect does not run
    again between the calls.  [run] below has both. *)
Fixpoint performs (ttl : Z) (maxSize : nat) (serialize : CacheEntry T → string)
    (ops : list (@Op T)) (s : State T) : option (State T) :=
  match ops with
  | [] => Some s
  | op :: rest =>
      s' ← perform ttl maxSize validate serialize op s;
      performs ttl maxSize serialize rest s'
  end.

(** ** Calls, renders and writes that throw *)

(** [set(key, value)] on a hook whose write to the backing can throw.
    [thrown] is the error that [serialize(entry)] or [storage.setItem]
    throws, [None] when both return; without a backing neither is
    called.  The write comes after the cache, the order and the
    evictions have been updated: the [catch] records the error and
    [setData] is skipped. *)
Definition setWrite (ttl : Z) (maxSize : nat) (serialize : CacheEntry T → string)
    (thrown : option string) (key : string) (value : T) (now1 now2 : Z) (s : State T)
  : option (State T) :=
  if rejected validate value then
    Some (mkState (cacheRef s) (accessOrderRef s) (storage s) (hookData s)
            (Some "Invalid data"))
  else
    let entry := mkEntry value now1 (now2 + ttl) in
    let s1 := with_cache (<[key := entry]> (cacheRef s)) s in
    let s2 := with_order (updateAccessOrder key (accessOrderRef s1)) s1 in
    match enforceSizeLimit maxSize s2 with
    | None => None
    | Some s3 =>
        match storage s3, thrown with
        | Some _, Some err =>
            Some (mkState (cacheRef s3) (accessOrderRef s3) (storage s3) (hookData s3)
                    (Some err))
        | _, _ =>
            Some (mkState (cacheRef s3) (accessOrderRef s3)
                    (setItem (storageKey key) (serialize entry) (storage s3))
                    (Some value) None)
        end
    end.

(** What can happen to a mounted hook: a call of [set], [get], [has] or
    [remove] (for a [set], with the error its write throws, if any), a
    call of [clear], and a new run of the mount effect.  React runs the
    effect again after a render in which [storage], [deserialize],
    [validate] or [onError] is not the object of the previous render
    (options written inline are new objects in every render); [keys] is
    what [Object.keys(storage)] lists then. *)
Inductive Event :=
| Call (op : @Op T) (thrown : option string)
| CallClear
| Rerun (now : string → Z) (keys : list string).

Definition step (ttl : Z) (maxSize : nat) (serialize : CacheEntry T → string)
    (ev : Event) (s : State T) : option (State T) :=
  match ev with
  | Call (OpSet key value now1 now2) thrown =>
      setWrite ttl maxSize serialize thrown key value now1 now2 s
  | Call op _ => perform ttl maxSize validate serialize op s
  | CallClear => Some (clear s)
  | Rerun now keys => Some (mount now keys s)
  end.

Fixpoint run (ttl : Z) (maxSize : nat) (serialize : CacheEntry T → string)
    (events : list Event) (s : State T) : option (State T) :=
  match events with
  | [] => Some s
  | ev :: rest =>
      s' ← step ttl maxSize serialize ev s;
      run ttl maxSize serialize rest s'
  end.



(** The event is a call on a non-empty key whose write, if it makes
    one, succeeds. *)
Definition quiet (ev : Event) : Prop :=
  match ev with
  | Call op thrown => opKey op ≠ EmptyString ∧ thrown = None
  | CallClear => True
  | Rerun _ _ => False
  end.

End store.

End CacheStore.

(* ===================================================================== *)
(** * The cache, continued: [refresh] and [usePaginatedCache] *)
(* ===================================================================== *)

Module CacheFetch.
Import Cache.

Section refresh.
Context {T : Type}.
Variable ttl : Z.
Variable maxSize : nat.
Variable validate : option (T → bool).
Variable serialize : CacheEntry T → string.

(** The cells of the hook together with its [isLoading] state. *)
Record Hook : Type := mkHook {
  h_cells : State T;
  h_isLoading : bool;
}.

(** [setError(e)] *)
Definition setError (e : option string) (s : State T) : State T :=
  mkState (cacheRef s) (accessOrderRef s) (storage s) (hookData s) e.

(** [refresh(key)], run to completion.  [fetched] is what the promise
    of [fetcher(key)] settles to; [None]: the call never returns.
    [isLoading] is true while the fetch is awaited; the [finally]
    resets it. *)
Definition refresh (key : string) (fetched : string + T) (now1 now2 : Z) (h : Hook)
  : option Hook :=
  let s0 := setError None (h_cells h) in
  match fetched with
  | inr value =>
      s' ← set ttl maxSize validate serialize key value now1 now2 s0;
      Some (mkHook s' false)
  | inl e => Some (mkHook (setError (Some e) s0) false)
  end.

End refresh.

Section usePaginatedCache.
(** The cached values are pages, arrays of items; an array is truthy. *)
Context {A Page : Type}.
Variable ttl : Z.
Variable maxSize : nat.
Variable validate : option (list A → bool).
Variable serialize : CacheEntry (list A) → string.
(** [page.toString()] *)
Variable toString : Page → string.

(** [fetchPage(page)], run to completion; [now0] and [now3] are the
    readings of [Date.now()] in the two calls of [get]. *)
Definition fetchPage (page : Page) (fetched : string + list A)
    (now0 now1 now2 now3 : Z) (h : Hook) : option (list A * Hook) :=
  let key := toString page in
  match get key now0 (h_cells h) with
  | (Some cached, s1) => Some (cached, mkHook s1 (h_isLoading h))
  | (None, s1) =>
      h2 ← refresh ttl maxSize validate serialize key fetched now1 now2
              (mkHook s1 (h_isLoading h));
      let '(r, s3) := get key now3 (h_cells h2) in
      Some (default [] r, mkHook s3 (h_isLoading h2))
  end.

(** What a fetch that happens at times [now2] and is read back at
    [now3] contributes. *)
Definition fetchedPage (fetched : string + list A) (now2 now3 : Z) : list A :=
  match fetched with
  | inr value =>
      if rejected validate value || bool_decide (now2 + ttl < now3)%Z then [] else value
  | inl _ => []
  end.

End usePaginatedCache.
End CacheFetch.

(** * Inputs for the cache with a durable backing *)

Module StoreScenarios.
Import Cache CacheStore.

(** [set("a", 1); set("b", 2); get("a")] at times 0, 1 and 2. *)
Definition setAsetBgetA : list (@Op nat) :=
  [OpSet "a" 1 0 0; OpSet "b" 2 1 1; OpGet "a" 2].

(** The cells and the touch times after these operations, with
    [ttl = 10] and [maxSize = 2]. *)
Definition afterAB : @Tracked nat :=
  default fresh (tracks 10 2 None Scenarios.entryText setAsetBgetA fresh).

(** A text format for entries of strings whose times are below 10: the
    digit of [timestamp], the digit of [expiresAt], then the data. *)
Definition digit (z : Z) : Ascii.ascii := Ascii.ascii_of_nat (48 + Z.to_nat z).
Definition digitValue (c : Ascii.ascii) : Z := Z.of_nat (Ascii.nat_of_ascii c) - 48.

Definition digitText (e : CacheEntry string) : string :=
  String (digit (timestamp e)) (String (digit (expiresAt e)) (data e)).

Definition digitParse (rawData : string) : string + CacheEntry string :=
  match rawData with
  | String t (String x rest) => inr (mkEntry rest (digitValue t) (digitValue x))
  | _ => inl "Unexpected end of JSON input"
  end.

(** A backing with a live entry, an expired one and a foreign item, read
    at time 5. *)
Definition backing : gmap string string :=
  {[ "cache:a" := "09x"; "cache:b" := "01y"; "theme" := "dark" ]}.

(** The cells after [set("a", "x")] at time 0 and [set("b", "y")] at
    time 1, with [ttl = 5], [maxSize = 2] and an empty backing at mount. *)
Definition twoStored : State string :=
  default (created ∅)
    (performs None 5 2 digitText [OpSet "a" "x" 0 0; OpSet "b" "y" 1 1] (created ∅)).

(** [set("a", "x")] at time 0 and [set("b", "y")] at time 1, both
    written to the backing; then the mount effect runs again at time 2,
    the backing listing the two items. *)
Definition storedThenRerun : list (@Event string) :=
  [ Call (OpSet "a" "x" 0 0) None; Call (OpSet "b" "y" 1 1) None;
    Rerun (λ _, 2%Z) ["cache:a"; "cache:b"] ].


(** [page.toString()] for a page number that is a natural number. *)
Definition pageKey (page : nat) : string := pretty page.

End StoreScenarios.

(* ===================================================================== *)
(** * The synchronizer, continued: vocabulary of runs and [useSyncGroup] *)
(* ===================================================================== *)

Module SyncLog.
Import Sync.

Section log.
Context {V : Type}.

Definition isPush (e : @Io V) : bool :=
  match e with IoPush _ _ => true | _ => false end.

(** The time spent in the pauses of a run, in milliseconds. *)
Definition waited (tr : list (@Io V)) : nat :=
  sum_list (omap (λ e, match e with IoDelay ms => Some ms | _ => None end) tr).

(** The values the [Update] changes of a log give to [field], oldest
    first. *)
Definition writes (field : string) (p : list (@PendingChange V)) : list V :=
  omap (λ c, match type c with
             | Update => change c !! field
             | Delete => None
             end) p.

End log.
End SyncLog.

Module SyncEffects.
Import Sync.

Section effects.
Context {V : Type}.
Variable retryAttempts : nat.
Variable retryDelay : nat.
Variable hasFetch : bool.
Variable hasPush : bool.
Variable mergeStrategy : option (gmap string V → gmap string V → gmap string V).
Variable validateData : option (gmap string V → bool).

(** The body of the effect [if (online && pendingChanges.length > 0)
    sync()], as run after the render of the world it is given: [online],
    [pendingChanges] and [sync] are those of that render.  Its
    dependencies are [online, pendingChanges, sync], and [sync] is a new
    callback whenever [online], [state.isSyncing] or [pendingChanges]
    differ from the previous render: React runs the effect after every
    render in which one of the three has changed. *)
Definition syncWhenOnline (wt : @World V * list (@Async V)) : @World V * list (@Async V) :=
  if online wt.1 && negb (Nat.eqb (length (pendingChanges wt.1)) 0)
  then invoke (sync retryAttempts retryDelay hasFetch hasPush mergeStrategy validateData
                 (render wt.1)) wt
  else wt.

End effects.
End SyncEffects.

Module SyncGroup.
Import Sync.

Section useSyncGroup.
Context {V : Type}.

(** [syncs.some(sync => sync.isSyncing)] *)
Definition groupIsSyncing (syncs : list (@SyncState V)) : bool :=
  existsb isSyncing syncs.

(** [syncs.some(sync => sync.error !== null)] *)
Definition hasError (syncs : list (@SyncState V)) : bool :=
  existsb (λ s, match error s with Some _ => true | None => false end) syncs.

(** The callback of the [reduce]: a [Date] is truthy, [null] is not;
    dates compare by their time value. *)
Definition later (latest : option Z) (s : @SyncState V) : option Z :=
  match latest with
  | None => lastSynced s
  | Some t =>
      match lastSynced s with
      | Some t' => if bool_decide (t' > t)%Z then lastSynced s else latest
      | None => latest
      end
  end.

(** [syncs.reduce(..., null)] *)
Definition groupLastSynced (syncs : list (@SyncState V)) : option Z :=
  foldl later None syncs.

End useSyncGroup.
End SyncGroup.

(** * Inputs for the synchronizer, continued *)

Module SyncScenarios.
Import Sync Scenarios.

(** A validator that accepts an object whose [count] is a number below 1. *)
Definition smallCount (d : gmap string Value) : bool :=
  match d !! "count" with
  | Some (Num n) => bool_decide (n < 1)%Z
  | _ => false
  end.

(** Three members of a group: never synchronised, synchronised at time
    40, synchronised at time 25. *)
Definition members : list (@SyncState Value) :=
  [ mkSyncState (count 0) None false None Idle;
    mkSyncState (count 1) (Some 40%Z) false None Success;
    mkSyncState (count 2) (Some 25%Z) true None Syncing ].

End SyncScenarios.

(* ===================================================================== *)
(** * [useOfflineFirst] of [useNetwork.ts]: the queue of requests *)
(* ===================================================================== *)

Module Offline.

Section useOfflineFirst.
(** A queued request, the thunk [() => Promise<T>]. *)
Context {Req : Type}.

(** The [queue] state cell, and the requests called so far, in order. *)
Record World : Type := mkWorld {
  queue : list Req;
  issued : list Req;
}.

(** What [processQueue] of one render has captured: its dependencies
    [online] and [queue].  [enqueue] has [online] as its only dependency:
    it calls the [processQueue] of the render in which it was created. *)
Record Closure : Type := mkClosure {
  c_online : bool;
  c_queue : list Req;
}.

(** [setQueue(updater)] *)
Definition setQueue (updater : list Req → list Req) (w : World) : World :=
  mkWorld (updater (queue w)) (issued w).

(** One turn of the [for] loop of [processQueue]: the request is called
    and awaited; [ok n] tells whether the promise of the [n]-th call
    since mount is fulfilled.  A rejection puts the request back. *)
Definition attempt (ok : nat → bool) (w : World) (request : Req) : World :=
  let called := mkWorld (queue w) (issued w ++ [request]) in
  if ok (length (issued w)) then called
  else setQueue (λ prev, prev ++ [request]) called.

(** [processQueue], run to completion with nothing interleaved. *)
Definition processQueue (c : Closure) (ok : nat → bool) (w : World) : World :=
  if negb (c_online c) || Nat.eqb (length (c_queue c)) 0 then w
  else foldl (attempt ok) (setQueue (λ _, []) w) (c_queue c).

(** [enqueue(request)]; the boolean tells whether the promise it
    returns is resolved. *)
Definition enqueue (request : Req) (c : Closure) (ok : nat → bool) (w : World)
  : World * bool :=
  let w1 := setQueue (λ prev, prev ++ [request]) w in
  if c_online c then (processQueue c ok w1, true) else (w1, false).

(** The requests of [q] whose call is rejected, when the first of them
    is the [n]-th call since mount. *)
Definition failures (ok : nat → bool) (n : nat) (q : list Req) : list Req :=
  omap id (imap (λ i request, if ok (n + i) then None else Some request) q).

End useOfflineFirst.
End Offline.

(* ===================================================================== *)
(** * The channel, continued: the reconnect timers *)
(* ===================================================================== *)

Module ChannelTimers.
Import Channel.

Section timers.
Context {Msg : Type}.

(** Timer [t] has been scheduled and has neither fired nor been
    cleared. *)
Definition pending (w : @World Msg) (t : nat) : Prop :=
  ∃ c, timeouts w !! t = Some (true, c).

(** Every pending timer is the one recorded in [reconnectTimeoutRef],
    and [reconnectingRef] is set while it is pending. *)
Definition singleTimer (w : @World Msg) : Prop :=
  ∀ t, pending w t → reconnectingRef w = true ∧ reconnectTimeoutRef w = Some t.

(** The timer cells of [w'] are those of [w]. *)
Definition sameTimers (w w' : @World Msg) : Prop :=
  timeouts w' = timeouts w ∧
  reconnectingRef w' = reconnectingRef w ∧
  reconnectTimeoutRef w' = reconnectTimeoutRef w.

(** [reconnectingRef] is set although no timer is pending. *)
Definition stalled (w : @World Msg) : Prop :=
  reconnectingRef w = true ∧ ∀ t, ¬ pending w t.

(** Heartbeat interval [h] is running and is not the one recorded in
    [heartbeatIntervalRef]. *)
Definition orphan (h : nat) (w : @World Msg) : Prop :=
  intervals w !! h = Some true ∧ heartbeatIntervalRef w ≠ Some h.

(** The heartbeat cells of [w'] are those of [w]. *)
Definition sameIntervals (w w' : @World Msg) : Prop :=
  intervals w' = intervals w ∧ heartbeatIntervalRef w' = heartbeatIntervalRef w.

End timers.
End ChannelTimers.

(** * Inputs for the channel, continued *)

Module ChannelScenarios.
Import Channel Scenarios.

(** The world a run ends in ([initial] when it does not end). *)
Definition worldAfter (events : list (@Event string)) : @World string :=
  default (initial true) (world (runChannel events)).

(** A hook of text messages with [reconnectAttempts = 3], mounted
    online; its current socket then fails, which schedules a
    reconnect. *)
Definition dropped : @World string := worldAfter [Commit; WsClose 1].

(** The same hook; a message is sent while the socket is connecting,
    the socket fails, and the reconnect timer fires. *)
Definition reconnecting : @World string :=
  worldAfter [Commit; CallSend "m"; WsClose 1; TimeoutFires 0].

(** The same hook; both sockets created at mount open, the second
    after the first. *)
Definition bothOpen : @World string := worldAfter [Commit; WsOpen 0; WsOpen 1].

End ChannelScenarios.

(* ===================================================================== *)
(** * Properties of the cache *)
(* ===================================================================== *)

Module CacheFacts.
Import Cache.

Section facts.
Context {T : Type}.
Variable ttl : Z.
Variable maxSize : nat.
Variable validate : option (T → bool).
Variable serialize : CacheEntry T → string.

#[local] Abbreviation evictOne := (@evictOne T).
#[local] Abbreviation enforceLoop := (@enforceLoop T maxSize).
#[local] Abbreviation enforceSizeLimit := (@enforceSizeLimit T maxSize).
#[local] Abbreviation set := (@set T ttl maxSize validate serialize).
#[local] Abbreviation get := (@get T).
#[local] Abbreviation has := (@has T).
#[local] Abbreviation remove := (@remove T).
#[local] Abbreviation Tracked := (@Tracked T).
#[local] Abbreviation Op := (@Op T).
#[local] Abbreviation Inv := (@Inv T).
#[local] Abbreviation State := (State T).
#[local] Abbreviation track := (@track T ttl maxSize validate serialize).
#[local] Abbreviation tracks := (@tracks T ttl maxSize validate serialize).

(** ** The eviction loop *)

Lemma truthy_spec k : truthy k = true ↔ k ≠ EmptyString.
Proof.
  unfold truthy. destruct (String.eqb_spec k EmptyString); simpl; split; congruence.
Qed.

Lemma pop_nil {A} : pop (@nil A) = (None, []).
Proof. reflexivity. Qed.

Lemma pop_snoc {A} (l : list A) x : pop (l ++ [x]) = (Some x, l).
Proof. unfold pop. by rewrite last_snoc, removelast_last. Qed.

Lemma evictOne_nil s :
  accessOrderRef s = [] →
  cacheRef (evictOne s) = cacheRef s ∧ accessOrderRef (evictOne s) = [].
Proof. intros H. unfold evictOne. rewrite H. by simpl. Qed.

Lemma evictOne_length s :
  length (accessOrderRef (evictOne s)) = pred (length (accessOrderRef s)).
Proof.
  unfold evictOne. destruct (accessOrderRef s) as [|x l] using rev_ind; [done|].
  rewrite pop_snoc, length_app. simpl.
  destruct (truthy x); simpl; lia.
Qed.

(** With an empty order and too many entries the loop makes no progress. *)
Lemma enforceLoop_stuck fuel s :
  accessOrderRef s = [] → maxSize < size (cacheRef s) →
  enforceLoop fuel s = None.
Proof.
  revert s. induction fuel as [|fuel IH]; intros s Ho Hs; simpl.
  - by rewrite decide_True.
  - rewrite decide_True by done.
    destruct (evictOne_nil s Ho) as [Hc Ho'].
    apply IH; [done | by rewrite Hc].
Qed.

Lemma enforceLoop_mono fuel fuel' s s' :
  enforceLoop fuel s = Some s' → fuel ≤ fuel' → enforceLoop fuel' s = Some s'.
Proof.
  revert fuel' s. induction fuel as [|fuel IH]; intros fuel' s H Hle; simpl in H.
  - destruct fuel'; simpl; case_decide; congruence.
  - destruct fuel' as [|fuel']; [lia|]. simpl. case_decide; [|done].
    apply IH; [done | lia].
Qed.

Lemma enforceLoop_None_diverges fuel s :
  length (accessOrderRef s) < fuel →
  enforceLoop fuel s = None → ∀ fuel', enforceLoop fuel' s = None.
Proof.
  revert s. induction fuel as [|fuel IH]; intros s Hlen H fuel'; [lia|].
  simpl in H. case_decide as Hsz; [|done].
  destruct (accessOrderRef s) as [|x l] eqn:Ho.
  - by apply enforceLoop_stuck.
  - assert (Hn : ∀ f, enforceLoop f (evictOne s) = None).
    { apply IH; [|done]. rewrite evictOne_length, Ho. simpl in *. lia. }
    destruct fuel'; simpl; rewrite decide_True by done; [done | apply Hn].
Qed.

(** The fuel of [enforceSizeLimit] is enough: when it runs out, the loop
    of the source does not terminate. *)
Lemma enforceSizeLimit_None_diverges s :
  enforceSizeLimit s = None → ∀ fuel, enforceLoop fuel s = None.
Proof. apply enforceLoop_None_diverges. lia. Qed.

Lemma enforceLoop_bound fuel s s' :
  enforceLoop fuel s = Some s' → size (cacheRef s') ≤ maxSize.
Proof.
  revert s. induction fuel as [|fuel IH]; intros s; simpl; case_decide; try done.
  - intros [= <-]. lia.
  - apply IH.
  - intros [= <-]. lia.
Qed.

(** A [set] that stores its value leaves at most [maxSize] entries. *)
Lemma set_bound key value now1 now2 s s' :
  rejected validate value = false →
  set key value now1 now2 s = Some s' → size (cacheRef s') ≤ maxSize.
Proof.
  unfold Cache.set. intros ->.
  destruct (Cache.enforceSizeLimit _ _) as [s3|] eqn:E; [|done].
  intros [= <-]. simpl. eapply enforceLoop_bound, E.
Qed.


(** ** The recency invariant *)

Lemma snoc_cases {A} (l : list A) : l = [] ∨ ∃ l' x, l = l' ++ [x].
Proof. destruct l as [|x l] using rev_ind; eauto. Qed.

Lemma elem_of_snoc {A} (l : list A) x y : y ∈ l ++ [x] ↔ y ∈ l ∨ y = x.
Proof. by rewrite elem_of_app, list_elem_of_singleton. Qed.

Lemma elem_of_touch key (order : list string) k :
  k ∈ updateAccessOrder key order ↔ k = key ∨ (k ≠ key ∧ k ∈ order).
Proof. unfold updateAccessOrder. by rewrite elem_of_cons, list_elem_of_filter. Qed.

Lemma evictOne_snoc s l x :
  accessOrderRef s = l ++ [x] → x ≠ EmptyString →
  cacheRef (evictOne s) = delete x (cacheRef s) ∧ accessOrderRef (evictOne s) = l.
Proof.
  intros Ho Hx. unfold Cache.evictOne. rewrite Ho, pop_snoc.
  apply truthy_spec in Hx. rewrite Hx. by destruct (storage s).
Qed.

(** The slip of [if (lastKey)]: when the popped key is the empty string
    it leaves the order but stays in the cache. *)
Lemma evictOne_empty_key s l :
  accessOrderRef s = l ++ [EmptyString] →
  cacheRef (evictOne s) = cacheRef s ∧ accessOrderRef (evictOne s) = l.
Proof. intros Ho. unfold Cache.evictOne. by rewrite Ho, pop_snoc. Qed.

(** What the loop has done when it stops: it has popped a suffix of the
    order and deleted exactly those keys. *)
Lemma enforceLoop_spec fuel s s' :
  (∀ k, k ∈ accessOrderRef s → k ≠ EmptyString) →
  enforceLoop fuel s = Some s' →
  ∃ popped, accessOrderRef s = accessOrderRef s' ++ popped ∧
    ∀ k, cacheRef s' !! k = if decide (k ∈ popped) then None else cacheRef s !! k.
Proof.
  assert (Hstop : ∀ s : State, ∃ popped, accessOrderRef s = accessOrderRef s ++ popped ∧
            ∀ k, cacheRef s !! k = if decide (k ∈ popped) then None else cacheRef s !! k).
  { intros s0. exists []. rewrite app_nil_r. split; [done|].
    intros k. rewrite decide_False; [done|]. apply not_elem_of_nil. }
  revert s. induction fuel as [|fuel IH]; intros s Ht; simpl; case_decide as Hsz; try done;
    try (intros [= <-]; apply Hstop).
  intros H. destruct (snoc_cases (accessOrderRef s)) as [Ho|(l & x & Ho)].
  - destruct (evictOne_nil s Ho) as [Hc Ho'].
    destruct (IH (evictOne s)) as (popped & Hp & Hk); [|done|].
    { intros k. rewrite Ho'. by intros ?%elem_of_nil. }
    exists popped. rewrite Ho. rewrite Ho' in Hp. split; [done|].
    intros k. by rewrite Hk, Hc.
  - assert (Hx : x ≠ EmptyString) by (apply Ht; rewrite Ho; apply elem_of_snoc; by right).
    destruct (evictOne_snoc s l x Ho Hx) as [Hc Ho'].
    destruct (IH (evictOne s)) as (popped & Hp & Hk); [|done|].
    { intros k Hin. apply Ht. rewrite Ho. rewrite Ho' in Hin. apply elem_of_snoc. by left. }
    exists (popped ++ [x]). rewrite Ho, Ho' in *. split.
    { by rewrite Hp, (assoc_L (++)). }
    intros k. rewrite Hk, Hc.
    destruct (decide (k ∈ popped)) as [Hin|Hnin].
    + rewrite decide_True; [done|]. apply elem_of_snoc. by left.
    + destruct (decide (k = x)) as [->|Hne].
      * rewrite decide_True by (apply elem_of_snoc; by right). apply lookup_delete_eq.
      * rewrite decide_False, lookup_delete_ne; [done..|].
        rewrite elem_of_snoc. by intros [?|?].
Qed.

(** A state in which every cached key is listed has at most as many
    entries as listed keys; with an empty order it is empty. *)
Lemma listed_nonempty (s : State) :
  (∀ k, is_Some (cacheRef s !! k) → k ∈ accessOrderRef s) →
  0 < size (cacheRef s) → accessOrderRef s ≠ [].
Proof.
  intros Hl Hsz Ho.
  assert (cacheRef s ≠ ∅) as Hne by (apply map_size_non_empty_iff; lia).
  apply map_choose in Hne as (i & x & Hi).
  specialize (Hl i (mk_is_Some _ _ Hi)). rewrite Ho in Hl. by apply elem_of_nil in Hl.
Qed.

(** When every cached key is listed and no listed key is empty, the loop
    stops. *)
Lemma enforceLoop_terminates n s :
  length (accessOrderRef s) ≤ n →
  (∀ k, k ∈ accessOrderRef s → k ≠ EmptyString) →
  (∀ k, is_Some (cacheRef s !! k) → k ∈ accessOrderRef s) →
  is_Some (enforceLoop (S n) s).
Proof.
  revert s. induction n as [|n IH]; intros s Hlen Ht Hl;
    cbn [Cache.enforceLoop]; (case_decide as Hsz; [|done]);
    pose proof (listed_nonempty s Hl ltac:(lia)) as Hne;
    (destruct (snoc_cases (accessOrderRef s)) as [Ho|(l & x & Ho)]; [done|]).
  - rewrite Ho, length_app in Hlen. simpl in Hlen. lia.
  - assert (Hx : x ≠ EmptyString) by (apply Ht; rewrite Ho; apply elem_of_snoc; by right).
    destruct (evictOne_snoc s l x Ho Hx) as [Hc Ho'].
    apply IH.
    + rewrite Ho'. rewrite Ho, length_app in Hlen. simpl in Hlen. lia.
    + intros k Hin. apply Ht. rewrite Ho. rewrite Ho' in Hin. apply elem_of_snoc. by left.
    + intros k. rewrite Hc, Ho'. intros [y Hy].
      apply lookup_delete_Some in Hy as [Hkx Hy].
      specialize (Hl k (mk_is_Some _ _ Hy)). rewrite Ho in Hl.
      apply elem_of_snoc in Hl as [?|?]; [done|congruence].
Qed.

Lemma enforceSizeLimit_terminates s :
  (∀ k, k ∈ accessOrderRef s → k ≠ EmptyString) →
  (∀ k, is_Some (cacheRef s !! k) → k ∈ accessOrderRef s) →
  is_Some (enforceSizeLimit s).
Proof. intros. by apply enforceLoop_terminates. Qed.

(** ** The recency invariant *)

Lemma sorted_filter lt (P : string → Prop) `{∀ x, Decision (P x)} l :
  StronglySorted (newer lt) l → StronglySorted (newer lt) (filter P l).
Proof.
  induction 1 as [|a l Hs IH Hall]; [constructor|].
  rewrite filter_cons. case_decide; [|done].
  constructor; [done|].
  rewrite Forall_forall in *. intros x Hx. apply Hall.
  by apply list_elem_of_filter in Hx as [_ ?].
Qed.

Lemma sorted_insert_fresh lt k n l :
  k ∉ l → StronglySorted (newer lt) l → StronglySorted (newer (<[k := n]> lt)) l.
Proof.
  intros Hk. induction 1 as [|a l Hs IH Hall]; [constructor|].
  apply not_elem_of_cons in Hk as [Hka Hkl].
  constructor; [by apply IH|].
  rewrite Forall_forall in *. intros x Hx.
  destruct (Hall x Hx) as (na & nb & Ha & Hb & Hlt).
  exists na, nb. rewrite !lookup_insert_ne; [done| |done].
  intros ->. by apply Hkl.
Qed.

(** Moving a key to the front with a fresh stamp keeps the order sorted
    by recency. *)
Lemma touch_sorted (t : Tracked) key :
  Inv t →
  StronglySorted (newer (<[key := ticks t]> (lastTouched t)))
    (updateAccessOrder key (accessOrderRef (cells t))).
Proof.
  intros [Ht Hl Hst Hso]. unfold updateAccessOrder. constructor.
  - apply sorted_insert_fresh; [|by apply sorted_filter].
    rewrite list_elem_of_filter. by intros [? _].
  - rewrite Forall_forall. intros x Hx.
    apply list_elem_of_filter in Hx as [Hne Hx].
    destruct (Hst x Hx) as (n & Hn & Hlt).
    exists (ticks t), n. by rewrite lookup_insert_eq, lookup_insert_ne.
Qed.

(** The three parts of the invariant that a touch of [key] re-establishes
    on the updated order, for the cache with [key] inserted. *)
Lemma touch_listed (t : Tracked) key e k :
  Inv t →
  is_Some (<[key := e]> (cacheRef (cells t)) !! k) →
  k ∈ updateAccessOrder key (accessOrderRef (cells t)).
Proof.
  intros [Ht Hl Hst Hso] Hk. apply elem_of_touch.
  destruct (decide (k = key)) as [->|Hne]; [by left|].
  rewrite lookup_insert_ne in Hk by done. right. split; [done|by apply Hl].
Qed.

Lemma touch_truthy (t : Tracked) key k :
  Inv t → key ≠ EmptyString →
  k ∈ updateAccessOrder key (accessOrderRef (cells t)) → k ≠ EmptyString.
Proof.
  intros [Ht Hl Hst Hso] Hkey [->|[_ Hk]]%elem_of_touch; [done|by apply Ht].
Qed.

Lemma touch_stamped (t : Tracked) key k :
  Inv t →
  k ∈ updateAccessOrder key (accessOrderRef (cells t)) →
  ∃ n, <[key := ticks t]> (lastTouched t) !! k = Some n ∧ n < S (ticks t).
Proof.
  intros [Ht Hl Hst Hso] [->|[Hne Hk]]%elem_of_touch.
  - exists (ticks t). rewrite lookup_insert_eq. split; [done|lia].
  - destruct (Hst k Hk) as (n & Hn & Hlt). exists n.
    rewrite lookup_insert_ne by done. split; [done|lia].
Qed.

Lemma Inv_tick (t : Tracked) (s : State) :
  Inv t → accessOrderRef s = accessOrderRef (cells t) →
  (∀ k, is_Some (cacheRef s !! k) → is_Some (cacheRef (cells t) !! k)) →
  Inv (mkTracked s (S (ticks t)) (lastTouched t)).
Proof.
  intros [Ht Hl Hst Hso] Ho Hc. split; simpl; rewrite ?Ho; try done.
  - intros k Hk. by apply Hl, Hc.
  - intros k Hk. destruct (Hst k Hk) as (n & Hn & Hlt). exists n. split; [done|lia].
Qed.

Lemma Inv_remove (t : Tracked) key (s : State) :
  Inv t → accessOrderRef s = filter (λ k, k ≠ key) (accessOrderRef (cells t)) →
  cacheRef s = delete key (cacheRef (cells t)) →
  Inv (mkTracked s (S (ticks t)) (lastTouched t)).
Proof.
  intros [Ht Hl Hst Hso] Ho Hc. split; simpl; rewrite ?Ho, ?Hc.
  - intros k [_ Hk]%list_elem_of_filter. by apply Ht.
  - intros k [x Hx]. apply lookup_delete_Some in Hx as [Hne Hx].
    apply list_elem_of_filter. split; [done|]. apply Hl. by exists x.
  - intros k [_ Hk]%list_elem_of_filter.
    destruct (Hst k Hk) as (n & Hn & Hlt). exists n. split; [done|lia].
  - by apply sorted_filter.
Qed.

(** A storing [set] from a state satisfying the invariant returns; it
    has popped a suffix of the updated order and deleted those keys. *)
Lemma set_spec (t : Tracked) key value now1 now2 :
  Inv t → key ≠ EmptyString → rejected validate value = false →
  ∃ s' popped,
    set key value now1 now2 (cells t) = Some s' ∧
    updateAccessOrder key (accessOrderRef (cells t)) = accessOrderRef s' ++ popped ∧
    ∀ k, cacheRef s' !! k =
         if decide (k ∈ popped) then None
         else <[key := mkEntry value now1 (now2 + ttl)]> (cacheRef (cells t)) !! k.
Proof.
  intros HI Hkey Hrej. unfold Cache.set. rewrite Hrej.
  set (s2 := with_order _ _).
  assert (Ht2 : ∀ k, k ∈ accessOrderRef s2 → k ≠ EmptyString).
  { intros k. by apply touch_truthy. }
  assert (Hl2 : ∀ k, is_Some (cacheRef s2 !! k) → k ∈ accessOrderRef s2).
  { intros k. by apply touch_listed. }
  destruct (enforceSizeLimit_terminates s2 Ht2 Hl2) as [s3 E].
  fold (@Cache.enforceSizeLimit T maxSize s2). rewrite E.
  destruct (enforceLoop_spec _ _ _ Ht2 E) as (popped & Hp & Hk).
  exists (mkState (cacheRef s3) (accessOrderRef s3)
            (setItem (storageKey key) (serialize (mkEntry value now1 (now2 + ttl))) (storage s3))
            (Some value) None), popped.
  split; [done|]. split; [exact Hp|exact Hk].
Qed.

Lemma Inv_fresh : Inv (@fresh T).
Proof.
  split; simpl.
  - by intros k ?%elem_of_nil.
  - intros k [x Hx]. by rewrite lookup_empty in Hx.
  - by intros k ?%elem_of_nil.
  - constructor.
Qed.

(** Every operation with a non-empty key returns and keeps the
    invariant. *)
Lemma track_Inv op (t : Tracked) :
  Inv t → opKey op ≠ EmptyString → ∃ t', track op t = Some t' ∧ Inv t'.
Proof.
  intros HI Hkey. destruct op as [key value now1 now2|key now|key now|key];
    simpl in Hkey; unfold Cache.track; simpl.
  - (* set *)
    destruct (rejected validate value) eqn:Hrej.
    + unfold Cache.set. rewrite Hrej. simpl. eexists; split; [done|].
      by apply Inv_tick.
    + destruct (set_spec t key value now1 now2 HI Hkey Hrej) as (s' & popped & -> & Hp & Hk).
      simpl. eexists; split; [done|].
      pose proof (touch_sorted t key HI) as Hso'. rewrite Hp in Hso'.
      assert (Hsub : ∀ k, k ∈ accessOrderRef s' →
                          k ∈ updateAccessOrder key (accessOrderRef (cells t))).
      { intros k Hin. rewrite Hp. apply elem_of_app. by left. }
      split; simpl.
      * intros k Hin. eapply touch_truthy; eauto.
      * intros k. rewrite Hk. case_decide as Hpop; [by intros [? ?]|].
        intros Hsome. eapply touch_listed in Hsome; [|done].
        rewrite Hp in Hsome. by apply elem_of_app in Hsome as [?|?].
      * intros k Hin. eapply touch_stamped; eauto.
      * by eapply StronglySorted_app_1_l.
  - (* get *)
    eexists; split; [done|]. unfold Cache.get.
    destruct (cacheRef (cells t) !! key) as [e|] eqn:He; simpl.
    + case_decide; simpl.
      * apply Inv_tick; [done..|]. simpl.
        intros k [x Hx]. apply lookup_delete_Some in Hx as [_ Hx]. by exists x.
      * pose proof (touch_sorted t key HI) as Hso'.
        assert (key ≠ EmptyString) as Hk.
        { destruct HI as [Ht Hl _ _]. apply Ht, Hl. by exists e. }
        split; simpl; try done.
        -- intros k. by apply touch_truthy.
        -- intros k Hk'. apply (touch_listed t key e); [done|].
           by rewrite insert_id.
        -- intros k. by apply touch_stamped.
    + by apply Inv_tick.
  - (* has *)
    eexists; split; [done|]. unfold Cache.has.
    destruct (cacheRef (cells t) !! key) as [e|] eqn:He; simpl;
      [case_decide; simpl|].
    + by apply (Inv_remove t key).
    + by apply Inv_tick.
    + by apply Inv_tick.
  - (* remove *)
    eexists; split; [done|]. by apply (Inv_remove t key).
Qed.

Lemma tracks_Inv ops t :
  Inv t → Forall (λ op, opKey op ≠ EmptyString) ops → ∃ t', tracks ops t = Some t' ∧ Inv t'.
Proof.
  revert t. induction ops as [|op ops IH]; intros t HI Hall; simpl.
  - eauto.
  - apply Forall_cons in Hall as [Hop Hall].
    destruct (track_Inv op t HI Hop) as (t1 & -> & HI1). simpl. by apply IH.
Qed.

(** X1: Least-recently-used eviction, for callers that never use the empty
    string as a key: after any operations, a storing [set] returns,
    leaves at most [maxSize] entries, and every entry it evicts was
    touched earlier than every entry it keeps. *)
Theorem lru_eviction_nonempty_keys ops (t : Tracked) key value now1 now2 :
  Forall (λ op, opKey op ≠ EmptyString) ops → key ≠ EmptyString →
  rejected validate value = false →
  tracks ops fresh = Some t →
  ∃ t', track (OpSet key value now1 now2) t = Some t' ∧
    size (cacheRef (cells t')) ≤ maxSize ∧
    ∀ j i,
      is_Some (<[key := mkEntry value now1 (now2 + ttl)]> (cacheRef (cells t)) !! j) →
      cacheRef (cells t') !! j = None →
      is_Some (cacheRef (cells t') !! i) →
      newer (lastTouched t') i j.
Proof.
  intros Hall Hkey Hrej Hrun.
  destruct (tracks_Inv ops fresh Inv_fresh Hall) as (t0 & Ht0 & HI).
  assert (t0 = t) as -> by congruence.
  destruct (set_spec t key value now1 now2 HI Hkey Hrej) as (s' & popped & Hset & Hp & Hk).
  pose proof (touch_sorted t key HI) as Hso'. rewrite Hp in Hso'.
  destruct (track_Inv (OpSet key value now1 now2) t HI Hkey) as (t' & Ht' & HI').
  exists t'. split; [done|].
  unfold Cache.track in Ht'. simpl in Ht'. rewrite Hset in Ht'. simpl in Ht'.
  rewrite Hrej in Ht'. injection Ht' as <-. simpl. split.
  - eapply set_bound; eauto.
  - intros j i Hj Hgone Hi.
    eapply StronglySorted_app_1_elem_of; [exact Hso'| |].
    + destruct HI' as [_ Hl' _ _]. by apply Hl'.
    + rewrite Hk in Hgone. case_decide; [done|]. destruct Hj as [? Hj]. congruence.
Qed.


(** ** Expiry *)

Lemma evictOne_sub s k e :
  cacheRef (evictOne s) !! k = Some e → cacheRef s !! k = Some e.
Proof.
  unfold Cache.evictOne. destruct (pop (accessOrderRef s)) as [[x|] rest]; [|done].
  destruct (truthy x); [|done]. simpl. intros H.
  by apply lookup_delete_Some in H as [_ H].
Qed.

Lemma enforceLoop_sub fuel s s' k e :
  enforceLoop fuel s = Some s' →
  cacheRef s' !! k = Some e → cacheRef s !! k = Some e.
Proof.
  revert s. induction fuel as [|fuel IH]; intros s; simpl; case_decide as Hsz; try done;
    try (by intros [= <-]).
  intros Hloop Hk. eapply evictOne_sub, IH; eauto.
Qed.

(** The entry a storing [set] leaves under its key expires [ttl] after
    the call. *)
Lemma set_entry key value now1 now2 s s' e :
  rejected validate value = false →
  set key value now1 now2 s = Some s' →
  cacheRef s' !! key = Some e →
  e = mkEntry value now1 (now2 + ttl).
Proof.
  unfold Cache.set. intros ->.
  destruct (Cache.enforceSizeLimit _ _) as [s3|] eqn:E; [|done].
  intros [= <-]. simpl. intros He.
  eapply enforceLoop_sub in He; [|exact E]. simpl in He.
  rewrite lookup_insert_eq in He. congruence.
Qed.

(** C4 (as amended): while an entry is in the cache, [get(key)] returns
    absent (and deletes the entry) once [now] is strictly greater than
    its [expiresAt], whether or not anything removed it before; at any
    [now ≤ expiresAt], the boundary [now = expiresAt] included, it
    returns the stored value. *)
Theorem C4_get_expiry key now s e :
  cacheRef s !! key = Some e →
  ((expiresAt e < now)%Z →
     (get key now s).1 = None ∧ cacheRef (get key now s).2 !! key = None) ∧
  ((now ≤ expiresAt e)%Z → (get key now s).1 = Some (data e)).
Proof.
  intros He. unfold Cache.get. rewrite He. split; intros Hnow.
  - rewrite decide_True by done. simpl. split; [done|]. apply lookup_delete_eq.
  - rewrite decide_False by lia. done.
Qed.

(** ** [has] *)

(** C10: [has(key)] never reorders the recency order.  A [has] that
    returns [true] leaves every cell as it was, and so does a [has] on a
    missing key; a [has] that finds the entry expired returns [false]
    after deleting the key from the cache, filtering it out of the
    order (the other keys keep their relative order) and removing
    [cache:key] from the durable backing.  A [get] of the same live
    entry, in contrast, moves the key to the front. *)
Theorem C10_has_frame key now s :
  ((has key now s).1 = true → (has key now s).2 = s) ∧
  (cacheRef s !! key = None → has key now s = (false, s)) ∧
  (∀ e, cacheRef s !! key = Some e → (expiresAt e < now)%Z →
     (has key now s).1 = false ∧
     cacheRef (has key now s).2 = delete key (cacheRef s) ∧
     accessOrderRef (has key now s).2 = filter (λ k, k ≠ key) (accessOrderRef s) ∧
     storage (has key now s).2 = delete (storageKey key) <$> storage s) ∧
  (∀ e, cacheRef s !! key = Some e → (now ≤ expiresAt e)%Z →
     has key now s = (true, s) ∧
     accessOrderRef (get key now s).2 = key :: filter (λ k, k ≠ key) (accessOrderRef s)).
Proof.
  unfold Cache.has, Cache.get. split; [|split; [|split]].
  - destruct (cacheRef s !! key); [case_decide|]; simpl; done.
  - by intros ->.
  - intros e He Hexp. rewrite He, decide_True by done. simpl.
    repeat split; try done; by destruct (storage s).
  - intros e He Hlive. rewrite He, !decide_False by lia. split; reflexivity.
Qed.

End facts.

(** ** The empty key *)

(** C1, at the failing input.  With [maxSize = 1], a [set] of the empty
    key followed by [set("a", 2)]: the eviction loop pops the empty key, skips its
    deletion because the empty string is falsy, and goes on to evict
    ["a"], the entry touched last; the entry touched first stays, and is
    no longer listed in the order.  With [maxSize = 0], a [set] of the
    empty key never returns: whatever the fuel, the loop does not stop. *)
Theorem C1_empty_key_breaks_lru :
  ((λ t, (cacheRef (cells t) !! "a",
          data <$> cacheRef (cells t) !! EmptyString,
          lastTouched t !! EmptyString,
          lastTouched t !! "a",
          accessOrderRef (cells t)))
     <$> tracks 300000 1 None Scenarios.entryText
           [OpSet EmptyString 1 0 0; OpSet "a" 2 1 1] fresh)
    = Some (None, Some 1, Some 0, Some 1, []) ∧
  set 300000 0 None Scenarios.entryText EmptyString 1 0 0 initial = None ∧
  ∀ fuel,
    enforceLoop 0 fuel
      (with_order (updateAccessOrder EmptyString [])
         (with_cache (<[EmptyString := mkEntry 1 0 300000]> ∅) (@initial nat))) = None.
Proof.
  split; [by vm_compute|]. split; [by vm_compute|].
  intros fuel. destruct fuel as [|fuel]; [by vm_compute|].
  cbn [enforceLoop]. rewrite decide_True by (by vm_compute).
  apply enforceLoop_stuck; by vm_compute.
Qed.

(** The sequence of the specification, with [maxSize = 2]:
    [set(a); set(b); get(a); set(c)] evicts [b] and keeps [a] and [c]. *)
Example lru_listed_sequence :
  ((λ t, (data <$> cacheRef (cells t) !! "a",
          data <$> cacheRef (cells t) !! "b",
          data <$> cacheRef (cells t) !! "c",
          accessOrderRef (cells t)))
     <$> tracks 300000 2 None Scenarios.entryText
           [OpSet "a" 1 0 0; OpSet "b" 2 1 1; OpGet "a" 2; OpSet "c" 3 3 3] fresh)
    = Some (Some 1, None, Some 3, ["c"; "a"]).
Proof. by vm_compute. Qed.

(** C4, as stated, fails at the boundary: the entry stored at time 0 with
    [ttl = 10] has [expiresAt = 10], and at [now = 10 ≥ expiresAt] [get]
    still returns its value. *)
Lemma C4_counterexample :
  cacheRef Scenarios.cache_k !! "k" = Some (mkEntry 7 0 10) ∧
  (expiresAt (mkEntry 7 0 10) ≤ 10)%Z ∧
  (get "k" 10 Scenarios.cache_k).1 = Some 7.
Proof. split; [by vm_compute|]. split; [simpl; lia|by vm_compute]. Qed.

Lemma C4_witness :
  (get "k" 11 Scenarios.cache_k).1 = None ∧
  (get "k" 10 Scenarios.cache_k).1 = Some 7.
Proof.
  destruct (C4_get_expiry "k" 11 Scenarios.cache_k (mkEntry 7 0 10)) as [H _];
    [vm_compute; reflexivity|].
  destruct (C4_get_expiry "k" 10 Scenarios.cache_k (mkEntry 7 0 10)) as [_ H'];
    [vm_compute; reflexivity|].
  split; [apply H; simpl; lia | apply H'; simpl; lia].
Defined.

Lemma C10_witness :
  (has "k" 11 Scenarios.cache_k).1 = false ∧
  accessOrderRef (has "k" 11 Scenarios.cache_k).2 = [] ∧
  has "k" 10 Scenarios.cache_k = (true, Scenarios.cache_k).
Proof.
  destruct (C10_has_frame "k" 11 Scenarios.cache_k) as (_ & _ & Hexp & _).
  destruct (C10_has_frame "k" 10 Scenarios.cache_k) as (_ & _ & _ & Hlive).
  destruct (Hexp (mkEntry 7 0 10)) as (H1 & _ & H2 & _);
    [vm_compute; reflexivity | simpl; lia |].
  destruct (Hlive (mkEntry 7 0 10)) as (H3 & _);
    [vm_compute; reflexivity | simpl; lia |].
  split; [exact H1|]. split; [exact H2|exact H3].
Defined.

End CacheFacts.

(* ===================================================================== *)
(** * Properties of the synchronizer *)
(* ===================================================================== *)

Module SyncFacts.
Import Sync.

Section facts.
Context {V : Type}.
#[local] Abbreviation Obj := (gmap string V).
#[local] Abbreviation World := (@World V).
#[local] Abbreviation Async := (@Async V).
#[local] Abbreviation Oracle := (@Oracle V).
#[local] Abbreviation Run := (@Run V).
#[local] Abbreviation Render := (@Render V).
#[local] Abbreviation PendingChange := (@PendingChange V).

(** ** [retryRequest] *)

Lemma prepend_nil (r : Run) : prepend [] r = r.
Proof. by destruct r. Qed.

Lemma prepend_app l1 l2 (r : Run) : prepend (l1 ++ l2) r = prepend l1 (prepend l2 r).
Proof. unfold prepend. simpl. by rewrite (assoc_L (++)). Qed.

Lemma io_prepend e (r : Run) : io e r = prepend [e] r.
Proof. done. Qed.

Lemma failedAttempts_S (ev : bool → @Io V) delay i n :
  failedAttempts ev delay i (S n) =
    ev false :: IoDelay (delay * (i + 1)) :: failedAttempts ev delay (S i) n.
Proof.
  unfold failedAttempts. simpl. rewrite Nat.add_0_r. do 2 f_equal.
  rewrite <- seq_shift, flat_map_concat_map, map_map, <- flat_map_concat_map.
  apply flat_map_ext. intros j. do 3 f_equal. lia.
Qed.

Lemma failedAttempts_snoc (ev : bool → @Io V) delay i n :
  failedAttempts ev delay i (S n) =
    failedAttempts ev delay i n ++ [ev false; IoDelay (delay * (i + n + 1))].
Proof.
  unfold failedAttempts. by rewrite seq_S, flat_map_app.
Qed.

Lemma exec_fetch_all_fail delay n : ∀ i lastError k (o : Oracle) nf np (w : World),
  (∀ j, j < n → is_ok (fetchData o (nf + j)) = false) →
  exec (retryLoop true AwaitFetch delay n i lastError k) o nf np w =
    prepend (failedAttempts IoFetch delay i n)
      (exec (k (inl (lastFailure (λ j, fetchData o (nf + j)) n lastError))) o (nf + n) np w).
Proof.
  induction n as [|n IH]; intros i lastError k o nf np w Hfail.
  - simpl. by rewrite prepend_nil, Nat.add_0_r.
  - rewrite failedAttempts_S. cbn [retryLoop exec].
    pose proof (Hfail 0 ltac:(lia)) as H0. rewrite Nat.add_0_r in H0.
    destruct (fetchData o nf) as [e|a] eqn:E; [|done]. cbn [exec is_ok].
    rewrite IH.
    2:{ intros j Hj. replace (S nf + j) with (nf + S j) by lia. apply Hfail. lia. }
    assert (lastFailure (λ j, fetchData o (S nf + j)) n (Some e)
            = lastFailure (λ j, fetchData o (nf + j)) (S n) lastError) as ->.
    { destruct n as [|n]; simpl; [by rewrite Nat.add_0_r, E|].
      by rewrite Nat.add_succ_r. }
    unfold io, prepend. simpl. by replace (S (nf + n)) with (nf + S n) by lia.
Qed.

Lemma exec_fetch_success delay n m remote : ∀ i lastError k (o : Oracle) nf np (w : World),
  m < n →
  (∀ j, j < m → is_ok (fetchData o (nf + j)) = false) →
  fetchData o (nf + m) = inr remote →
  exec (retryLoop true AwaitFetch delay n i lastError k) o nf np w =
    prepend (failedAttempts IoFetch delay i m ++ [IoFetch true])
      (exec (k (inr remote)) o (S (nf + m)) np w).
Proof.
  revert n. induction m as [|m IH]; intros n i lastError k o nf np w Hm Hfail Hok.
  - destruct n as [|n]; [lia|]. cbn [retryLoop exec].
    rewrite Nat.add_0_r in *. rewrite Hok. done.
  - destruct n as [|n]; [lia|]. rewrite failedAttempts_S. cbn [retryLoop exec].
    pose proof (Hfail 0 ltac:(lia)) as H0. rewrite Nat.add_0_r in H0.
    destruct (fetchData o nf) as [e|a] eqn:E; [|done]. cbn [exec is_ok].
    rewrite (IH n); [| lia | |].
    + unfold io, prepend. simpl. by rewrite ?Nat.add_succ_r.
    + intros j Hj. replace (S nf + j) with (nf + S j) by lia. apply Hfail. lia.
    + by replace (S nf + m) with (nf + S m) by lia.
Qed.

Lemma exec_push_all_fail delay d n : ∀ i lastError k (o : Oracle) nf np (w : World),
  (∀ j, j < n → is_ok (pushData o (np + j) d) = false) →
  exec (retryLoop true (AwaitPush d) delay n i lastError k) o nf np w =
    prepend (failedAttempts (IoPush d) delay i n)
      (exec (k (inl (lastFailure (λ j, pushData o (np + j) d) n lastError))) o nf (np + n) w).
Proof.
  induction n as [|n IH]; intros i lastError k o nf np w Hfail.
  - simpl. by rewrite prepend_nil, Nat.add_0_r.
  - rewrite failedAttempts_S. cbn [retryLoop exec].
    pose proof (Hfail 0 ltac:(lia)) as H0. rewrite Nat.add_0_r in H0.
    destruct (pushData o np d) as [e|a] eqn:E; [|done]. cbn [exec is_ok].
    rewrite IH.
    2:{ intros j Hj. replace (S np + j) with (np + S j) by lia. apply Hfail. lia. }
    assert (lastFailure (λ j, pushData o (S np + j) d) n (Some e)
            = lastFailure (λ j, pushData o (np + j) d) (S n) lastError) as ->.
    { destruct n as [|n]; simpl; [by rewrite Nat.add_0_r, E|].
      by rewrite Nat.add_succ_r. }
    unfold io, prepend. simpl. by replace (S (np + n)) with (np + S n) by lia.
Qed.

Lemma exec_push_success delay d n m : ∀ i lastError k (o : Oracle) nf np (w : World),
  m < n →
  (∀ j, j < m → is_ok (pushData o (np + j) d) = false) →
  is_ok (pushData o (np + m) d) = true →
  exec (retryLoop true (AwaitPush d) delay n i lastError k) o nf np w =
    prepend (failedAttempts (IoPush d) delay i m ++ [IoPush d true])
      (exec (k (inr ())) o nf (S (np + m)) w).
Proof.
  revert n. induction m as [|m IH]; intros n i lastError k o nf np w Hm Hfail Hok.
  - destruct n as [|n]; [lia|]. cbn [retryLoop exec].
    rewrite Nat.add_0_r in *. destruct (pushData o np d) as [e|[]]; done.
  - destruct n as [|n]; [lia|]. rewrite failedAttempts_S. cbn [retryLoop exec].
    pose proof (Hfail 0 ltac:(lia)) as H0. rewrite Nat.add_0_r in H0.
    destruct (pushData o np d) as [e|a] eqn:E; [|done]. cbn [exec is_ok].
    rewrite (IH n); [| lia | |].
    + unfold io, prepend. simpl. by rewrite ?Nat.add_succ_r.
    + intros j Hj. replace (S np + j) with (np + S j) by lia. apply Hfail. lia.
    + by replace (S np + m) with (np + S m) by lia.
Qed.


(** ** [sync] *)

Variable retryAttempts : nat.
Variable retryDelay : nat.
Variable hasFetch : bool.
Variable hasPush : bool.
Variable mergeStrategy : option (Obj → Obj → Obj).
Variable validateData : option (Obj → bool).

#[local] Abbreviation sync :=
  (@Sync.sync V retryAttempts retryDelay hasFetch hasPush mergeStrategy validateData).
#[local] Abbreviation syncs :=
  (@Sync.syncs V retryAttempts retryDelay hasFetch hasPush mergeStrategy validateData).
#[local] Abbreviation resyncs :=
  (@Sync.resyncs V retryAttempts retryDelay hasFetch hasPush mergeStrategy validateData).
#[local] Abbreviation fetches := (@Sync.fetches V retryAttempts).
#[local] Abbreviation pushes := (@Sync.pushes V retryAttempts).
#[local] Abbreviation update := (@Sync.update V mergeStrategy validateData).
#[local] Abbreviation applyUpdate := (@Sync.applyUpdate V mergeStrategy validateData).
#[local] Abbreviation applyPending := (@Sync.applyPending V mergeStrategy).
#[local] Abbreviation merge := (@Sync.merge V mergeStrategy).
#[local] Abbreviation validateAndApply := (@Sync.validateAndApply V validateData).

#[local] Abbreviation proceeds := (@Sync.proceeds V hasFetch).

Lemma exec_fail e (o : Oracle) nf np (w : World) :
  exec (fail e) o nf np w = mkRun true (failed e w) [].
Proof. unfold fail, failed. simpl. by destruct (isMounted w). Qed.

Lemma exec_finish d (o : Oracle) nf np (w : World) :
  exec (finish d) o nf np w = mkRun true (succeeded d w) [].
Proof. unfold finish, succeeded. simpl. by destruct (isMounted w). Qed.

(** The guard of [sync]. *)
Lemma sync_guard R :
  ¬ proceeds R → sync R = Ret.
Proof.
  unfold Sync.proceeds, Sync.sync. intros H.
  destruct (r_online R), hasFetch, (r_isSyncing R); simpl; try done.
  exfalso. by apply H.
Qed.

(** Every fetch attempt fails. *)
Lemma sync_fetch_fails R (o : Oracle) (w : World) :
  proceeds R →
  (∀ j, j < retryAttempts → is_ok (fetchData o j) = false) →
  call (sync R) o w =
    mkRun true
      (failed (lastFailure (fetchData o) retryAttempts None) (setSyncing w))
      (failedAttempts IoFetch retryDelay 0 retryAttempts).
Proof.
  intros (Ho & Hf & Hs) Hfail. unfold call, Sync.sync. rewrite Ho, Hf, Hs. simpl.
  unfold retryRequest. rewrite exec_fetch_all_fail by done.
  rewrite exec_fail. unfold prepend. simpl. by rewrite app_nil_r.
Qed.

(** What follows a fetch that succeeded at attempt [m]. *)
Lemma sync_fetched R (o : Oracle) (w : World) m remote :
  proceeds R → m < retryAttempts →
  (∀ j, j < m → is_ok (fetchData o j) = false) →
  fetchData o m = inr remote →
  call (sync R) o w =
    prepend (failedAttempts IoFetch retryDelay 0 m ++ [IoFetch true])
      (let finalData := applyPending remote (r_pendingChanges R) in
       if negb (validateAndApply finalData)
       then mkRun true (failed "Data validation failed" (setSyncing w)) []
       else if hasPush && negb (Nat.eqb (length (r_pendingChanges R)) 0)
       then exec (retryLoop true (AwaitPush finalData) retryDelay retryAttempts 0 None
                    (λ r, match r with
                          | inl e => fail e
                          | inr _ => Act (setPendingChanges []) (finish finalData)
                          end)) o (S m) 0 (setSyncing w)
       else mkRun true (succeeded finalData (setSyncing w)) []).
Proof.
  intros (Ho & Hf & Hs) Hm Hfail Hok. unfold call, Sync.sync. rewrite Ho, Hf, Hs. simpl.
  unfold retryRequest. rewrite (exec_fetch_success _ _ m remote) by done.
  f_equal. simpl.
  destruct (negb _); [apply exec_fail|].
  destruct (hasPush && _); [done|apply exec_finish].
Qed.


Lemma failedAttempts_0 (ev : bool → @Io V) delay n :
  failedAttempts ev delay 0 n =
    flat_map (λ j, [ev false; IoDelay (delay * (j + 1))]) (seq 0 n).
Proof. done. Qed.

(** The push loop of [sync] issues no fetch. *)
Lemma push_loop_no_fetch d n : ∀ i lastError (o : Oracle) nf np (w : World),
  Forall (λ e, isFetch e = false)
    (trace (exec (retryLoop true (AwaitPush d) retryDelay n i lastError
                    (λ r, match r with
                          | inl e => fail e
                          | inr _ => Act (setPendingChanges []) (finish d)
                          end)) o nf np w)).
Proof.
  induction n as [|n IH]; intros i lastError o nf np w.
  - cbn [retryLoop]. by rewrite exec_fail.
  - cbn [retryLoop exec]. destruct (pushData o np d) as [e|u]; cbn [exec].
    + simpl. repeat constructor. apply IH.
    + rewrite exec_finish. simpl. by repeat constructor.
Qed.

Lemma length_nonempty {A} (l : list A) : l ≠ [] → negb (Nat.eqb (length l) 0) = true.
Proof. by destruct l. Qed.

(** Fetch succeeds, the merged data is valid, every push attempt fails. *)
Lemma sync_push_fails R (o : Oracle) (w : World) m remote :
  proceeds R → m < retryAttempts →
  (∀ j, j < m → is_ok (fetchData o j) = false) →
  fetchData o m = inr remote →
  let finalData := applyPending remote (r_pendingChanges R) in
  validateAndApply finalData = true →
  hasPush = true → r_pendingChanges R ≠ [] →
  (∀ j, j < retryAttempts → is_ok (pushData o j finalData) = false) →
  call (sync R) o w =
    mkRun true
      (failed (lastFailure (λ j, pushData o j finalData) retryAttempts None) (setSyncing w))
      (failedAttempts IoFetch retryDelay 0 m ++ [IoFetch true] ++
       failedAttempts (IoPush finalData) retryDelay 0 retryAttempts).
Proof.
  intros HR Hm Hfail Hok finalData Hv Hp Hne Hpush.
  subst finalData. rewrite (sync_fetched R o w m remote) by done. cbv zeta.
  rewrite Hv, Hp, length_nonempty by done. simpl.
  rewrite exec_push_all_fail by done. rewrite exec_fail.
  unfold prepend. simpl. by rewrite app_nil_r, <- (assoc_L (++)).
Qed.

(** Fetch succeeds, the merged data is valid, and the push, when there
    is one to make, succeeds. *)
Lemma sync_succeeds R (o : Oracle) (w : World) m remote :
  proceeds R → m < retryAttempts →
  (∀ j, j < m → is_ok (fetchData o j) = false) →
  fetchData o m = inr remote →
  let finalData := applyPending remote (r_pendingChanges R) in
  validateAndApply finalData = true →
  (hasPush = true → r_pendingChanges R ≠ [] →
   ∃ mp, mp < retryAttempts ∧
     (∀ j, j < mp → is_ok (pushData o j finalData) = false) ∧
     is_ok (pushData o mp finalData) = true) →
  final (call (sync R) o w) =
    succeeded finalData
      (if hasPush && negb (Nat.eqb (length (r_pendingChanges R)) 0)
       then setPendingChanges [] (setSyncing w) else setSyncing w).
Proof.
  intros HR Hm Hfail Hok finalData Hv Hpush.
  subst finalData. rewrite (sync_fetched R o w m remote) by done. cbv zeta.
  rewrite Hv. simpl.
  destruct hasPush; simpl; [|done].
  destruct (r_pendingChanges R) as [|c p] eqn:Hp; simpl; [done|].
  destruct Hpush as (mp & Hmp & Hpf & Hpok); [done..|].
  rewrite (exec_push_success _ _ _ mp) by done. unfold prepend. cbn [final exec].
  by rewrite exec_finish.
Qed.

Lemma failed_pending e (w : World) : pendingChanges (failed e w) = pendingChanges w.
Proof. unfold failed. destruct (isMounted w); reflexivity. Qed.

Lemma succeeded_pending d (w : World) : pendingChanges (succeeded d w) = pendingChanges w.
Proof. unfold succeeded. destruct (isMounted w) eqn:E; simpl; congruence. Qed.

Lemma succeeded_mounted d (w : World) : isMounted (succeeded d w) = isMounted w.
Proof. unfold succeeded. destruct (isMounted w) eqn:E; simpl; congruence. Qed.

Lemma applyPending_updates remote (p : list PendingChange) :
  Forall (λ c, type c = Update) p →
  applyPending remote p = foldl merge remote (change <$> p).
Proof.
  unfold Sync.applyPending. revert remote.
  induction p as [|c p IH]; intros remote Hall; simpl; [done|].
  apply Forall_cons in Hall as [-> Hall]. by apply IH.
Qed.


(** C3 (as amended): when [sync] proceeds, the fetch is attempted at most
    [retryAttempts] times.  After the [j]-th failed attempt (counting
    from 1) the call pauses for [j * retryDelay] milliseconds: the pause
    grows linearly, and there is one after the last failed attempt too.
    If all [retryAttempts] attempts fail the call settles with the
    pending log untouched and, on a mounted hook, status [Failed]
    carrying the error of the last attempt.  If some attempt within the
    budget succeeds, no later fetch is made and the call goes on to
    validation and push; with valid data and nothing to push it ends
    with status [Success]. *)
Theorem C3_fetch_retry_linear_backoff R (o : Oracle) (w : World) :
  proceeds R →
  ((∀ j, j < retryAttempts → is_ok (fetchData o j) = false) →
     let r := call (sync R) o w in
     trace r = flat_map (λ j, [IoFetch false; IoDelay (retryDelay * (j + 1))])
                 (seq 0 retryAttempts) ∧
     settled r = true ∧
     pendingChanges (final r) = pendingChanges w ∧
     (isMounted w = true →
        syncStatus (state (final r)) = Failed ∧
        error (state (final r)) = Some (lastFailure (fetchData o) retryAttempts None))) ∧
  (∀ m remote,
     m < retryAttempts →
     (∀ j, j < m → is_ok (fetchData o j) = false) →
     fetchData o m = inr remote →
     let r := call (sync R) o w in
     ∃ rest,
       trace r = flat_map (λ j, [IoFetch false; IoDelay (retryDelay * (j + 1))]) (seq 0 m)
                 ++ IoFetch true :: rest ∧
       Forall (λ e, isFetch e = false) rest ∧
       (validateAndApply (applyPending remote (r_pendingChanges R)) = true →
        hasPush = false ∨ r_pendingChanges R = [] →
        isMounted w = true →
        rest = [] ∧ syncStatus (state (final r)) = Success)).
Proof.
  intros HR. split.
  - intros Hfail r. subst r. rewrite sync_fetch_fails by done. simpl.
    rewrite failed_pending. split; [done|]. split; [done|]. split; [done|].
    intros Hmnt. unfold failed. simpl. by rewrite Hmnt.
  - intros m remote Hm Hfail Hok r. subst r.
    rewrite (sync_fetched R o w m remote) by done. cbv zeta.
    destruct (negb (validateAndApply _)) eqn:Hv.
    { exists []. split; [unfold prepend; cbn [trace]; by rewrite app_nil_r|].
      split; [constructor|]. intros Hv'. by rewrite Hv' in Hv. }
    destruct (hasPush && _) eqn:Hp.
    + eexists. split.
      { unfold prepend. cbn [trace]. rewrite <- (assoc_L (++)). reflexivity. }
      split; [apply push_loop_no_fetch|].
      intros _ [Hnp|Hnil] _; exfalso.
      * by rewrite Hnp in Hp.
      * rewrite Hnil in Hp. simpl in Hp. by rewrite andb_false_r in Hp.
    + exists []. split; [unfold prepend; cbn [trace]; by rewrite app_nil_r|].
      split; [constructor|]. intros _ _ Hmnt. split; [done|].
      unfold succeeded. simpl. by rewrite Hmnt.
Qed.

(** C2: when the fetch succeeds and the merged data is valid but every
    one of the [retryAttempts] push attempts fails, the pending log
    after the call is the pending log before it (same changes, same
    order), the status is [Failed], the hook is no longer syncing and
    [data] is unchanged; a [sync] called from the next render proceeds;
    and any later [sync] whose fetch and push succeed within their
    retry budget leaves the pending log empty. *)
Theorem C2_failed_push_keeps_pending R (o : Oracle) (w : World) m remote :
  proceeds R → isMounted w = true →
  m < retryAttempts →
  (∀ j, j < m → is_ok (fetchData o j) = false) →
  fetchData o m = inr remote →
  validateAndApply (applyPending remote (r_pendingChanges R)) = true →
  hasPush = true → r_pendingChanges R ≠ [] →
  (∀ j, j < retryAttempts →
     is_ok (pushData o j (applyPending remote (r_pendingChanges R))) = false) →
  let w' := final (call (sync R) o w) in
  pendingChanges w' = pendingChanges w ∧
  syncStatus (state w') = Failed ∧
  isSyncing (state w') = false ∧
  data (state w') = data (state w) ∧
  (online w = true → proceeds (render w')) ∧
  ∀ R' (o' : Oracle) (w2 : World) m' remote' mp,
    proceeds R' → m' < retryAttempts →
    (∀ j, j < m' → is_ok (fetchData o' j) = false) →
    fetchData o' m' = inr remote' →
    validateAndApply (applyPending remote' (r_pendingChanges R')) = true →
    r_pendingChanges R' ≠ [] →
    mp < retryAttempts →
    (∀ j, j < mp →
       is_ok (pushData o' j (applyPending remote' (r_pendingChanges R'))) = false) →
    is_ok (pushData o' mp (applyPending remote' (r_pendingChanges R'))) = true →
    pendingChanges (final (call (sync R') o' w2)) = [].
Proof.
  intros HR Hmnt Hm Hfail Hok Hv Hp Hne Hpush w'. subst w'.
  rewrite (sync_push_fails R o w m remote) by done. cbn [final].
  unfold failed. cbn. rewrite Hmnt. cbn. repeat split; try done.
  - by destruct HR as (_ & ? & _).
  - intros R' o' w2 m' remote' mp HR' Hm' Hfail' Hok' Hv' Hne' Hmp Hpf Hpok.
    rewrite (sync_succeeds R' o' w2 m' remote') by eauto.
    rewrite succeeded_pending, Hp, length_nonempty by done. done.
Qed.

(** C5: [update(changes)] performs no network request and no timer
    wait.  If a validator is supplied and it rejects the merged object,
    nothing changes: [data], the pending log and every other cell are
    as before.  Otherwise (no validator, or one that accepts the merged
    object) [data] becomes the merge of the previous [data] with
    [changes], one [Update] change carrying [changes] is appended at
    the end of the pending log, and nothing else changes.  The merge
    is the caller's strategy applied to the previous [data] and
    [changes], or, by default, a shallow overwrite: a field of
    [changes] wins, any other field keeps its previous value. *)
Theorem C5_update_local (changes : Obj) (o : Oracle) (w : World) :
  let r := call (update changes) o w in
  let merged := match mergeStrategy with
                | Some strategy => strategy (data (state w)) changes
                | None => changes ∪ data (state w)
                end in
  trace r = [] ∧ settled r = true ∧
  (∀ v, validateData = Some v → v merged = false → final r = w) ∧
  (validateData = None ∨ (∃ v, validateData = Some v ∧ v merged = true) →
   data (state (final r)) = merged ∧
   pendingChanges (final r) = pendingChanges w ++ [mkChange (clock w) changes Update] ∧
   final r =
     mkWorld (mkSyncState merged (lastSynced (state w)) (isSyncing (state w))
                (error (state w)) (syncStatus (state w)))
       (pendingChanges w ++ [mkChange (clock w) changes Update])
       (isMounted w) (online w) (clock w) (notified w)) ∧
  (∀ local field,
     @Sync.merge V None local changes !! field =
       match changes !! field with
       | Some v => Some v
       | None => local !! field
       end).
Proof.
  cbv zeta. split; [done|]. split; [done|].
  assert (Hmerge : merge (data (state w)) changes =
                   match mergeStrategy with
                   | Some strategy => strategy (data (state w)) changes
                   | None => changes ∪ data (state w)
                   end).
  { unfold Sync.merge, defaultMergeStrategy. by destruct mergeStrategy. }
  split; [|split].
  - intros v Hv Hrej. simpl. unfold Sync.applyUpdate, Sync.validateAndApply.
    rewrite Hv, Hmerge. by rewrite Hrej.
  - intros Hacc. simpl. unfold Sync.applyUpdate, Sync.validateAndApply.
    rewrite Hmerge.
    destruct Hacc as [->|(v & -> & Hv)]; [done|]. by rewrite Hv.
  - intros local field. unfold Sync.merge, defaultMergeStrategy. simpl.
    rewrite lookup_union. destruct (changes !! field), (local !! field); done.
Qed.

(** Calls that see the same log: take any non-empty sequence of [sync]
    calls on a mounted hook, each made from a render that holds the
    pending log [p], each fetching the remote snapshot [remote], each
    completing.  The resulting [data] is the fold of [p] over [remote],
    which does not depend on the previous [data]. *)
Lemma same_log_same_data (calls : list (Render * Oracle)) (w : World) p remote :
  calls ≠ [] → isMounted w = true →
  validateAndApply (applyPending remote p) = true →
  Forall (λ c : Render * Oracle,
            proceeds c.1 ∧ r_pendingChanges c.1 = p ∧
            (∃ m, m < retryAttempts ∧
               (∀ j, j < m → is_ok (fetchData c.2 j) = false) ∧
               fetchData c.2 m = inr remote) ∧
            (hasPush = true → p ≠ [] →
             ∃ mp, mp < retryAttempts ∧
               (∀ j, j < mp → is_ok (pushData c.2 j (applyPending remote p)) = false) ∧
               is_ok (pushData c.2 mp (applyPending remote p)) = true)) calls →
  data (state (syncs calls w)) = applyPending remote p ∧
  syncStatus (state (syncs calls w)) = Success ∧
  (Forall (λ c, type c = Update) p →
   applyPending remote p = foldl merge remote (change <$> p)).
Proof.
  intros Hne Hmnt Hv Hall.
  assert (isMounted (syncs calls w) = true ∧
          (calls ≠ [] → data (state (syncs calls w)) = applyPending remote p ∧
                        syncStatus (state (syncs calls w)) = Success)) as [_ H].
  { clear Hne. induction calls as [|c calls IH] using rev_ind; [done|].
    rewrite Forall_app, Forall_singleton in Hall. destruct Hall as [Hall Hc].
    destruct Hc as (HR & Hp & (m & Hm & Hfail & Hok) & Hpush).
    destruct (IH Hall) as [Hmnt' _].
    unfold Sync.syncs in *. rewrite foldl_snoc.
    rewrite (sync_succeeds c.1 c.2 _ m remote); rewrite ?Hp; try done.
    rewrite succeeded_mounted. unfold succeeded.
    destruct (hasPush && _); simpl; rewrite Hmnt'; simpl; done. }
  destruct (H Hne). repeat split; try done. apply applyPending_updates.
Qed.

(** The fold of the log: only the [update] changes are merged, in log
    order. *)
Lemma applyPending_fold remote (p : list PendingChange) :
  applyPending remote p =
    foldl merge remote (change <$> filter (λ c, type c = Update) p).
Proof.
  unfold Sync.applyPending. revert remote.
  induction p as [|c p IH]; intros remote; [done|]. cbn [foldl].
  destruct (type c) eqn:E.
  - rewrite filter_cons_True by done. cbn [fmap list_fmap foldl]. apply IH.
  - rewrite filter_cons_False by (by rewrite E). apply IH.
Qed.

(** One completed call from the render of the current world. *)
Lemma resync_step (o : Oracle) (w : World) remote :
  hasFetch = true → ready w → fetches remote o →
  validateAndApply (applyPending remote (pendingChanges w)) = true →
  (hasPush = true → pendingChanges w ≠ [] →
   pushes (applyPending remote (pendingChanges w)) o) →
  let w' := final (call (sync (render w)) o w) in
  ready w' ∧
  data (state w') = applyPending remote (pendingChanges w) ∧
  pendingChanges w' =
    (if hasPush && negb (Nat.eqb (length (pendingChanges w)) 0) then [] else pendingChanges w).
Proof.
  intros Hf (Hm & Ho & Hs) (m & Hlt & Hfail & Hok) Hv Hpush w'. subst w'.
  rewrite (sync_succeeds (render w) o w m remote); try done.
  unfold succeeded.
  destruct (hasPush && negb (Nat.eqb (length (r_pendingChanges (render w))) 0)) eqn:P;
    simpl; rewrite Hm; simpl; simpl in P; rewrite P; done.
Qed.

(** Calls whose log survives them: the data is the same after every
    one of them. *)
Lemma resyncs_stable (os : list Oracle) remote : ∀ w : World,
  hasFetch = true → ready w →
  hasPush = false ∨ pendingChanges w = [] →
  validateAndApply (applyPending remote (pendingChanges w)) = true →
  Forall (fetches remote) os →
  ready (resyncs os w) ∧
  pendingChanges (resyncs os w) = pendingChanges w ∧
  (os ≠ [] → data (state (resyncs os w)) = applyPending remote (pendingChanges w)).
Proof.
  induction os as [|o os IH] using rev_ind; intros w Hf Hr Hkeep Hv Hall.
  - by split.
  - rewrite Forall_app, Forall_singleton in Hall. destruct Hall as [Hall Ho].
    destruct (IH w Hf Hr Hkeep Hv Hall) as (Hr' & Hp' & _).
    unfold Sync.resyncs in *. rewrite foldl_snoc.
    set (w1 := foldl _ w os) in *.
    assert (Hnopush : hasPush && negb (Nat.eqb (length (pendingChanges w1)) 0) = false).
    { rewrite Hp'. destruct Hkeep as [->| ->]; [done|]. simpl. apply andb_false_r. }
    destruct (resync_step o w1 remote Hf Hr' Ho) as (Hr2 & Hd2 & Hp2).
    + by rewrite Hp'.
    + intros HP Hne. rewrite Hp' in Hne. destruct Hkeep as [Hk|Hk]; congruence.
    + rewrite Hnopush in Hp2. split; [done|]. split; [congruence|].
      intros _. by rewrite Hd2, Hp'.
Qed.

(** C6 (as amended).  [sync] is deterministic over its inputs: on a
    mounted, online, idle hook whose fetch resolves to the snapshot
    [remote], a completed call stores the fold of the pending log onto
    [remote], the [update] changes merged in log order, whatever [data]
    held before.  Repeated calls with no mutation in between, each
    fetching [remote], each made after React has rendered the state its
    predecessor left, keep storing that same value only while the log
    survives a call: when no [pushData] is configured or the log is
    empty, the data and the log are the same after any number of calls.
    With [pushData] and a non-empty log the first call pushes the
    merged data and empties the log, so every call after it folds an
    empty log and, when [remote] is valid, stores the bare snapshot. *)
Theorem C6_repeated_sync (o1 : Oracle) (os : list Oracle) (w : World) remote :
  hasFetch = true → ready w →
  validateAndApply (applyPending remote (pendingChanges w)) = true →
  Forall (fetches remote) (o1 :: os) →
  (hasPush = true → pendingChanges w ≠ [] →
   pushes (applyPending remote (pendingChanges w)) o1) →
  let p := pendingChanges w in
  data (state (resyncs [o1] w)) = applyPending remote p ∧
  applyPending remote p = foldl merge remote (change <$> filter (λ c, type c = Update) p) ∧
  (hasPush = false ∨ p = [] →
   data (state (resyncs (o1 :: os) w)) = applyPending remote p ∧
   pendingChanges (resyncs (o1 :: os) w) = p) ∧
  (hasPush = true → p ≠ [] → validateAndApply remote = true →
   pendingChanges (resyncs (o1 :: os) w) = [] ∧
   (os ≠ [] → data (state (resyncs (o1 :: os) w)) = remote)).
Proof.
  intros Hf Hr Hv Hall Hpush p. subst p.
  apply Forall_cons in Hall as [Ho1 Hall].
  destruct (resync_step o1 w remote Hf Hr Ho1 Hv Hpush) as (Hr1 & Hd1 & Hp1).
  split; [exact Hd1|]. split; [apply applyPending_fold|]. split.
  - intros Hkeep.
    destruct (resyncs_stable (o1 :: os) remote w Hf Hr Hkeep Hv) as (_ & Hp & Hd).
    { by apply Forall_cons. }
    split; [by apply Hd|done].
  - intros HP Hne Hvr.
    assert (Hlog : pendingChanges (final (call (sync (render w)) o1 w)) = []).
    { rewrite Hp1, HP, length_nonempty by done. done. }
    change (resyncs (o1 :: os) w)
      with (resyncs os (final (call (sync (render w)) o1 w))).
    set (w1 := final (call (sync (render w)) o1 w)) in *.
    destruct (resyncs_stable os remote w1 Hf Hr1) as (_ & Hp & Hd);
      [by right | by rewrite Hlog | done |].
    rewrite Hlog in Hp, Hd. split; [done|]. exact Hd.
Qed.


(** The guard of [sync]: offline, without [fetchData], or from a render
    in which a sync is running, the call returns at once: no state
    change, no request, no callback, no task left in flight. *)
Lemma sync_noop R (o : Oracle) (w : World) (tasks : list Async) :
  ¬ proceeds R →
  call (sync R) o w = mkRun true w [] ∧ invoke (sync R) (w, tasks) = (w, tasks).
Proof. intros H. by rewrite (sync_guard R H). Qed.

(** The guard reads the render, not the cells: two calls of the [sync] of
    one render that proceeds both set the state to syncing and both leave
    a fetch in flight. *)
Lemma sync_same_render_restarts R (w : World) (tasks : list Async) :
  proceeds R → 0 < retryAttempts →
  ∃ t1 t2,
    invoke (sync R) (invoke (sync R) (w, tasks))
      = (setSyncing (setSyncing w), tasks ++ [t1; t2]) ∧
    awaitsFetch t1 = true ∧ awaitsFetch t2 = true.
Proof.
  intros (Ho & Hf & Hs) Hn. unfold Sync.sync. rewrite Ho, Hf, Hs. simpl.
  unfold retryRequest. destruct retryAttempts as [|n]; [lia|].
  cbn [retryLoop]. unfold invoke. cbn [start fst snd].
  eexists _, _. rewrite <- (assoc_L (++)). split; [reflexivity|]. by split.
Qed.

End facts.

(** ** Scenarios *)

Import Scenarios.

(** C3, as stated, fails on the delays: with [retryAttempts = 3],
    [retryDelay = 1000] and the network down, the pauses of the fetch
    loop are 1000, 2000 and 3000 ms, not 1000 ms each. *)
Lemma C3_counterexample :
  let r := call (sync 3 1000 true false None None (render idle0)) networkDown idle0 in
  trace r = [IoFetch false; IoDelay 1000; IoFetch false; IoDelay 2000;
             IoFetch false; IoDelay 3000] ∧
  ¬ (∀ ms, IoDelay ms ∈ trace r → ms = 1000).
Proof.
  split; [reflexivity|]. intros H.
  specialize (H 2000). cbn in H.
  assert (2000 = 1000) as Habs; [|lia].
  apply H. rewrite !elem_of_cons. tauto.
Qed.

Lemma C3_witness :
  let r := call (sync 3 1000 true false None None (render idle0)) networkDown idle0 in
  trace r = flat_map (λ j, [IoFetch false; IoDelay (1000 * (j + 1))]) (seq 0 3) ∧
  syncStatus (state (final r)) = Failed.
Proof.
  assert (HR : proceeds true (render idle0)) by (repeat split; reflexivity).
  destruct (C3_fetch_retry_linear_backoff 3 1000 true false None None
              (render idle0) networkDown idle0 HR) as [Hfail _].
  destruct Hfail as (Ht & _ & _ & Hs); [intros j _; reflexivity|].
  destruct Hs as [Hs _]; [reflexivity|].
  split; [exact Ht|exact Hs].
Defined.

Lemma C2_witness :
  let w' := final (call (sync 3 1000 true true None None (render edited1))
                     (pushRejected remote0) edited1) in
  pendingChanges w' = pendingChanges edited1 ∧
  syncStatus (state w') = Failed ∧
  pendingChanges (final (call (sync 3 1000 true true None None (render w'))
                           (networkUp remote0) w')) = [].
Proof.
  assert (HR : proceeds true (render edited1)) by (repeat split; reflexivity).
  destruct (C2_failed_push_keeps_pending 3 1000 true true None None
              (render edited1) (pushRejected remote0) edited1 0 remote0)
    as (Hp & Hs & _ & _ & HR' & Hlater);
    [exact HR | reflexivity | lia | intros j Hj; lia | reflexivity | reflexivity
    | reflexivity | discriminate | intros j _; reflexivity |].
  split; [exact Hp|]. split; [exact Hs|].
  apply (Hlater _ (networkUp remote0) _ 0 remote0 0);
    [apply HR'; reflexivity | lia | intros j Hj; lia | reflexivity | reflexivity
    | discriminate | lia | intros j Hj; lia | reflexivity].
Defined.

(** With the validator [smallCount] (the merged [count] must be below
    1): [update({count: 1})] is rejected and leaves the hook as it was,
    [update({count: -1})] is stored and logged. *)
Lemma C5_witness :
  (* a validator that rejects the merged object: nothing changes *)
  final (call (update None (Some SyncScenarios.smallCount) (count 1)) networkDown idle0)
    = idle0 ∧
  (* the same validator accepts [{count: -1}] *)
  data (state (final (call (update None (Some SyncScenarios.smallCount) (count (-1)))
                        networkDown idle0))) = count (-1) ∧
  pendingChanges (final (call (update None (Some SyncScenarios.smallCount) (count (-1)))
                           networkDown idle0))
    = [mkChange 0 (count (-1)) Update].
Proof.
  destruct (C5_update_local None (Some SyncScenarios.smallCount) (count 1) networkDown idle0)
    as (_ & _ & Hrej & _).
  destruct (C5_update_local None (Some SyncScenarios.smallCount) (count (-1)) networkDown idle0)
    as (_ & _ & _ & Hacc & _).
  split; [apply (Hrej SyncScenarios.smallCount); [reflexivity|vm_compute; reflexivity]|].
  destruct Hacc as (Hd & Hp & _).
  { right. exists SyncScenarios.smallCount. split; [reflexivity|vm_compute; reflexivity]. }
  split.
  - rewrite Hd. vm_compute. reflexivity.
  - rewrite Hp. reflexivity.
Defined.

(** C6, as stated, fails when [pushData] is configured: the log holds one
    change [{count: 1}], every fetch returns [remote0]; the first call
    stores the merge and empties the log, and the second call, with no
    mutation in between, stores the bare snapshot. *)
Lemma C6_counterexample :
  let once := resyncs 3 1000 true true None None [networkUp remote0] edited1 in
  let twice := resyncs 3 1000 true true None None
                 [networkUp remote0; networkUp remote0] edited1 in
  pendingChanges edited1 = [mkChange 0 (count 1) Update] ∧
  data (state once) = merged1 ∧
  data (state twice) = remote0 ∧
  merged1 ≠ remote0.
Proof.
  cbv zeta. split; [by vm_compute|]. split; [by vm_compute|]. split; [by vm_compute|].
  intros H. apply (f_equal (λ m : gmap string Value, m !! "count")) in H.
  vm_compute in H. discriminate H.
Defined.

(** The amended statement on the same input, without and with
    [pushData]. *)
Lemma C6_witness :
  (* without [pushData]: the same data after one call and after three *)
  (data (state (resyncs 3 1000 true false None None [networkUp remote0] edited1)) = merged1 ∧
   data (state (resyncs 3 1000 true false None None
                  [networkUp remote0; networkUp remote0; networkUp remote0] edited1))
     = merged1) ∧
  (* with [pushData]: the merge after one call, the snapshot after three *)
  (data (state (resyncs 3 1000 true true None None [networkUp remote0] edited1)) = merged1 ∧
   data (state (resyncs 3 1000 true true None None
                  [networkUp remote0; networkUp remote0; networkUp remote0] edited1))
     = remote0).
Proof.
  assert (Hf1 : fetches 3 remote0 (networkUp remote0)).
  { exists 0. split; [lia|]. split; [intros j Hj; lia|reflexivity]. }
  assert (Hfetch : Forall (fetches 3 remote0)
                     [networkUp remote0; networkUp remote0; networkUp remote0]).
  { repeat (constructor; [exact Hf1|]). constructor. }
  assert (Hmerge : applyPending None remote0 (pendingChanges edited1) = merged1)
    by (vm_compute; reflexivity).
  split.
  - destruct (C6_repeated_sync 3 1000 true false None None (networkUp remote0)
                [networkUp remote0; networkUp remote0] edited1 remote0)
      as (H1 & _ & Hkeep & _);
      [reflexivity | repeat split; reflexivity | reflexivity | exact Hfetch
      | intros Hp; discriminate Hp |].
    destruct Hkeep as [H3 _]; [by left|].
    split; [by rewrite H1|by rewrite H3].
  - destruct (C6_repeated_sync 3 1000 true true None None (networkUp remote0)
                [networkUp remote0; networkUp remote0] edited1 remote0)
      as (H1 & _ & _ & Hdrop);
      [reflexivity | repeat split; reflexivity | reflexivity | exact Hfetch
      | intros _ _; exists 0; split; [lia|]; split; [intros j Hj; lia|reflexivity] |].
    destruct Hdrop as [_ H3]; [reflexivity | discriminate | reflexivity |].
    split; [by rewrite H1|]. apply H3. discriminate.
Defined.

(** The end-to-end scenario of the specification: offline edit, then a
    sync against [{count: 0, extra: "x"}] with a working push. *)
Example sync_end_to_end :
  let w := final (call (sync 3 1000 true true None None (render edited1))
                    (networkUp remote0) edited1) in
  data (state edited1) !! "count" = Some (Num 1) ∧
  length (pendingChanges edited1) = 1 ∧
  data (state w) !! "count" = Some (Num 1) ∧
  data (state w) !! "extra" = Some (Str "x") ∧
  pendingChanges w = [] ∧
  syncStatus (state w) = Success.
Proof. by vm_compute. Qed.

(** The input of the counterexample of C6, step by step: a successful
    push clears the persisted log, so the [sync] of the next render
    folds an empty log.  Against the same snapshot
    [{count: 0, extra: "x"}] it stores the snapshot itself. *)
Example resync_after_push_sees_empty_log :
  let w := final (call (sync 3 1000 true true None None (render edited1))
                    (networkUp remote0) edited1) in
  let w' := final (call (sync 3 1000 true true None None (render w))
                     (networkUp remote0) w) in
  r_pendingChanges (render w) = [] ∧
  data (state w) !! "count" = Some (Num 1) ∧
  data (state w') !! "count" = Some (Num 0).
Proof. by vm_compute. Qed.

(** C7, at the failing input.  Two calls of the [sync] callback of one
    render (for instance [forceSync(); forceSync()] in one event handler)
    on an idle, online hook: the guard reads the [isSyncing] captured by
    the render, which is still [false] for the second call although the
    first call has set the state to syncing, so both calls issue a fetch
    and two cycles are in flight.  Only the callback of the next render
    is dropped by the guard. *)
Theorem C7_same_render_two_cycles :
  let R := render idle0 in
  let once := invoke (sync 3 1000 true true None None R) (idle0, []) in
  let twice := invoke (sync 3 1000 true true None None R) once in
  isSyncing (state once.1) = true ∧
  awaitsFetch <$> once.2 = [true] ∧
  awaitsFetch <$> twice.2 = [true; true] ∧
  sync 3 1000 true true None None (render once.1) = Ret.
Proof. by vm_compute. Qed.

End SyncFacts.

(* ===================================================================== *)
(** * Properties of the channel *)
(* ===================================================================== *)

Module ChannelFacts.
Import Channel.

Section facts.
Context {Msg : Type}.
Variable encode : Msg → option string.
Variable reconnectAttempts : nat.
Variable heartbeatInterval : nat.
Variable heartbeatMessage : Msg.

#[local] Abbreviation World := (@World Msg).
#[local] Abbreviation send := (@send Msg encode).
#[local] Abbreviation flushQueue := (@flushQueue Msg encode).
#[local] Abbreviation onopen := (@onopen Msg encode heartbeatInterval).
#[local] Abbreviation step :=
  (@step Msg encode reconnectAttempts heartbeatInterval heartbeatMessage).
#[local] Abbreviation onclose := (@onclose Msg reconnectAttempts).
#[local] Abbreviation reconnect := (@reconnect Msg).

(** ** [send] *)

(** While the current socket is not open, [send] only queues. *)
Lemma send_queues message (w : World) :
  currentReadyState w ≠ Some OPEN →
  send message w = (false, with_messageQueueRef (messageQueueRef w ++ [message]) w).
Proof.
  unfold currentReadyState, Channel.send. intros H.
  destruct (wsRef w) as [i|]; simpl in *; [|done].
  destruct (sockets w !! i) as [s|]; simpl in *; [|done].
  case_bool_decide as E; [|done]. by rewrite E in H.
Qed.

(** On an open current socket, [send] transmits what can be encoded and
    drops the rest; the queue is not touched. *)
Lemma send_open message (w : World) i s :
  wsRef w = Some i → sockets w !! i = Some s → ws_readyState s = OPEN →
  let w' := (send message w).2 in
  wsRef w' = Some i ∧
  messageQueueRef w' = messageQueueRef w ∧
  reconnectCount (state w') = reconnectCount (state w) ∧
  sockets w' !! i =
    Some (mkSocket OPEN (ws_handlers s) (ws_sent s ++ option_list (encode message))).
Proof.
  intros Hi Hs Ho. unfold Channel.send. rewrite Hi, Hs, Ho. simpl.
  destruct (encode message) as [d|]; simpl.
  - repeat split; try done. apply list_lookup_insert_eq. by eapply lookup_lt_Some.
  - rewrite app_nil_r. repeat split; try done. rewrite Hs. f_equal. destruct s. simpl in *. by subst.
Qed.

(** ** The flush loop *)

Lemma flushQueue_stuck fuel (w : World) :
  currentReadyState w ≠ Some OPEN → messageQueueRef w ≠ [] →
  flushQueue fuel w = None.
Proof.
  revert w. induction fuel as [|fuel IH]; intros w Hc Hq; simpl.
  - by destruct (messageQueueRef w).
  - destruct (messageQueueRef w) as [|message rest] eqn:E; [done|].
    rewrite send_queues by done. simpl. apply IH; [done|]. simpl.
    by destruct rest.
Qed.

Lemma flushQueue_open (w : World) i s :
  wsRef w = Some i → sockets w !! i = Some s → ws_readyState s = OPEN →
  ∀ fuel, length (messageQueueRef w) ≤ fuel →
  ∃ w', flushQueue fuel w = Some w' ∧
    wsRef w' = Some i ∧ messageQueueRef w' = [] ∧
    reconnectCount (state w') = reconnectCount (state w) ∧
    sockets w' !! i =
      Some (mkSocket OPEN (ws_handlers s) (ws_sent s ++ omap encode (messageQueueRef w))).
Proof.
  intros Hi Hs Ho fuel. revert w s Hi Hs Ho.
  induction fuel as [|fuel IH]; intros w s Hi Hs Ho Hlen.
  - destruct (messageQueueRef w) eqn:E; simpl in Hlen; [|lia].
    exists w. simpl. rewrite E. simpl. rewrite app_nil_r. repeat split; try done.
    rewrite Hs. f_equal. destruct s; simpl in *; by subst.
  - simpl. destruct (messageQueueRef w) as [|message rest] eqn:E.
    + exists w. simpl. rewrite app_nil_r. repeat split; try done.
      rewrite Hs. f_equal. destruct s; simpl in *; by subst.
    + set (w1 := with_messageQueueRef rest w).
      destruct (send_open message w1 i s Hi Hs Ho) as (Hi' & Hq' & Hc' & Hs').
      destruct (IH _ _ Hi' Hs' eq_refl) as (w' & -> & ? & ? & Hc'' & Hs'').
      { rewrite Hq'. simpl in *. lia. }
      exists w'. repeat split; try done.
      * by rewrite Hc'', Hc'.
      * rewrite Hs'', Hq'. simpl. f_equal. f_equal.
        rewrite <- (assoc_L (++)). f_equal. by destruct (encode message).
Qed.

(** The fuel of [onopen] is enough: when it runs out, the loop of the
    source does not terminate. *)
Lemma flushQueue_None_diverges (w : World) :
  flushQueue (length (messageQueueRef w)) w = None →
  ∀ fuel, flushQueue fuel w = None.
Proof.
  intros H fuel. apply flushQueue_stuck.
  - intros Hc. unfold currentReadyState in Hc.
    destruct (wsRef w) as [i|] eqn:Hi; simpl in Hc; [|done].
    destruct (sockets w !! i) as [s|] eqn:Hs; simpl in Hc; [|done].
    injection Hc as Hc.
    destruct (flushQueue_open w i s Hi Hs Hc _ (le_n _)) as (w' & Hw' & _).
    congruence.
  - intros Hq. rewrite Hq in H. simpl in H. by rewrite Hq in H.
Qed.

(** When the socket that opens is the current one, the queue is flushed
    to it in order, and [reconnectCount] is reset. *)
Lemma onopen_current (w : World) i s :
  wsRef w = Some i → sockets w !! i = Some s → ws_readyState s = CONNECTING →
  ∃ w', step (WsOpen i) w = Next w' ∧
    messageQueueRef w' = [] ∧
    reconnectCount (state w') = 0 ∧
    wsRef w' = Some i ∧
    sockets w' !! i =
      Some (mkSocket OPEN (ws_handlers s) (ws_sent s ++ omap encode (messageQueueRef w))).
Proof.
  intros Hi Hs Hc. unfold Channel.step. rewrite Hs, Hc. simpl.
  unfold Channel.onopen.
  set (w1 := setOpen (setReadyState i OPEN w)).
  assert (Hs1 : sockets w1 !! i = Some (mkSocket OPEN (ws_handlers s) (ws_sent s))).
  { unfold w1, setReadyState. rewrite Hs. simpl.
    apply list_lookup_insert_eq. by eapply lookup_lt_Some. }
  assert (Hi1 : wsRef w1 = Some i).
  { unfold w1, setReadyState. by rewrite Hs. }
  assert (Hq1 : messageQueueRef w1 = messageQueueRef w).
  { unfold w1, setReadyState. by rewrite Hs. }
  destruct (flushQueue_open w1 i _ Hi1 Hs1 eq_refl _ (le_n _))
    as (w2 & -> & Hi2 & Hq2 & Hc2 & Hs2).
  simpl. eexists. split; [done|].
  rewrite Hq1 in Hs2. simpl in Hs2.
  case_bool_decide; simpl; repeat split; try done.
Qed.

(** An [onopen] that returns has reset [reconnectCount]. *)
Lemma send_count message (w : World) :
  reconnectCount (state (send message w).2) = reconnectCount (state w).
Proof.
  unfold Channel.send. destruct (wsRef w) as [i|]; [|done].
  destruct (sockets w !! i) as [s|]; [|done].
  case_bool_decide; [|done]. by destruct (encode message).
Qed.

Lemma flushQueue_count fuel : ∀ (w w' : World),
  flushQueue fuel w = Some w' → reconnectCount (state w') = reconnectCount (state w).
Proof.
  induction fuel as [|fuel IH]; intros w w'; simpl.
  - destruct (messageQueueRef w); [|done]. by intros [= <-].
  - destruct (messageQueueRef w) as [|message rest]; [by intros [= <-]|].
    intros H. apply IH in H. by rewrite H, send_count.
Qed.

Lemma onopen_resets (w w' : World) :
  onopen w = Some w' → reconnectCount (state w') = 0.
Proof.
  unfold Channel.onopen. intros H.
  destruct (Channel.flushQueue _ _ _) as [w2|] eqn:E; [|done].
  apply flushQueue_count in E. simpl in *.
  injection H as <-. by case_bool_decide.
Qed.

(** ** Reconnection *)

(** [onclose] compares the [reconnectCount] of its closure, not the one
    in the state: whatever the state says, a handler created with a
    count below the limit schedules a reconnect, whose timer callback
    carries the same closure. *)
Lemma onclose_ignores_current_count c (w : World) :
  reconnectingRef w = false → c_reconnectCount c < reconnectAttempts →
  let w' := onclose c w in
  timeouts w' = timeouts w ++ [(true, c)] ∧
  reconnectTimeoutRef w' = Some (length (timeouts w)) ∧
  reconnectCount (state w') = reconnectCount (state w).
Proof.
  intros Hr Hc. unfold Channel.onclose. simpl.
  assert (reconnectingRef
            (clearInterval (heartbeatIntervalRef w)
               (setState (λ prev, mkWsState CLOSED false (error prev)
                                    (lastMessage prev) (reconnectCount prev)) w)) = false) as ->.
  { by destruct (heartbeatIntervalRef w). }
  rewrite bool_decide_true by done. simpl.
  by destruct (heartbeatIntervalRef w).
Qed.

(** The timer callback counts one more reconnect and connects with the
    closure it was scheduled with. *)
Lemma reconnect_keeps_closure c (w : World) :
  c_online c = true → currentReadyState w ≠ Some OPEN →
  let w' := reconnect c w in
  reconnectCount (state w') = S (reconnectCount (state w)) ∧
  sockets w' = sockets w ++ [mkSocket CONNECTING c []] ∧
  wsRef w' = Some (length (sockets w)).
Proof.
  intros Ho Hc. unfold Channel.reconnect, Channel.connect. simpl.
  rewrite Ho. simpl. rewrite bool_decide_false by done. simpl.
  split; [lia|done].
Qed.

(** Queued while the current socket is connecting, flushed first-in
    first-out when that socket opens, ahead of anything sent afterwards
    (a message whose encoding throws is dropped by [send]). *)
Lemma queue_flushed_in_order (w : World) i s message later :
  wsRef w = Some i → sockets w !! i = Some s → ws_readyState s = CONNECTING →
  let w1 := (send message w).2 in
  messageQueueRef w1 = messageQueueRef w ++ [message] ∧
  sockets w1 = sockets w ∧
  ∃ w2, step (WsOpen i) w1 = Next w2 ∧
    messageQueueRef w2 = [] ∧
    sockets (send later w2).2 !! i =
      Some (mkSocket OPEN (ws_handlers s)
              (ws_sent s ++ omap encode (messageQueueRef w ++ [message])
               ++ option_list (encode later))).
Proof.
  intros Hi Hs Hc w1. subst w1.
  rewrite send_queues.
  2:{ unfold currentReadyState. rewrite Hi. simpl. rewrite Hs. simpl. by rewrite Hc. }
  simpl. split; [done|]. split; [done|].
  destruct (onopen_current (with_messageQueueRef (messageQueueRef w ++ [message]) w) i s)
    as (w2 & Hstep & Hq & _ & Hi2 & Hs2); [done..|].
  exists w2. split; [done|]. split; [done|].
  destruct (send_open later w2 i _ Hi2 Hs2 eq_refl) as (_ & _ & _ & Hs3).
  rewrite Hs3. simpl. by rewrite <- (assoc_L (++)).
Qed.

End facts.

(** ** Scenarios *)

Import Scenarios.

(** C8, at the failing input.  With [reconnectAttempts = 3] and a server
    that never accepts: the timer callback reconnects with the [connect]
    that scheduled it, whose handlers test the [reconnectCount] captured
    when that [connect] was created (0, from the mount), so the test
    [0 < 3] never fails.  After the third failed retry [reconnectCount]
    is 3 and a fourth timer is pending; when it fires [reconnectCount]
    becomes 4 and a further socket is connecting. *)
Theorem C8_reconnects_past_limit :
  ((λ w, (reconnectCount (state w), timeouts w !! 3))
     <$> world (runChannel neverConnects)) = Some (3, Some (true, mkClosure true 0)) ∧
  ((λ w, (reconnectCount (state w), ws_readyState <$> last (sockets w)))
     <$> world (runChannel (neverConnects ++ [TimeoutFires 3])))
    = Some (4, Some CONNECTING).
Proof. split; by vm_compute. Qed.

(** A socket that opens resets the count: the same run, with the socket
    of the fourth reconnection accepted. *)
Example reconnectCount_reset_on_open :
  ((λ w, (reconnectCount (state w), connected (state w)))
     <$> world (runChannel (neverConnects ++ [TimeoutFires 3; WsOpen 10])))
    = Some (0, true).
Proof. by vm_compute. Qed.

(** C9, at the failing input.  The hook mounts while online: both effects
    call [connect], so two sockets are connecting and [wsRef] holds the
    second.  [send("m")] is queued.  When the first socket opens, its
    [onopen] flushes the queue through [send], which tests the socket in
    [wsRef] (still connecting) and puts the message back: the loop never
    ends, whatever the fuel, and ["m"] is never transmitted. *)
Theorem C9_flush_never_returns :
  (wsRef mountedQueued, ws_readyState <$> sockets mountedQueued,
   messageQueueRef mountedQueued) = (Some 1, [CONNECTING; CONNECTING], ["m"]) ∧
  runChannel [Commit; CallSend "m"; WsOpen 0] = Hangs ∧
  ∀ fuel, flushQueue text fuel (setOpen (setReadyState 0 OPEN mountedQueued)) = None.
Proof.
  split; [by vm_compute|]. split; [by vm_compute|].
  intros fuel. apply flushQueue_stuck; by vm_compute.
Qed.

(** When it is the current socket that opens first, the queue is flushed
    in order and later messages follow. *)
Example queue_flushed_current_socket :
  (map ws_sent <$> (sockets <$>
     world (runChannel [Commit; CallSend "m"; CallSend "n"; WsOpen 1; CallSend "later"])))
    = Some [[]; ["m"; "n"; "later"]].
Proof. by vm_compute. Qed.

End ChannelFacts.

Module CacheStoreFacts.
Import Cache CacheFacts CacheStore.

(** ** Storage keys *)

Lemma storageKey_inj a b : storageKey a = storageKey b → a = b.
Proof. unfold storageKey. intros [= H]. exact H. Qed.

Lemma prefix_empty s : String.prefix EmptyString s = true.
Proof. by destruct s. Qed.

Lemma isCacheKey_storageKey k : isCacheKey (storageKey k) = true.
Proof. unfold isCacheKey, storageKey. simpl. apply prefix_empty. Qed.

Lemma substring_all s : String.substring 0 (String.length s) s = s.
Proof. induction s as [|a s IH]; simpl; [done|]. by rewrite IH. Qed.

Lemma replace_storageKey k : replace "cache:" EmptyString (storageKey k) = k.
Proof.
  unfold replace, storageKey. simpl. rewrite prefix_empty. simpl.
  rewrite Nat.sub_0_r. apply substring_all.
Qed.

Lemma isCacheKey_inv key : isCacheKey key = true → ∃ k, key = storageKey k.
Proof.
  unfold isCacheKey, storageKey. intros H. apply String.prefix_correct in H.
  do 6 (destruct key as [|? key]; [discriminate H|]; cbn in H;
        injection H as <- H).
  by exists key.
Qed.


Section facts.
Context {T : Type}.
Variable validate : option (T → bool).
Variable deserialize : string → string + CacheEntry T.

#[local] Abbreviation State := (State T).
#[local] Abbreviation clear := (@clear T).
#[local] Abbreviation loadKeys := (@loadKeys T validate deserialize).
#[local] Abbreviation mount := (@mount T validate deserialize).
#[local] Abbreviation loaded := (@loaded T validate deserialize).
#[local] Abbreviation purged := (@purged T validate deserialize).
#[local] Abbreviation parses := (@parses T deserialize).

(** ** [clear] *)

(** X2: [clear()] empties the cache and the order, so that every key is
    absent afterwards, and removes from the durable backing the items
    whose key starts with [cache:] and no other item. *)
Theorem clear_forgets_everything (s : State) :
  cacheRef (clear s) = ∅ ∧
  accessOrderRef (clear s) = [] ∧
  keys (clear s) = [] ∧
  (∀ k now, get k now (clear s) = (None, clear s) ∧ has k now (clear s) = (false, clear s)) ∧
  (∀ k, storage (clear s) ≫= (λ m, m !! storageKey k) = None) ∧
  (∀ key, isCacheKey key = false →
          storage (clear s) ≫= (λ m, m !! key) = storage s ≫= (λ m, m !! key)).
Proof.
  split; [done|]. split; [done|]. split; [by unfold keys; simpl; rewrite map_to_list_empty|].
  split; [by intros k now|]. split.
  - intros k. unfold CacheStore.clear. simpl. destruct (storage s) as [m|]; simpl; [|done].
    apply map_lookup_filter_None. right. intros x _. simpl.
    by rewrite isCacheKey_storageKey.
  - intros key Hk. unfold CacheStore.clear. simpl. destruct (storage s) as [m|]; simpl; [|done].
    destruct (m !! key) as [x|] eqn:E.
    + by apply map_lookup_filter_Some.
    + apply map_lookup_filter_None. by left.
Qed.

(** ** The load at mount *)

Lemma entry_eta (e : CacheEntry T) : mkEntry (data e) (timestamp e) (expiresAt e) = e.
Proof. by destruct e. Qed.

Lemma loaded_delete_ne now (m : gmap string string) key key' :
  key ≠ key' → loaded now (delete key m) key' = loaded now m key'.
Proof. intros H. unfold CacheStore.loaded. by rewrite lookup_delete_ne. Qed.

Lemma purged_delete_ne now (m : gmap string string) key key' :
  key ≠ key' → purged now (delete key m) key' = purged now m key'.
Proof. intros H. unfold CacheStore.purged. by rewrite lookup_delete_ne. Qed.

Lemma parses_delete (m : gmap string string) key : parses m → parses (delete key m).
Proof.
  intros Hp key' raw Hraw. apply lookup_delete_Some in Hraw as [_ Hraw]. by apply Hp.
Qed.

Lemma omap_ext_elem {A B} (f g : A → option B) (l : list A) :
  (∀ x, x ∈ l → f x = g x) → omap f l = omap g l.
Proof.
  induction l as [|x l IH]; intros H; simpl; [done|].
  rewrite (H x) by (by left).
  destruct (g x); [f_equal|]; apply IH; intros y Hy; apply H; by right.
Qed.

(** The loop examines each key once, in the order given; what it does
    with one key does not depend on the others. *)
Lemma loadKeys_spec now keys : ∀ (s : State) m,
  storage s = Some m → NoDup keys →
  (∀ key, key ∈ keys → isCacheKey key = true) → parses m →
  (∀ k, cacheRef (loadKeys now keys s) !! k =
        match (if decide (storageKey k ∈ keys) then loaded now m (storageKey k) else None) with
        | Some e => Some e
        | None => cacheRef s !! k
        end) ∧
  (∃ m', storage (loadKeys now keys s) = Some m' ∧
     ∀ key, m' !! key =
            if decide (key ∈ keys) then (if purged now m key then None else m !! key)
            else m !! key) ∧
  hookError (loadKeys now keys s) = hookError s ∧
  accessOrderRef (loadKeys now keys s) =
    accessOrderRef s ++
    omap (λ key, match loaded now m key with
                 | Some _ => Some (replace "cache:" EmptyString key)
                 | None => None
                 end) keys.
Proof.
  induction keys as [|key rest IH]; intros s m Hs Hnd Hck Hp.
  { cbn [CacheStore.loadKeys omap list_omap]. split.
    { intros k. case_decide as Hin; [by apply elem_of_nil in Hin|done]. }
    split; [|by rewrite app_nil_r].
    exists m. split; [done|]. intros key.
    case_decide as Hin; [by apply elem_of_nil in Hin|done]. }
  apply NoDup_cons in Hnd as [Hkey Hnd].
  assert (Hck' : ∀ key0, key0 ∈ rest → isCacheKey key0 = true).
  { intros key0 Hin. apply Hck. by right. }
  assert (Hcache : isCacheKey key = true) by (apply Hck; by left).
  destruct (isCacheKey_inv key Hcache) as [k0 ->].
  (* the cases in which the item is left alone *)
  assert (Hskip : loaded now m (storageKey k0) = None →
                  purged now m (storageKey k0) = false →
                  loadKeys now (storageKey k0 :: rest) s = loadKeys now rest s →
                  (∀ k, cacheRef (loadKeys now (storageKey k0 :: rest) s) !! k =
                     match (if decide (storageKey k ∈ storageKey k0 :: rest)
                            then loaded now m (storageKey k) else None) with
                     | Some e => Some e
                     | None => cacheRef s !! k
                     end) ∧
                  (∃ m', storage (loadKeys now (storageKey k0 :: rest) s) = Some m' ∧
                     ∀ key, m' !! key =
                        if decide (key ∈ storageKey k0 :: rest)
                        then (if purged now m key then None else m !! key)
                        else m !! key) ∧
                  hookError (loadKeys now (storageKey k0 :: rest) s) = hookError s ∧
                  accessOrderRef (loadKeys now (storageKey k0 :: rest) s) =
                    accessOrderRef s ++
                    omap (λ key, match loaded now m key with
                                 | Some _ => Some (replace "cache:" EmptyString key)
                                 | None => None
                                 end)
                      (storageKey k0 :: rest)).
  { intros Hl Hpu ->. destruct (IH s m Hs Hnd Hck' Hp) as (Hc & (m' & Hm' & Hst) & He & Ho).
    split; [|split; [|split]].
    - intros k. rewrite Hc.
      destruct (decide (storageKey k ∈ rest)) as [Hin|Hnin].
      + by rewrite decide_True by (by right).
      + destruct (decide (storageKey k ∈ storageKey k0 :: rest)) as [Hin'|]; [|done].
        apply elem_of_cons in Hin' as [->|?]; [|done]. by rewrite Hl.
    - exists m'. split; [done|]. intros key. rewrite Hst.
      destruct (decide (key ∈ rest)) as [Hin|Hnin].
      + by rewrite decide_True by (by right).
      + destruct (decide (key ∈ storageKey k0 :: rest)) as [Hin'|]; [|done].
        apply elem_of_cons in Hin' as [->|?]; [|done]. by rewrite Hpu.
    - done.
    - rewrite Ho. simpl. by rewrite Hl. }
  destruct (m !! storageKey k0) as [raw|] eqn:Hraw.
  2:{ apply Hskip.
      - unfold CacheStore.loaded. by rewrite Hraw.
      - unfold CacheStore.purged. by rewrite Hraw.
      - simpl. by rewrite Hs; simpl; rewrite Hraw. }
  destruct (truthy raw) eqn:Htr.
  2:{ apply Hskip.
      - unfold CacheStore.loaded. by rewrite Hraw, Htr.
      - unfold CacheStore.purged. rewrite Hraw, Htr. by rewrite andb_false_r.
      - simpl. by rewrite Hs; simpl; rewrite Hraw, Htr. }
  destruct (Hp _ _ Hraw Hcache Htr) as [e He].
  destruct (bool_decide (now (storageKey k0) < expiresAt e)%Z
            && negb (rejected validate (data e))) eqn:Hlive.
  - (* the entry is loaded *)
    assert (Hl : loaded now m (storageKey k0) = Some e).
    { unfold CacheStore.loaded. by rewrite Hraw, Htr, He, Hlive. }
    set (s1 := with_order (accessOrderRef s ++ [k0])
                 (with_cache (<[k0 := e]> (cacheRef s)) s)).
    assert (Hstep : loadKeys now (storageKey k0 :: rest) s = loadKeys now rest s1).
    { simpl. rewrite Hs. simpl. rewrite Hraw, Htr, He, Hlive.
      by rewrite replace_storageKey, entry_eta. }
    rewrite Hstep.
    destruct (IH s1 m Hs Hnd Hck' Hp) as (Hc & (m' & Hm' & Hst) & Herr & Ho).
    split; [|split; [|split]].
    + intros k. rewrite Hc.
      destruct (decide (storageKey k ∈ rest)) as [Hin|Hnin].
      * rewrite decide_True by (by right).
        destruct (loaded now m (storageKey k)); [done|]. simpl.
        apply lookup_insert_ne. by intros ->.
      * destruct (decide (k = k0)) as [->|Hne].
        -- rewrite decide_True by (by left). rewrite Hl. simpl. apply lookup_insert_eq.
        -- rewrite decide_False.
           2:{ intros [Heq%storageKey_inj|?]%elem_of_cons; done. }
           simpl. by rewrite lookup_insert_ne.
    + exists m'. split; [done|]. intros key. rewrite Hst.
      destruct (decide (key ∈ rest)) as [Hin|Hnin].
      * by rewrite decide_True by (by right).
      * destruct (decide (key ∈ storageKey k0 :: rest)) as [Hin'|]; [|done].
        apply elem_of_cons in Hin' as [->|?]; [|done].
        unfold CacheStore.purged. rewrite Hraw, He, Hlive. simpl. by rewrite andb_false_r.
    + done.
    + rewrite Ho. simpl. rewrite Hl. rewrite replace_storageKey.
      by rewrite <- (assoc_L (++)).
  - (* the item is stale or invalid: it is removed *)
    assert (Hl : loaded now m (storageKey k0) = None).
    { unfold CacheStore.loaded. by rewrite Hraw, Htr, He, Hlive. }
    assert (Hpu : purged now m (storageKey k0) = true).
    { unfold CacheStore.purged. by rewrite Hraw, Hcache, Htr, He, Hlive. }
    set (s1 := with_storage (Some (delete (storageKey k0) m)) s).
    assert (Hstep : loadKeys now (storageKey k0 :: rest) s = loadKeys now rest s1).
    { simpl. rewrite Hs. simpl. by rewrite Hraw, Htr, He, Hlive. }
    rewrite Hstep.
    destruct (IH s1 (delete (storageKey k0) m) eq_refl Hnd Hck' (parses_delete _ _ Hp))
      as (Hc & (m' & Hm' & Hst) & Herr & Ho).
    split; [|split; [|split]].
    + intros k. rewrite Hc.
      destruct (decide (storageKey k ∈ rest)) as [Hin|Hnin].
      * rewrite decide_True by (by right).
        rewrite loaded_delete_ne; [done|]. intros Heq. apply Hkey. by rewrite Heq.
      * destruct (decide (storageKey k ∈ storageKey k0 :: rest)) as [Hin'|]; [|done].
        apply elem_of_cons in Hin' as [->|?]; [|done]. by rewrite Hl.
    + exists m'. split; [done|]. intros key. rewrite Hst.
      destruct (decide (key ∈ rest)) as [Hin|Hnin].
      * rewrite decide_True by (by right).
        rewrite purged_delete_ne, lookup_delete_ne; [done| |];
          intros Heq; apply Hkey; by rewrite Heq.
      * destruct (decide (key ∈ storageKey k0 :: rest)) as [Hin'|Hnin'].
        -- apply elem_of_cons in Hin' as [->|?]; [|done].
           by rewrite Hpu, lookup_delete_eq.
        -- apply lookup_delete_ne. intros Heq. apply Hnin'. apply elem_of_cons. by left.
    + done.
    + rewrite Ho. simpl. rewrite Hl. f_equal. apply omap_ext_elem.
      intros key' Hin. rewrite loaded_delete_ne; [done|].
      intros Heq. apply Hkey. by rewrite Heq.
Qed.

Lemma NoDup_omap_inj {A B} (f : A → option B) (l : list A) :
  (∀ x x' y, x ∈ l → x' ∈ l → f x = Some y → f x' = Some y → x = x') →
  NoDup l → NoDup (omap f l).
Proof.
  induction l as [|x l IH]; intros Hinj Hnd; simpl; [constructor|].
  apply NoDup_cons in Hnd as [Hx Hnd].
  assert (NoDup (omap f l)) as Hrec.
  { apply IH; [|done]. intros a b y Ha Hb. apply Hinj; by right. }
  destruct (f x) as [y|] eqn:E; [|done].
  apply NoDup_cons. split; [|done].
  intros Hin. apply list_elem_of_omap in Hin as (x' & Hx' & E').
  assert (x = x') as <-; [|done].
  apply (Hinj x x' y); [by left|by right|done..].
Qed.

Lemma mount_spec now keys (m : gmap string string) :
  NoDup keys → (∀ key, is_Some (m !! key) → key ∈ keys) → parses m →
  let s' := mount now keys (created m) in
  (∀ k, cacheRef s' !! k = loaded now m (storageKey k)) ∧
  (∀ k e, cacheRef s' !! k = Some e →
          (now (storageKey k) < expiresAt e)%Z ∧ rejected validate (data e) = false) ∧
  (∃ m', storage s' = Some m' ∧
     ∀ key, m' !! key = if purged now m key then None else m !! key) ∧
  hookError s' = None ∧
  NoDup (accessOrderRef s') ∧
  (∀ k, k ∈ accessOrderRef s' ↔ is_Some (cacheRef s' !! k)).
Proof.
  intros Hnd Hall Hp s'. subst s'. unfold CacheStore.mount. cbn [storage created].
  set (fkeys := filter (λ k, isCacheKey k = true) keys).
  assert (Hfk : ∀ key, key ∈ fkeys ↔ isCacheKey key = true ∧ key ∈ keys).
  { intros key. unfold fkeys. by rewrite list_elem_of_filter. }
  destruct (loadKeys_spec now fkeys (created m) m eq_refl) as (Hc & (m' & Hm' & Hst) & He & Ho);
    [by apply NoDup_filter | by intros key [? _]%Hfk | done |].
  assert (Hcache : ∀ k, cacheRef (loadKeys now fkeys (created m)) !! k
                        = loaded now m (storageKey k)).
  { intros k. rewrite Hc. case_decide as Hin.
    - destruct (loaded now m (storageKey k)); [done|]. apply lookup_empty.
    - simpl. rewrite lookup_empty. unfold CacheStore.loaded.
      destruct (m !! storageKey k) as [raw|] eqn:Hraw; [|done].
      exfalso. apply Hin, Hfk. split; [apply isCacheKey_storageKey|].
      apply Hall. by exists raw. }
  split; [done|]. split.
  { intros k e. rewrite Hcache. unfold CacheStore.loaded.
    destruct (m !! storageKey k) as [raw|]; [|done].
    destruct (truthy raw); [|done]. destruct (deserialize raw) as [|e']; [done|].
    destruct (bool_decide _ && _) eqn:Hlive; [|done]. intros [= <-].
    apply andb_true_iff in Hlive as [Hl Hv]. apply bool_decide_eq_true in Hl.
    split; [done|]. by apply negb_true_iff. }
  split.
  { exists m'. split; [done|]. intros key. rewrite Hst. case_decide as Hin; [done|].
    unfold CacheStore.purged. destruct (m !! key) as [raw|] eqn:Hraw; [|done].
    destruct (isCacheKey key) eqn:Hck; [|done].
    exfalso. apply Hin, Hfk. split; [done|]. apply Hall. by exists raw. }
  split; [done|].
  assert (Hin : ∀ k, k ∈ accessOrderRef (loadKeys now fkeys (created m)) ↔
                     is_Some (loaded now m (storageKey k))).
  { intros k. rewrite Ho. simpl. rewrite list_elem_of_omap. split.
    - intros (key & Hkey & Hk). apply Hfk in Hkey as [Hck _].
      destruct (isCacheKey_inv key Hck) as [k' ->].
      destruct (loaded now m (storageKey k')) eqn:E; [|done].
      rewrite replace_storageKey in Hk. injection Hk as <-. by rewrite E.
    - intros [e E]. exists (storageKey k). rewrite E, replace_storageKey. split; [|done].
      apply Hfk. split; [apply isCacheKey_storageKey|]. apply Hall.
      unfold CacheStore.loaded in E. destruct (m !! storageKey k); [done|discriminate]. }
  split.
  - rewrite Ho. simpl. apply NoDup_omap_inj; [|by apply NoDup_filter].
    intros x x' y Hx Hx' E E'.
    apply Hfk in Hx as [Hx _]. apply Hfk in Hx' as [Hx' _].
    destruct (isCacheKey_inv x Hx) as [k ->]. destruct (isCacheKey_inv x' Hx') as [k' ->].
    destruct (loaded now m (storageKey k)); [|done].
    destruct (loaded now m (storageKey k')); [|done].
    rewrite replace_storageKey in E, E'. congruence.
  - intros k. by rewrite Hin, Hcache.
Qed.


(** X3: The mount effect, on a storage whose [cache:] items all deserialise:
    whatever the order in which the storage lists its keys, the cache
    holds exactly the items that are unexpired when examined
    ([now < expiresAt], strictly) and pass the validator, under their
    key without the prefix; the stale or invalid items are removed from
    the storage and every other item stays; no error is recorded; and
    the order lists each loaded key once. *)
Theorem mount_loads_live_entries now keys (m : gmap string string) :
  NoDup keys → (∀ key, is_Some (m !! key) → key ∈ keys) → parses m →
  let s' := mount now keys (created m) in
  (∀ k, cacheRef s' !! k = loaded now m (storageKey k)) ∧
  (∀ k e, cacheRef s' !! k = Some e →
          (now (storageKey k) < expiresAt e)%Z ∧ rejected validate (data e) = false) ∧
  (∃ m', storage s' = Some m' ∧
     ∀ key, m' !! key = if purged now m key then None else m !! key) ∧
  hookError s' = None ∧
  NoDup (accessOrderRef s') ∧
  (∀ k, k ∈ accessOrderRef s' ↔ is_Some (cacheRef s' !! k)).
Proof. apply mount_spec. Qed.

(** ** Operations on any keys *)

Variable ttl : Z.
Variable maxSize : nat.
Variable serialize : CacheEntry T → string.

#[local] Abbreviation enforceLoop := (@enforceLoop T maxSize).
#[local] Abbreviation enforceSizeLimit := (@enforceSizeLimit T maxSize).
#[local] Abbreviation set := (@set T ttl maxSize validate serialize).
#[local] Abbreviation perform := (@perform T ttl maxSize validate serialize).
#[local] Abbreviation performs := (@performs T validate ttl maxSize serialize).
#[local] Abbreviation mirrors := (@mirrors T serialize).
#[local] Abbreviation setWrite := (@setWrite T validate ttl maxSize serialize).
#[local] Abbreviation step := (@step T validate deserialize ttl maxSize serialize).
#[local] Abbreviation run := (@run T validate deserialize ttl maxSize serialize).

Lemma size_le_1 {A} (m : gmap string A) key :
  (∀ k, is_Some (m !! k) → k = key) → size m ≤ 1.
Proof.
  intros H. destruct (m !! key) as [x|] eqn:E.
  - assert (m = {[key := x]}) as ->; [|by rewrite map_size_singleton].
    apply map_eq. intros k. destruct (decide (k = key)) as [->|Hne].
    + by rewrite lookup_singleton_eq.
    + rewrite lookup_singleton_ne by done.
      destruct (m !! k) eqn:Ek; [|done]. exfalso. apply Hne, H. by rewrite Ek.
  - assert (m = ∅) as ->; [|rewrite map_size_empty; lia].
    apply map_eq. intros k. rewrite lookup_empty.
    destruct (m !! k) eqn:Ek; [|done]. exfalso.
    assert (k = key) as -> by (apply H; by rewrite Ek). congruence.
Qed.


Lemma removelast_snoc {A} (l : list A) x : removelast (l ++ [x]) = l.
Proof. apply removelast_last. Qed.

Lemma evictOne_cases (s : State) :
  (accessOrderRef s = [] ∧ evictOne s = with_order [] s) ∨
  (∃ l x, accessOrderRef s = l ++ [x] ∧ accessOrderRef (evictOne s) = l ∧
          cacheRef (evictOne s) = (if truthy x then delete x (cacheRef s) else cacheRef s) ∧
          storage (evictOne s) =
            (if truthy x then removeItem (storageKey x) (storage s) else storage s)).
Proof.
  destruct (snoc_cases (accessOrderRef s)) as [Ho|(l & x & Ho)].
  - left. split; [done|]. unfold Cache.evictOne. by rewrite Ho.
  - right. exists l, x. split; [done|]. unfold Cache.evictOne.
    rewrite Ho, pop_snoc. by destruct (truthy x).
Qed.




Lemma touch_NoDup key (order : list string) :
  NoDup order → NoDup (updateAccessOrder key order).
Proof.
  intros H. unfold updateAccessOrder. apply NoDup_cons. split.
  - rewrite list_elem_of_filter. by intros [? _].
  - by apply NoDup_filter.
Qed.



(** *** Calls, renders and writes that throw *)

(** A write that returns: [setWrite] is [set]. *)
Lemma setWrite_None key value now1 now2 (s : State) :
  setWrite None key value now1 now2 s = set key value now1 now2 s.
Proof.
  unfold CacheStore.setWrite, Cache.set. destruct (rejected validate value); [done|].
  destruct (Cache.enforceSizeLimit _ _) as [s3|]; [|done]. by destruct (storage s3).
Qed.















(** ** The durable backing *)

Lemma wellListed_listed (s : State) : wellListed s → listed s.
Proof. intros (Hnd & Ht & Hl). split; [done|]. intros k _. apply Hl. Qed.

(** What the loop has done when it stops, storage included. *)
Lemma enforceLoop_spec_storage fuel : ∀ (s s' : State),
  (∀ k, k ∈ accessOrderRef s → k ≠ EmptyString) →
  enforceLoop fuel s = Some s' →
  ∃ popped, accessOrderRef s = accessOrderRef s' ++ popped ∧
    (∀ k, cacheRef s' !! k = if decide (k ∈ popped) then None else cacheRef s !! k) ∧
    (∀ m, storage s = Some m →
       ∃ m', storage s' = Some m' ∧
         (∀ k, m' !! storageKey k = if decide (k ∈ popped) then None else m !! storageKey k)).
Proof.
  assert (Hstop : ∀ s : State, ∃ popped, accessOrderRef s = accessOrderRef s ++ popped ∧
     (∀ k, cacheRef s !! k = if decide (k ∈ popped) then None else cacheRef s !! k) ∧
     (∀ m, storage s = Some m →
        ∃ m', storage s = Some m' ∧
          (∀ k, m' !! storageKey k = if decide (k ∈ popped) then None else m !! storageKey k))).
  { intros s0. exists []. rewrite app_nil_r. split; [done|]. split.
    - intros k. rewrite decide_False; [done|]. apply not_elem_of_nil.
    - intros m Hm. exists m. split; [done|]. intros k.
      rewrite decide_False; [done|]. apply not_elem_of_nil. }
  induction fuel as [|fuel IH]; intros s s' Ht; simpl; case_decide as Hsz; try done;
    try (intros [= <-]; apply Hstop).
  intros Hloop.
  destruct (evictOne_cases s) as [[Ho He]|(l & x & Ho & Ho' & Hc & Hst)].
  - rewrite He in Hloop.
    destruct (IH (with_order [] s) s') as (popped & Hp & Hk & Hs); [|done|].
    { simpl. by intros k ?%elem_of_nil. }
    exists popped. rewrite Ho. split; [done|]. split; [done|]. exact Hs.
  - assert (Hx : truthy x = true).
    { apply truthy_spec, Ht. rewrite Ho. apply elem_of_snoc. by right. }
    rewrite Hx in Hc, Hst.
    destruct (IH (evictOne s) s') as (popped & Hp & Hk & Hs); [|done|].
    { intros k Hin. apply Ht. rewrite Ho. rewrite Ho' in Hin. apply elem_of_snoc. by left. }
    exists (popped ++ [x]). rewrite Ho. rewrite Ho' in Hp. split.
    { by rewrite Hp, (assoc_L (++)). }
    split.
    + intros k. rewrite Hk, Hc.
      destruct (decide (k ∈ popped)) as [Hin|Hnin].
      * rewrite decide_True; [done|]. apply elem_of_snoc. by left.
      * destruct (decide (k = x)) as [->|Hne].
        -- rewrite decide_True by (apply elem_of_snoc; by right). apply lookup_delete_eq.
        -- rewrite decide_False, lookup_delete_ne; [done..|].
           rewrite elem_of_snoc. by intros [?|?].
    + intros m Hm. rewrite Hm in Hst. simpl in Hst.
      destruct (Hs _ Hst) as (m' & Hm' & Hlk). exists m'. split; [done|].
      intros k. rewrite Hlk.
      destruct (decide (k ∈ popped)) as [Hin|Hnin].
      * rewrite decide_True; [done|]. apply elem_of_snoc. by left.
      * destruct (decide (k = x)) as [->|Hne].
        -- rewrite decide_True by (apply elem_of_snoc; by right). apply lookup_delete_eq.
        -- rewrite decide_False, lookup_delete_ne; [done| |].
           ++ intros Heq%storageKey_inj. congruence.
           ++ rewrite elem_of_snoc. by intros [?|?].
Qed.

(** With room for at least one entry the loop never pops the front of
    the order, the key just touched. *)
Lemma enforceLoop_keeps_front fuel : ∀ (s s' : State) key l,
  1 ≤ maxSize → accessOrderRef s = key :: l →
  (∀ k, k ∈ accessOrderRef s → k ≠ EmptyString) →
  (∀ k, is_Some (cacheRef s !! k) → k ∈ accessOrderRef s) →
  enforceLoop fuel s = Some s' → ∃ l', accessOrderRef s' = key :: l'.
Proof.
  induction fuel as [|fuel IH]; intros s s' key l Hmax Ho Ht Hl; simpl;
    case_decide as Hsz; try done; try (intros [= <-]; by exists l).
  intros Hloop.
  destruct (snoc_cases l) as [->|(l' & x & ->)].
  { exfalso. assert (size (cacheRef s) ≤ 1); [|lia].
    apply (size_le_1 _ key). intros k Hs. specialize (Hl k Hs). rewrite Ho in Hl.
    by apply list_elem_of_singleton in Hl. }
  assert (Hx : x ≠ EmptyString).
  { apply Ht. rewrite Ho. apply elem_of_cons. right. apply elem_of_snoc. by right. }
  destruct (evictOne_snoc s (key :: l') x Ho Hx) as [Hc Ho'].
  apply (IH (evictOne s) s' key l'); try done.
  - intros k Hin. apply Ht. rewrite Ho. rewrite Ho' in Hin.
    change (k ∈ (key :: l') ++ [x]). apply elem_of_snoc. by left.
  - intros k. rewrite Hc, Ho'. intros [y Hy].
    apply lookup_delete_Some in Hy as [Hkx Hy].
    specialize (Hl k (mk_is_Some _ _ Hy)). rewrite Ho in Hl.
    change (k ∈ (key :: l') ++ [x]) in Hl.
    apply elem_of_snoc in Hl as [?|?]; [done|congruence].
Qed.

(** One operation on a non-empty key keeps the listing and the mirror. *)
Lemma perform_mirrors op (s : State) :
  1 ≤ maxSize → opKey op ≠ EmptyString → wellListed s → mirrors s →
  ∃ s', perform op s = Some s' ∧ wellListed s' ∧ mirrors s'.
Proof.
  intros Hmax Hkey (Hnd & Ht & Hl) (m & Hm & Hmir).
  destruct op as [key value now1 now2|key now|key now|key]; simpl in Hkey; simpl.
  - (* set *)
    unfold Cache.set. destruct (rejected validate value).
    { eexists. split; [done|]. split; [done|]. by exists m. }
    set (entry := mkEntry value now1 (now2 + ttl)).
    set (s2 := with_order _ _).
    assert (Ht2 : ∀ k, k ∈ accessOrderRef s2 → k ≠ EmptyString).
    { intros k [->|[_ Hk]]%elem_of_touch; [done|by apply Ht]. }
    assert (Hl2 : ∀ k, is_Some (cacheRef s2 !! k) → k ∈ accessOrderRef s2).
    { intros k Hs. apply elem_of_touch.
      destruct (decide (k = key)) as [->|Hne]; [by left|].
      simpl in Hs. rewrite lookup_insert_ne in Hs by done. right. split; [done|by apply Hl]. }
    assert (Hnd2 : NoDup (accessOrderRef s2)) by (by apply touch_NoDup).
    destruct (enforceSizeLimit_terminates maxSize s2 Ht2 Hl2) as [s3 E].
    fold (enforceSizeLimit s2). rewrite E.
    destruct (enforceLoop_spec_storage _ _ _ Ht2 E) as (popped & Hp & Hk & Hs).
    destruct (Hs m Hm) as (m3 & Hm3 & Hlk).
    destruct (enforceLoop_keeps_front _ s2 s3 key
                (filter (λ k, k ≠ key) (accessOrderRef s)) Hmax eq_refl Ht2 Hl2 E)
      as [l' Hfront].
    assert (Hkeep : key ∉ popped).
    { rewrite Hp in Hnd2. apply NoDup_app in Hnd2 as (_ & Hdis & _).
      apply Hdis. rewrite Hfront. by left. }
    eexists. split; [done|]. split.
    + split; simpl; [|split].
      * rewrite Hp in Hnd2. by apply NoDup_app in Hnd2 as (? & _ & _).
      * intros k Hin. apply Ht2. rewrite Hp. apply elem_of_app. by left.
      * intros k. rewrite Hk. case_decide as Hpop; [by intros [? ?]|].
        intros Hsome. specialize (Hl2 k Hsome). rewrite Hp in Hl2.
        by apply elem_of_app in Hl2 as [?|?].
    + exists (<[storageKey key := serialize entry]> m3). simpl. rewrite Hm3. split; [done|].
      intros k. rewrite Hk. destruct (decide (k = key)) as [->|Hne].
      * rewrite lookup_insert_eq, decide_False by done. simpl. by rewrite lookup_insert_eq.
      * rewrite lookup_insert_ne by (by intros ?%storageKey_inj).
        rewrite Hlk. case_decide; [done|]. simpl. by rewrite lookup_insert_ne, Hmir.
  - (* get *)
    eexists. split; [done|]. unfold Cache.get.
    destruct (cacheRef s !! key) as [e|] eqn:E; [|by split; [|exists m]].
    case_decide; simpl.
    + split.
      * split; [done|]. split; [done|]. simpl.
        intros k [x Hx]. apply lookup_delete_Some in Hx as [_ Hx]. apply Hl. by exists x.
      * exists (delete (storageKey key) m). simpl. rewrite Hm. split; [done|].
        intros k. destruct (decide (k = key)) as [->|Hne].
        -- by rewrite !lookup_delete_eq.
        -- rewrite !lookup_delete_ne; [done..|]. by intros ?%storageKey_inj.
    + split; [|by exists m]. split; simpl; [by apply touch_NoDup|]. split.
      * intros k [->|[_ Hk]]%elem_of_touch; [done|by apply Ht].
      * intros k Hs. apply elem_of_touch.
        destruct (decide (k = key)) as [->|Hne]; [by left|]. right. split; [done|by apply Hl].
  - (* has *)
    eexists. split; [done|]. unfold Cache.has.
    destruct (cacheRef s !! key) as [e|] eqn:E; [|by split; [|exists m]].
    case_decide; [|by split; [|exists m]]. simpl. split.
    + split; simpl; [by apply NoDup_filter|]. split.
      * intros k [_ Hk]%list_elem_of_filter. by apply Ht.
      * intros k [x Hx]. apply lookup_delete_Some in Hx as [Hne Hx].
        apply list_elem_of_filter. split; [done|]. apply Hl. by exists x.
    + exists (delete (storageKey key) m). simpl. rewrite Hm. split; [done|].
      intros k. destruct (decide (k = key)) as [->|Hne].
      * by rewrite !lookup_delete_eq.
      * rewrite !lookup_delete_ne; [done..|]. by intros ?%storageKey_inj.
  - (* remove *)
    eexists. split; [done|]. split.
    + split; simpl; [by apply NoDup_filter|]. split.
      * intros k [_ Hk]%list_elem_of_filter. by apply Ht.
      * intros k [x Hx]. apply lookup_delete_Some in Hx as [Hne Hx].
        apply list_elem_of_filter. split; [done|]. apply Hl. by exists x.
    + exists (delete (storageKey key) m). simpl. rewrite Hm. split; [done|].
      intros k. destruct (decide (k = key)) as [->|Hne].
      * by rewrite !lookup_delete_eq.
      * rewrite !lookup_delete_ne; [done..|]. by intros ?%storageKey_inj.
Qed.

Lemma performs_mirrors ops : ∀ (s : State),
  1 ≤ maxSize → Forall (λ op, opKey op ≠ EmptyString) ops → wellListed s → mirrors s →
  ∃ s', performs ops s = Some s' ∧ wellListed s' ∧ mirrors s'.
Proof.
  induction ops as [|op ops IH]; intros s Hmax Hall Hw Hmir; simpl; [by exists s|].
  apply Forall_cons in Hall as [Hop Hall].
  destruct (perform_mirrors op s Hmax Hop Hw Hmir) as (s1 & -> & Hw1 & Hm1). simpl.
  by apply IH.
Qed.

Lemma created_empty_ok : wellListed (@created T ∅) ∧ mirrors (created ∅).
Proof.
  split.
  - split; [constructor|]. split; [by intros k ?%elem_of_nil|].
    intros k [x Hx]. simpl in Hx. by rewrite lookup_empty in Hx.
  - exists ∅. split; [done|]. intros k. by rewrite !lookup_empty.
Qed.

Lemma clear_mirrors (s : State) : mirrors s → wellListed (clear s) ∧ mirrors (clear s).
Proof.
  intros (m & Hm & _). split.
  - split; [constructor|]. split; [by intros k ?%elem_of_nil|].
    intros k [x Hx]. simpl in Hx. by rewrite lookup_empty in Hx.
  - unfold CacheStore.clear. rewrite Hm. eexists. split; [reflexivity|].
    intros k. cbn [cacheRef]. rewrite lookup_empty. simpl. apply map_lookup_filter_None.
    right. intros x _. simpl. by rewrite isCacheKey_storageKey.
Qed.

Lemma step_mirrors ev (s : State) :
  1 ≤ maxSize → quiet ev → wellListed s → mirrors s →
  ∃ s', step ev s = Some s' ∧ wellListed s' ∧ mirrors s'.
Proof.
  intros Hmax Hq Hw Hm. destruct ev as [op thrown| |now keys]; cbn [CacheStore.step].
  - destruct Hq as [Hkey ->].
    destruct (perform_mirrors op s Hmax Hkey Hw Hm) as (s' & Hs' & H).
    exists s'. split; [|done].
    destruct op; [by rewrite setWrite_None|done..].
  - eexists. split; [done|]. by apply clear_mirrors.
  - done.
Qed.

Lemma run_mirrors events : ∀ (s : State),
  1 ≤ maxSize → Forall quiet events → wellListed s → mirrors s →
  ∃ s', run events s = Some s' ∧ wellListed s' ∧ mirrors s'.
Proof.
  induction events as [|ev events IH]; intros s Hmax Hall Hw Hmir; simpl; [by exists s|].
  apply Forall_cons in Hall as [Hev Hall].
  destruct (step_mirrors ev s Hmax Hev Hw Hmir) as (s1 & -> & Hw1 & Hm1). simpl.
  by apply IH.
Qed.

(** X5: On a hook created over an empty durable backing, with
    [maxSize ≥ 1], as long as the keys are non-empty, every write to
    the backing succeeds and the mount effect does not run again (the
    options keep their identity across renders): after every sequence
    of [set], [get], [has], [remove] and [clear] calls the backing
    mirrors the cache, [cache:key] holds the serialised entry exactly
    when [key] is cached.  What a write that throws and a new run of
    the mount effect do to the mirror is shown by
    [write_that_throws_breaks_mirror] and [rerun_breaks_mirror]. *)
Theorem storage_mirrors_cache events (s : State) :
  1 ≤ maxSize → Forall quiet events →
  run events (created ∅) = Some s →
  ∃ m, storage s = Some m ∧
       ∀ k, m !! storageKey k = serialize <$> cacheRef s !! k.
Proof.
  intros Hmax Hall Hrun. destruct created_empty_ok as [Hw Hm].
  destruct (run_mirrors events _ Hmax Hall Hw Hm) as (s' & Hs' & _ & Hmir).
  assert (s' = s) as -> by congruence. exact Hmir.
Qed.



(** ** A later mount over the same backing *)

(** X7: A hook instance that mounts over the backing left by an earlier
    instance restores an entry exactly when the earlier cache held it,
    it has not expired and the validator accepts it; serialising and
    deserialising a cached entry is assumed to give the entry back. *)
Theorem remount_restores_live_entries now keys (s : State) m :
  (∀ k e, cacheRef s !! k = Some e →
          truthy (serialize e) = true ∧ deserialize (serialize e) = inr e) →
  storage s = Some m →
  (∀ k, m !! storageKey k = serialize <$> cacheRef s !! k) →
  NoDup keys → (∀ key, is_Some (m !! key) → key ∈ keys) →
  ∀ k, cacheRef (mount now keys (created m)) !! k =
       e ← cacheRef s !! k;
       if bool_decide (now (storageKey k) < expiresAt e)%Z && negb (rejected validate (data e))
       then Some e else None.
Proof.
  intros Hrt Hm Hmir Hnd Hall k.
  assert (Hp : parses m).
  { intros key rawData Hraw Hck _. apply isCacheKey_inv in Hck as [k' ->].
    rewrite Hmir in Hraw. destruct (cacheRef s !! k') as [e|] eqn:E; [|done].
    injection Hraw as <-. exists e. by apply (Hrt k'). }
  destruct (mount_spec now keys m Hnd Hall Hp) as (Hc & _). rewrite Hc.
  unfold CacheStore.loaded. rewrite Hmir.
  destruct (cacheRef s !! k) as [e|] eqn:E; simpl; [|done].
  destruct (Hrt k e E) as [-> ->]. done.
Qed.

End facts.

(** ** Scenarios *)

Import StoreScenarios.

Lemma lru_eviction_witness :
  ∃ t', track 10 2 None Scenarios.entryText (OpSet "c" 3 3 3) afterAB = Some t' ∧
    size (cacheRef (cells t')) ≤ 2 ∧
    ∀ j i,
      is_Some (<["c" := mkEntry 3 3 (3 + 10)]> (cacheRef (cells afterAB)) !! j) →
      cacheRef (cells t') !! j = None →
      is_Some (cacheRef (cells t') !! i) →
      newer (lastTouched t') i j.
Proof.
  apply (CacheFacts.lru_eviction_nonempty_keys 10 2 None Scenarios.entryText setAsetBgetA).
  - repeat constructor; discriminate.
  - discriminate.
  - reflexivity.
  - vm_compute. reflexivity.
Defined.


Example rerun_lists_keys_twice :
  accessOrderRef <$> run None digitParse 5 2 digitText storedThenRerun (created ∅)
    = Some ["b"; "a"; "a"; "b"].
Proof. by vm_compute. Qed.

Lemma mount_witness :
  let s' := mount None digitParse (λ _, 5%Z) ["cache:a"; "cache:b"; "theme"] (created backing) in
  (∀ k, cacheRef s' !! k = loaded None digitParse (λ _, 5%Z) backing (storageKey k)) ∧
  (∀ k e, cacheRef s' !! k = Some e →
          (5 < expiresAt e)%Z ∧ rejected None (data e) = false) ∧
  (∃ m', storage s' = Some m' ∧
     ∀ key, m' !! key = if purged None digitParse (λ _, 5%Z) backing key then None
                        else backing !! key) ∧
  hookError s' = None ∧
  NoDup (accessOrderRef s') ∧
  (∀ k, k ∈ accessOrderRef s' ↔ is_Some (cacheRef s' !! k)).
Proof.
  apply (mount_loads_live_entries None digitParse (λ _, 5%Z)).
  - apply (bool_decide_unpack _). by vm_compute.
  - intros key [x Hx]. unfold backing in Hx.
    repeat (apply lookup_insert_Some in Hx as [[<- _]|[_ Hx]];
            [apply (bool_decide_unpack _); by vm_compute|]).
    apply lookup_singleton_Some in Hx as [<- _]. apply (bool_decide_unpack _). by vm_compute.
  - intros key rawData Hraw _ _. unfold backing in Hraw.
    repeat (apply lookup_insert_Some in Hraw as [[_ <-]|[_ Hraw]]; [by eexists|]).
    apply lookup_singleton_Some in Hraw as [_ <-]. by eexists.
Defined.

Lemma mirror_witness :
  ∃ m, storage twoStored = Some m ∧
       ∀ k, m !! storageKey k = digitText <$> cacheRef twoStored !! k.
Proof.
  apply (storage_mirrors_cache None digitParse 5 2 digitText
           [Call (OpSet "a" "x" 0 0) None; Call (OpSet "b" "y" 1 1) None]).
  - lia.
  - repeat constructor; discriminate.
  - vm_compute. reflexivity.
Defined.

(** A write that throws leaves the entry cached and the backing without
    its item. *)
Example write_that_throws_breaks_mirror :
  let s := default (created ∅)
             (run None digitParse 5 2 digitText
                [Call (OpSet "a" "x" 0 0) (Some "QuotaExceededError")] (created ∅)) in
  cacheRef s !! "a" = Some (mkEntry "x" 0 5) ∧
  storage s = Some ∅ ∧
  hookError s = Some "QuotaExceededError" ∧
  hookData s = None.
Proof. by vm_compute. Qed.

(** A new run of the mount effect at the instant an entry expires
    ([now = expiresAt]) removes the item, which the effect takes for
    expired, and leaves the entry, which [get] takes for live. *)
Example rerun_breaks_mirror :
  let s := default (created ∅)
             (run None digitParse 5 2 digitText
                [Call (OpSet "a" "x" 0 0) None; Rerun (λ _, 5%Z) ["cache:a"]] (created ∅)) in
  cacheRef s !! "a" = Some (mkEntry "x" 0 5) ∧
  storage s = Some ∅ ∧
  (get "a" 5 s).1 = Some "x".
Proof. by vm_compute. Qed.


Lemma remount_witness :
  let remounted :=
    mount None digitParse (λ _, 5%Z) ["cache:a"; "cache:b"]
      (created {[ "cache:a" := "05x"; "cache:b" := "16y" ]}) in
  cacheRef remounted !! "a" =
    (e ← cacheRef twoStored !! "a";
     if bool_decide (5 < expiresAt e)%Z && negb (rejected None (data e))
     then Some e else None) ∧
  cacheRef remounted !! "b" =
    (e ← cacheRef twoStored !! "b";
     if bool_decide (5 < expiresAt e)%Z && negb (rejected None (data e))
     then Some e else None).
Proof.
  assert (H : ∀ k,
    cacheRef (mount None digitParse (λ _, 5%Z) ["cache:a"; "cache:b"]
                (created {[ "cache:a" := "05x"; "cache:b" := "16y" ]})) !! k =
    e ← cacheRef twoStored !! k;
    if bool_decide (5 < expiresAt e)%Z && negb (rejected None (data e))
    then Some e else None).
  { apply (remount_restores_live_entries None digitParse digitText (λ _, 5%Z)
             ["cache:a"; "cache:b"] twoStored).
    - intros k e Hk. change (cacheRef twoStored) with
        (<["b" := mkEntry "y" 1%Z 6%Z]> (<["a" := mkEntry "x" 0%Z 5%Z]> (∅ : gmap string _))) in Hk.
      apply lookup_insert_Some in Hk as [[_ <-]|[_ Hk]]; [by vm_compute|].
      apply lookup_insert_Some in Hk as [[_ <-]|[_ Hk]]; [by vm_compute|].
      by rewrite lookup_empty in Hk.
    - vm_compute. reflexivity.
    - intros k. destruct (@created_empty_ok string digitText) as [Hw Hmir0].
      destruct (performs_mirrors None 5 2 digitText
                  [OpSet "a" "x" 0 0; OpSet "b" "y" 1 1] (created ∅))
        as (s' & Hs' & _ & m & Hm & Hmir);
        [lia | repeat constructor; discriminate | exact Hw | exact Hmir0 |].
      vm_compute in Hs'. injection Hs' as <-. injection Hm as <-. apply Hmir.
    - apply (bool_decide_unpack _). by vm_compute.
    - intros key [x Hx].
      apply lookup_insert_Some in Hx as [[<- _]|[_ Hx]];
        [apply (bool_decide_unpack _); by vm_compute|].
      apply lookup_singleton_Some in Hx as [<- _]. apply (bool_decide_unpack _). by vm_compute. }
  split; apply H.
Defined.

End CacheStoreFacts.

(* ===================================================================== *)
(** * Properties of [refresh] and [fetchPage] *)
(* ===================================================================== *)

Module CacheFetchFacts.
Import Cache CacheFacts CacheStore CacheStoreFacts CacheFetch.

Section facts.
Context {A Page : Type}.
Variable ttl : Z.
Variable maxSize : nat.
Variable validate : option (list A → bool).
Variable serialize : CacheEntry (list A) → string.
Variable toString : Page → string.

#[local] Abbreviation State := (State (list A)).
#[local] Abbreviation Hook := (@Hook (list A)).
#[local] Abbreviation set := (@set (list A) ttl maxSize validate serialize).
#[local] Abbreviation refresh := (@refresh (list A) ttl maxSize validate serialize).
#[local] Abbreviation fetchPage := (@fetchPage A Page ttl maxSize validate serialize toString).
#[local] Abbreviation fetchedPage := (@fetchedPage A ttl validate).

(** With room for one entry, a [set] of a valid value under a non-empty
    key returns with the entry in the cache. *)
Lemma set_keeps_key key value now1 now2 (s : State) :
  1 ≤ maxSize → key ≠ EmptyString → wellListed s → rejected validate value = false →
  ∃ s', set key value now1 now2 s = Some s' ∧
        cacheRef s' !! key = Some (mkEntry value now1 (now2 + ttl)).
Proof.
  intros Hmax Hkey (Hnd & Ht & Hl) Hrej. unfold Cache.set. rewrite Hrej.
  set (s2 := with_order _ _).
  assert (Ht2 : ∀ k, k ∈ accessOrderRef s2 → k ≠ EmptyString).
  { intros k [->|[_ Hk]]%elem_of_touch; [done|by apply Ht]. }
  assert (Hl2 : ∀ k, is_Some (cacheRef s2 !! k) → k ∈ accessOrderRef s2).
  { intros k Hs. apply elem_of_touch.
    destruct (decide (k = key)) as [->|Hne]; [by left|].
    simpl in Hs. rewrite lookup_insert_ne in Hs by done. right. split; [done|by apply Hl]. }
  assert (Hnd2 : NoDup (accessOrderRef s2)) by (by apply touch_NoDup).
  destruct (enforceSizeLimit_terminates maxSize s2 Ht2 Hl2) as [s3 E].
  fold (enforceSizeLimit maxSize s2). rewrite E.
  destruct (enforceLoop_spec_storage maxSize _ _ _ Ht2 E) as (popped & Hp & Hk & _).
  destruct (enforceLoop_keeps_front maxSize _ s2 s3 key
              (filter (λ k, k ≠ key) (accessOrderRef s)) Hmax eq_refl Ht2 Hl2 E)
    as [l' Hfront].
  assert (Hkeep : key ∉ popped).
  { rewrite Hp in Hnd2. apply NoDup_app in Hnd2 as (_ & Hdis & _).
    apply Hdis. rewrite Hfront. by left. }
  eexists. split; [done|]. simpl. rewrite Hk, decide_False by done.
  simpl. apply lookup_insert_eq.
Qed.

(** X8: [fetchPage] always returns, and never throws: it returns the cached
    page when there is a live one, without fetching; otherwise the
    fetched page, when the fetch succeeds, the validator accepts it and
    it has not expired by the time it is read back; and the empty page
    in every other case. *)
Theorem fetchPage_result page fetched now0 now1 now2 now3 (h : Hook) :
  1 ≤ maxSize → toString page ≠ EmptyString → wellListed (h_cells h) →
  ∃ r h', fetchPage page fetched now0 now1 now2 now3 h = Some (r, h') ∧
    r = match cacheRef (h_cells h) !! toString page with
        | Some e =>
            if decide (expiresAt e < now0)%Z then fetchedPage fetched now2 now3
            else data e
        | None => fetchedPage fetched now2 now3
        end.
Proof.
  intros Hmax Hkey Hw. unfold CacheFetch.fetchPage.
  set (key := toString page) in *.
  (* the cells after a first [get] that misses *)
  assert (Hmiss : ∀ s1 : State, wellListed s1 → cacheRef s1 !! key = None →
            ∀ l, ∃ r h',
              (h2 ← refresh key fetched now1 now2 (mkHook s1 l);
               let '(r, s3) := get key now3 (h_cells h2) in
               Some (default [] r, mkHook s3 (h_isLoading h2))) = Some (r, h') ∧
              r = fetchedPage fetched now2 now3).
  { intros s1 Hw1 Hnone l. unfold CacheFetch.refresh, CacheFetch.fetchedPage. cbn [h_cells].
    destruct fetched as [e|value].
    - simpl. unfold get. simpl. rewrite Hnone. by eexists _, _.
    - destruct (rejected validate value) eqn:Hrej.
      + unfold Cache.set. simpl. rewrite Hrej. simpl.
        unfold get. simpl. rewrite Hnone. by eexists _, _.
      + destruct (set_keeps_key key value now1 now2 (setError None s1) Hmax Hkey Hw1 Hrej)
          as (s' & Hset & Hlook).
        rewrite Hset. simpl. unfold get. rewrite Hlook. simpl.
        destruct (decide (now2 + ttl < now3)%Z) as [Hexp|Hlive].
        * rewrite bool_decide_true by done. by eexists _, _.
        * rewrite bool_decide_false by done. by eexists _, _. }
  unfold get at 1.
  destruct (cacheRef (h_cells h) !! key) as [e|] eqn:E.
  - destruct (decide (expiresAt e < now0)%Z) as [Hexp|Hlive].
    + apply Hmiss.
      * destruct Hw as (Hnd & Ht & Hl). split; [done|]. split; [done|].
        simpl. intros k [x Hx]. apply lookup_delete_Some in Hx as [_ Hx]. apply Hl. by exists x.
      * simpl. apply lookup_delete_eq.
    + by eexists _, _.
  - by apply Hmiss.
Qed.

End facts.

(** ** Scenarios *)

Import StoreScenarios.

Lemma fetchPage_witness :
  ∃ r h', fetchPage 10 2 None (λ _, "page") pageKey 2 (inr [7; 8]) 0 1 1 2
            (mkHook initial false) = Some (r, h') ∧
    r = match cacheRef (@initial (list nat)) !! pageKey 2 with
        | Some e =>
            if decide (expiresAt e < 0)%Z then fetchedPage 10 None (inr [7; 8]) 1 2
            else data e
        | None => fetchedPage 10 None (inr [7; 8]) 1 2
        end.
Proof.
  apply (fetchPage_result 10 2 None (λ _, "page") pageKey 2 (inr [7; 8])
           0 1 1 2 (mkHook initial false)).
  - lia.
  - by vm_compute.
  - split; [constructor|]. split; [by intros k ?%elem_of_nil|].
    intros k [x Hx]. simpl in Hx. by rewrite lookup_empty in Hx.
Defined.

End CacheFetchFacts.

(* ===================================================================== *)
(** * Properties of the synchronizer, continued *)
(* ===================================================================== *)

Module SyncRunFacts.
Import Sync SyncLog SyncEffects SyncFacts.

Section facts.
Context {V : Type}.
#[local] Abbreviation Obj := (gmap string V).
#[local] Abbreviation World := (@World V).
#[local] Abbreviation Async := (@Async V).
#[local] Abbreviation Oracle := (@Oracle V).
#[local] Abbreviation Run := (@Run V).
#[local] Abbreviation Render := (@Render V).
#[local] Abbreviation PendingChange := (@PendingChange V).
#[local] Abbreviation Io := (@Io V).

(** ** The retry loops under any network *)

(** What a run that settles through the continuation [k] has done
    before reaching it. *)
Lemma fetch_loop_any delay n : ∀ i lastError (k : _ → Async) (o : Oracle) nf np (w : World),
  ∃ (tr : list Io) res nf',
    exec (retryLoop true AwaitFetch delay n i lastError k) o nf np w =
      prepend tr (exec (k res) o nf' np w) ∧
    length (filter (λ e, isFetch e = true) tr) ≤ n ∧
    filter (λ e, isPush e = true) tr = [] ∧
    (is_ok res = true → IoFetch true ∈ tr).
Proof.
  induction n as [|n IH]; intros i lastError k o nf np w.
  - exists [], (inl (default "Request failed after retries" lastError)), nf.
    cbn [retryLoop]. by rewrite prepend_nil.
  - cbn [retryLoop exec]. destruct (fetchData o nf) as [e|remote] eqn:E; cbn [exec is_ok].
    + destruct (IH (S i) (Some e) k o (S nf) np w) as (tr & res & nf' & -> & Hf & Hp & Hok).
      exists (IoFetch false :: IoDelay (delay * (i + 1)) :: tr), res, nf'.
      split; [done|]. split; [|split].
      * rewrite filter_cons_True by done. rewrite filter_cons_False by done. simpl. lia.
      * rewrite !filter_cons_False by done. exact Hp.
      * intros H. do 2 (apply elem_of_cons; right). by apply Hok.
    + exists [IoFetch true], (inr remote), (S nf).
      split; [done|]. split; [|split].
      * rewrite filter_cons_True by done. simpl. lia.
      * by rewrite filter_cons_False.
      * intros _. apply elem_of_cons. by left.
Qed.

Lemma push_loop_any delay d n : ∀ i lastError (k : _ → Async) (o : Oracle) nf np (w : World),
  ∃ (tr : list Io) res np',
    exec (retryLoop true (AwaitPush d) delay n i lastError k) o nf np w =
      prepend tr (exec (k res) o nf np' w) ∧
    filter (λ e, isFetch e = true) tr = [] ∧
    length (filter (λ e, isPush e = true) tr) ≤ n ∧
    (is_ok res = true → IoPush d true ∈ tr).
Proof.
  induction n as [|n IH]; intros i lastError k o nf np w.
  - exists [], (inl (default "Request failed after retries" lastError)), np.
    cbn [retryLoop]. by rewrite prepend_nil.
  - cbn [retryLoop exec]. destruct (pushData o np d) as [e|u] eqn:E; cbn [exec is_ok].
    + destruct (IH (S i) (Some e) k o nf (S np) w) as (tr & res & np' & -> & Hf & Hp & Hok).
      exists (IoPush d false :: IoDelay (delay * (i + 1)) :: tr), res, np'.
      split; [done|]. split; [|split].
      * rewrite !filter_cons_False by done. exact Hf.
      * rewrite filter_cons_True by done. rewrite filter_cons_False by done. simpl. lia.
      * intros H. do 2 (apply elem_of_cons; right). by apply Hok.
    + exists [IoPush d true], (inr u), (S np).
      split; [done|]. split; [|split].
      * by rewrite filter_cons_False.
      * rewrite filter_cons_True by done. simpl. lia.
      * intros _. apply elem_of_cons. by left.
Qed.

Lemma failed_fetches_no_push delay n : ∀ i,
  filter (λ e : Io, isPush e = true) (failedAttempts IoFetch delay i n) = [].
Proof.
  induction n as [|n IH]; intros i; [done|].
  rewrite failedAttempts_S, !filter_cons_False by done. apply IH.
Qed.

Lemma failed_pushes d delay n : ∀ i,
  filter (λ e : Io, isPush e = true) (failedAttempts (IoPush d) delay i n) =
    repeat (IoPush d false) n.
Proof.
  induction n as [|n IH]; intros i; [done|].
  rewrite failedAttempts_S. rewrite filter_cons_True by done.
  rewrite filter_cons_False by done. simpl. f_equal. apply IH.
Qed.

Lemma failed_fetches_count delay n : ∀ i,
  length (filter (λ e : Io, isFetch e = true) (failedAttempts IoFetch delay i n)) = n.
Proof.
  induction n as [|n IH]; intros i; [done|].
  rewrite failedAttempts_S. rewrite filter_cons_True by done.
  rewrite filter_cons_False by done. simpl. f_equal. apply IH.
Qed.

Lemma waited_failedAttempts (ev : bool → Io) delay n : ∀ i,
  (∀ b, match ev b with IoDelay _ => False | _ => True end) →
  2 * waited (failedAttempts ev delay i n) = delay * (n * (2 * i + n + 1)).
Proof.
  induction n as [|n IH]; intros i Hev.
  - simpl. lia.
  - rewrite failedAttempts_S. unfold waited in *. cbn [omap list_omap].
    pose proof (Hev false) as H. destruct (ev false); try done;
      cbn [sum_list sum_list_with]; rewrite Nat.mul_add_distr_l, (IH (S i)) by done.
    all: unfold id; lia.
Qed.

Variable retryAttempts : nat.
Variable retryDelay : nat.
Variable hasFetch : bool.
Variable hasPush : bool.
Variable mergeStrategy : option (Obj → Obj → Obj).
Variable validateData : option (Obj → bool).

#[local] Abbreviation sync :=
  (@Sync.sync V retryAttempts retryDelay hasFetch hasPush mergeStrategy validateData).
#[local] Abbreviation applyUpdate := (@Sync.applyUpdate V mergeStrategy validateData).
#[local] Abbreviation applyPending := (@Sync.applyPending V mergeStrategy).
#[local] Abbreviation validateAndApply := (@Sync.validateAndApply V validateData).
#[local] Abbreviation proceeds := (@Sync.proceeds V hasFetch).

Lemma failed_facts e (w : World) :
  (isMounted w = true → isSyncing (state (failed e w)) = false) ∧
  pendingChanges (failed e w) = pendingChanges w.
Proof. unfold failed. by destruct (isMounted w). Qed.

Lemma succeeded_facts d (w : World) :
  (isMounted w = true → isSyncing (state (succeeded d w)) = false) ∧
  pendingChanges (succeeded d w) = pendingChanges w.
Proof. unfold succeeded. by destruct (isMounted w). Qed.

(** X9: Whatever the network does, a call of [sync] returns; it makes at
    most [retryAttempts] fetch requests and at most [retryAttempts] push
    requests; on a mounted hook a call that passed the guard leaves
    [isSyncing] false; and the pending log is either left as it was or
    emptied, and it is emptied only after a fetch and a push of the
    merged data have succeeded. *)
Theorem sync_settles_under_any_network R (o : Oracle) (w : World) :
  let r := call (sync R) o w in
  settled r = true ∧
  length (filter (λ e, isFetch e = true) (trace r)) ≤ retryAttempts ∧
  length (filter (λ e, isPush e = true) (trace r)) ≤ retryAttempts ∧
  (isMounted w = true → proceeds R → isSyncing (state (final r)) = false) ∧
  (pendingChanges (final r) = pendingChanges w ∨
   pendingChanges (final r) = [] ∧ hasPush = true ∧ r_pendingChanges R ≠ [] ∧
   ∃ remote, IoFetch true ∈ trace r ∧
             IoPush (applyPending remote (r_pendingChanges R)) true ∈ trace r).
Proof.
  cbv zeta. unfold call, Sync.sync.
  destruct (negb (r_online R) || negb hasFetch || r_isSyncing R) eqn:G.
  { simpl. split; [done|]. split; [lia|]. split; [lia|]. split; [|by left].
    intros _ (Ho & Hf & Hs). by rewrite Ho, Hf, Hs in G. }
  assert (Ho : r_online R = true) by (by destruct (r_online R)).
  rewrite Ho. cbn [exec]. unfold retryRequest.
  match goal with |- context [retryLoop true AwaitFetch _ _ _ _ ?k] =>
    destruct (fetch_loop_any retryDelay retryAttempts 0 None k o 0 0 (setSyncing w))
      as (tr & res & nf' & -> & Hf & Hp & Hok) end.
  destruct res as [e|remote].
  { rewrite exec_fail. unfold prepend. cbn [settled final trace]. rewrite app_nil_r.
    destruct (failed_facts e (setSyncing w)) as [Hs Hl].
    split; [done|]. split; [done|]. split; [rewrite Hp; simpl; lia|].
    split; [by intros ? _; apply Hs|]. left. by rewrite Hl. }
  cbv zeta. destruct (negb (validateAndApply _)).
  { rewrite exec_fail. unfold prepend. cbn [settled final trace]. rewrite app_nil_r.
    destruct (failed_facts "Data validation failed" (setSyncing w)) as [Hs Hl].
    split; [done|]. split; [done|]. split; [rewrite Hp; simpl; lia|].
    split; [by intros ? _; apply Hs|]. left. by rewrite Hl. }
  destruct (hasPush && negb (Nat.eqb (length (r_pendingChanges R)) 0)) eqn:P.
  2:{ rewrite exec_finish. unfold prepend. cbn [settled final trace]. rewrite app_nil_r.
      destruct (succeeded_facts (applyPending remote (r_pendingChanges R)) (setSyncing w))
        as [Hs Hl].
      split; [done|]. split; [done|]. split; [rewrite Hp; simpl; lia|].
      split; [by intros ? _; apply Hs|]. left. by rewrite Hl. }
  apply andb_true_iff in P as [HP Hne].
  match goal with |- context [retryLoop true (AwaitPush ?d) _ _ _ _ ?k] =>
    destruct (push_loop_any retryDelay d retryAttempts 0 None k o nf' 0 (setSyncing w))
      as (tr2 & res2 & np' & -> & Hf2 & Hp2 & Hok2) end.
  destruct res2 as [e|u].
  { rewrite exec_fail. unfold prepend. cbn [settled final trace]. rewrite app_nil_r.
    destruct (failed_facts e (setSyncing w)) as [Hs Hl].
    rewrite !filter_app, !length_app, Hp, Hf2. simpl.
    split; [done|]. split; [lia|]. split; [lia|].
    split; [by intros ? _; apply Hs|]. left. by rewrite Hl. }
  cbn [exec]. rewrite exec_finish. unfold prepend. cbn [settled final trace]. rewrite app_nil_r.
  destruct (succeeded_facts (applyPending remote (r_pendingChanges R))
              (setPendingChanges [] (setSyncing w))) as [Hs Hl].
  rewrite !filter_app, !length_app, Hp, Hf2. simpl.
  split; [done|]. split; [lia|]. split; [lia|].
  split; [by intros ? _; apply Hs|]. right. rewrite Hl. split; [done|].
  split; [done|]. split.
  { intros Hnil. by rewrite Hnil in Hne. }
  exists remote. split; apply elem_of_app; [left|right]; [by apply Hok|by apply Hok2].
Qed.


(** ** The time a failing sync takes *)

(** X10: When every fetch attempt fails, the call pauses after each of them,
    [retryDelay], [2 * retryDelay], ... milliseconds: it reports the
    failure only after [retryDelay * n * (n + 1) / 2] milliseconds of
    pauses, [n] being [retryAttempts], and it has made [n] requests. *)
Theorem failing_sync_total_wait R (o : Oracle) (w : World) :
  proceeds R →
  (∀ j, j < retryAttempts → is_ok (fetchData o j) = false) →
  let r := call (sync R) o w in
  2 * waited (trace r) = retryDelay * (retryAttempts * (retryAttempts + 1)) ∧
  length (filter (λ e, isFetch e = true) (trace r)) = retryAttempts ∧
  (isMounted w = true → syncStatus (state (final r)) = Failed).
Proof.
  intros HR Hfail r. subst r.
  rewrite (sync_fetch_fails retryAttempts retryDelay hasFetch hasPush mergeStrategy
             validateData R o w HR Hfail).
  cbn [trace final]. split; [|split].
  - rewrite waited_failedAttempts by (by intros []). f_equal; lia.
  - apply failed_fetches_count.
  - intros Hm. unfold failed. simpl. by rewrite Hm.
Qed.

(** ** Validation of the merged data *)

(** X11: When the validator rejects the merge of the fetched data with the
    pending log, the call ends in the [catch] branch: no push request is
    made, the data and the pending log stay as they were, and a mounted
    hook reports the error [Data validation failed]. *)
Theorem sync_rejects_invalid_merge R (o : Oracle) (w : World) m remote :
  proceeds R → m < retryAttempts →
  (∀ j, j < m → is_ok (fetchData o j) = false) →
  fetchData o m = inr remote →
  validateAndApply (applyPending remote (r_pendingChanges R)) = false →
  let r := call (sync R) o w in
  settled r = true ∧
  filter (λ e, isPush e = true) (trace r) = [] ∧
  data (state (final r)) = data (state w) ∧
  pendingChanges (final r) = pendingChanges w ∧
  (isMounted w = true →
   error (state (final r)) = Some "Data validation failed" ∧
   syncStatus (state (final r)) = Failed ∧
   isSyncing (state (final r)) = false ∧
   notified (final r) = notified w ++ [onError "Data validation failed"]).
Proof.
  intros HR Hm Hfail Hok Hv r. subst r.
  rewrite (sync_fetched retryAttempts retryDelay hasFetch hasPush mergeStrategy validateData
             R o w m remote) by done.
  cbv zeta. rewrite Hv. unfold prepend, failed. cbn [negb settled final trace].
  rewrite app_nil_r. split; [done|]. split.
  - rewrite filter_app. rewrite filter_cons_False, filter_nil, app_nil_r by done.
    apply failed_fetches_no_push.
  - simpl. destruct (isMounted w) eqn:E; simpl; [|done].
    split; [done|]. split; [done|]. by intros _.
Qed.

(** ** An update made while a sync is in flight *)

(** The task a proceeding [sync] leaves in flight: the state is set to
    syncing and the call is suspended on its first fetch. *)
Lemma start_sync R (w : World) :
  proceeds R → 0 < retryAttempts →
  start (sync R) w =
    (setSyncing w,
     retryRequest true AwaitFetch retryAttempts retryDelay (λ r,
       match r with
       | inl e => fail e
       | inr remoteData =>
           let finalData := applyPending remoteData (r_pendingChanges R) in
           if negb (validateAndApply finalData) then fail "Data validation failed"
           else if hasPush && negb (Nat.eqb (length (r_pendingChanges R)) 0) then
             retryRequest true (AwaitPush finalData) retryAttempts retryDelay (λ r,
               match r with
               | inl e => fail e
               | inr _ => Act (setPendingChanges []) (finish finalData)
               end)
           else finish finalData
       end)).
Proof.
  intros (Ho & Hf & Hs) Hn. unfold Sync.sync. rewrite Ho, Hf, Hs. simpl.
  unfold retryRequest. destruct retryAttempts as [|n]; [lia|]. done.
Qed.

(** X12: An [update] that lands while the fetch of a [sync] is in flight is
    lost when that sync completes with a push: the sync stores the merge
    of the fetched data with the log of its own render and empties the
    log, so the change of the update, which the update had appended to
    the log, is neither pushed nor pending any more. *)
Theorem update_during_sync_is_lost R (o : Oracle) (w : World) changes m mp remote :
  proceeds R → isMounted w = true →
  m < retryAttempts →
  (∀ j, j < m → is_ok (fetchData o j) = false) →
  fetchData o m = inr remote →
  let finalData := applyPending remote (r_pendingChanges R) in
  validateAndApply finalData = true →
  hasPush = true → r_pendingChanges R ≠ [] →
  mp < retryAttempts →
  (∀ j, j < mp → is_ok (pushData o j finalData) = false) →
  is_ok (pushData o mp finalData) = true →
  validateAndApply (merge mergeStrategy (data (state w)) changes) = true →
  let inFlight := start (sync R) w in
  let edited := applyUpdate changes inFlight.1 in
  let r := exec inFlight.2 o 0 0 edited in
  pendingChanges edited = pendingChanges w ++ [mkChange (clock w) changes Update] ∧
  settled r = true ∧
  data (state (final r)) = finalData ∧
  pendingChanges (final r) = [] ∧
  filter (λ e, isPush e = true) (trace r) =
    repeat (IoPush finalData false) mp ++ [IoPush finalData true].
Proof.
  intros HR Hmnt Hm Hfail Hok finalData Hv HP Hne Hmp Hpfail Hpok Hvu inFlight edited r.
  subst inFlight edited r. rewrite (start_sync R w HR) by lia. cbn [fst snd].
  split.
  { unfold Sync.applyUpdate. simpl. by rewrite Hvu. }
  set (w2 := applyUpdate changes (setSyncing w)).
  assert (Hm2 : isMounted w2 = true).
  { unfold w2, Sync.applyUpdate. simpl. by destruct (negb _). }
  unfold retryRequest.
  rewrite (exec_fetch_success _ _ m remote) by done.
  cbv zeta. fold finalData. rewrite Hv, HP, length_nonempty by done. cbn [negb andb].
  rewrite (exec_push_success _ _ _ mp) by done.
  cbn [exec]. rewrite exec_finish. unfold prepend, succeeded.
  cbn [settled final trace isMounted setPendingChanges]. rewrite Hm2.
  split; [done|]. split; [done|]. split; [done|].
  rewrite app_nil_r, !filter_app.
  rewrite failed_fetches_no_push, failed_pushes.
  rewrite (filter_cons_False _ (IoFetch true)) by done.
  rewrite filter_nil. simpl. by rewrite filter_cons_True.
Qed.

(** ** The effect that syncs when there are pending changes *)

(** Where a call that passed the guard can end. *)
Lemma sync_final_cases R (o : Oracle) (w : World) :
  proceeds R →
  (∃ e, final (call (sync R) o w) = failed e (setSyncing w)) ∨
  (∃ d, final (call (sync R) o w) = succeeded d (setSyncing w)) ∨
  (∃ d, final (call (sync R) o w) = succeeded d (setPendingChanges [] (setSyncing w))).
Proof.
  intros (Ho & Hf & Hs). unfold call, Sync.sync. rewrite Ho, Hf, Hs.
  cbn [negb orb exec]. unfold retryRequest.
  match goal with |- context [retryLoop true AwaitFetch _ _ _ _ ?k] =>
    destruct (fetch_loop_any retryDelay retryAttempts 0 None k o 0 0 (setSyncing w))
      as (tr & res & nf' & -> & _) end.
  destruct res as [e|remote].
  { rewrite exec_fail. left. by exists e. }
  cbv zeta. destruct (negb (validateAndApply _)).
  { rewrite exec_fail. left. by eexists. }
  destruct (hasPush && negb (Nat.eqb (length (r_pendingChanges R)) 0)).
  2:{ rewrite exec_finish. right. left. by eexists. }
  match goal with |- context [retryLoop true (AwaitPush ?d) _ _ _ _ ?k] =>
    destruct (push_loop_any retryDelay d retryAttempts 0 None k o nf' 0 (setSyncing w))
      as (tr2 & res2 & np' & -> & _) end.
  destruct res2 as [e|u].
  { rewrite exec_fail. left. by exists e. }
  cbn [exec]. rewrite exec_finish. right. right. by eexists.
Qed.

(** X13: A sync that ends with changes still pending is followed by another
    one at once: on a mounted, online hook, when a call of [sync] has
    completed and the pending log is not empty (the fetch or the push
    failed, the merge was rejected, or no [pushData] is configured),
    the effect of the render that follows calls [sync] again, and that
    call passes the guard and leaves a fetch in flight.  There is no
    pause between the cycles. *)
Theorem unfinished_sync_restarts_at_next_render R (o : Oracle) (w : World) tasks :
  isMounted w = true → online w = true → 0 < retryAttempts → proceeds R →
  let w1 := final (call (sync R) o w) in
  pendingChanges w1 ≠ [] →
  ∃ t, syncWhenOnline retryAttempts retryDelay hasFetch hasPush mergeStrategy validateData
         (w1, tasks) = (setSyncing w1, tasks ++ [t]) ∧
       awaitsFetch t = true.
Proof.
  intros Hm Hon Hn HR w1 Hne.
  assert (Hw1 : online w1 = true ∧ isSyncing (state w1) = false).
  { subst w1. destruct (sync_final_cases R o w HR) as [[e ->]|[[d ->]|[d ->]]];
      unfold failed, succeeded; simpl; by rewrite Hm. }
  destruct Hw1 as [Hon1 Hs1].
  unfold syncWhenOnline. cbn [fst]. rewrite Hon1, length_nonempty by done. cbn [andb].
  assert (HR1 : proceeds (render w1)).
  { split; [done|]. split; [by destruct HR as (_ & ? & _)|done]. }
  unfold invoke. cbn [fst snd]. rewrite (start_sync (render w1) w1 HR1 Hn).
  unfold retryRequest. destruct retryAttempts as [|n]; [lia|]. cbn [retryLoop].
  eexists. split; reflexivity.
Qed.

(** ** The merge of the pending log *)

(** X14: With the default merge strategy the log is applied field by field,
    last write wins: a field of the merged data holds the value of the
    latest [Update] change that mentions it, and the fetched value when
    no change does. *)
Theorem pending_log_last_write_wins (remote : Obj) (p : list PendingChange) field :
  @Sync.applyPending V None remote p !! field =
    match last (writes field p) with
    | Some v => Some v
    | None => remote !! field
    end.
Proof.
  revert remote. induction p as [|c p IH] using rev_ind; intros remote; [done|].
  assert (Hstep : @Sync.applyPending V None remote (p ++ [c]) =
            match type c with
            | Update => change c ∪ Sync.applyPending None remote p
            | Delete => Sync.applyPending None remote p
            end).
  { unfold Sync.applyPending. by rewrite foldl_snoc. }
  rewrite Hstep. unfold writes. rewrite omap_app. fold (writes field p). simpl.
  destruct (type c).
  - rewrite lookup_union, IH.
    destruct (change c !! field) as [v|] eqn:E.
    + rewrite last_snoc. by destruct (last (writes field p)), (remote !! field).
    + rewrite app_nil_r. by destruct (last (writes field p)), (remote !! field).
  - rewrite app_nil_r. apply IH.
Qed.

End facts.

(** ** Scenarios *)

Import Scenarios SyncScenarios.

Lemma sync_settles_witness :
  let r := call (sync 3 1000 true true None None (render edited1)) networkDown edited1 in
  settled r = true ∧
  length (filter (λ e, isFetch e = true) (trace r)) ≤ 3 ∧
  length (filter (λ e, isPush e = true) (trace r)) ≤ 3 ∧
  (isMounted edited1 = true → proceeds true (render edited1) →
   isSyncing (state (final r)) = false) ∧
  (pendingChanges (final r) = pendingChanges edited1 ∨
   pendingChanges (final r) = [] ∧ true = true ∧ r_pendingChanges (render edited1) ≠ [] ∧
   ∃ remote, IoFetch true ∈ trace r ∧
             IoPush (applyPending None remote (r_pendingChanges (render edited1))) true
               ∈ trace r).
Proof.
  exact (sync_settles_under_any_network 3 1000 true true None None
           (render edited1) networkDown edited1).
Defined.

Lemma total_wait_witness :
  let r := call (sync 3 1000 true true None None (render edited1)) networkDown edited1 in
  2 * waited (trace r) = 1000 * (3 * (3 + 1)) ∧
  length (filter (λ e, isFetch e = true) (trace r)) = 3 ∧
  (isMounted edited1 = true → syncStatus (state (final r)) = Failed).
Proof.
  apply (failing_sync_total_wait 3 1000 true true None None (render edited1)
           networkDown edited1).
  - repeat split; reflexivity.
  - intros j Hj. reflexivity.
Defined.

Lemma restart_witness :
  let w1 := final (call (sync 3 1000 true true None None (render edited1))
                     (pushRejected remote0) edited1) in
  ∃ t, syncWhenOnline 3 1000 true true None None (w1, []) = (setSyncing w1, [] ++ [t]) ∧
       awaitsFetch t = true.
Proof.
  apply (unfinished_sync_restarts_at_next_render 3 1000 true true None None
           (render edited1) (pushRejected remote0) edited1 []).
  - reflexivity.
  - reflexivity.
  - lia.
  - repeat split; reflexivity.
  - vm_compute. discriminate.
Defined.

Lemma sync_rejects_witness :
  let r := call (sync 3 1000 true true None (Some smallCount) (render edited1))
             (networkUp remote0) edited1 in
  settled r = true ∧
  filter (λ e, isPush e = true) (trace r) = [] ∧
  data (state (final r)) = data (state edited1) ∧
  pendingChanges (final r) = pendingChanges edited1 ∧
  (isMounted edited1 = true →
   error (state (final r)) = Some "Data validation failed" ∧
   syncStatus (state (final r)) = Failed ∧
   isSyncing (state (final r)) = false ∧
   notified (final r) = notified edited1 ++ [onError "Data validation failed"]).
Proof.
  apply (sync_rejects_invalid_merge 3 1000 true true None (Some smallCount)
           (render edited1) (networkUp remote0) edited1 0 remote0).
  - repeat split; reflexivity.
  - lia.
  - intros j Hj. lia.
  - reflexivity.
  - vm_compute. reflexivity.
Defined.

Lemma update_lost_witness :
  let finalData := applyPending None remote0 (r_pendingChanges (render edited1)) in
  let inFlight := start (sync 3 1000 true true None None (render edited1)) edited1 in
  let edited := applyUpdate None None (count 2) inFlight.1 in
  let r := exec inFlight.2 (networkUp remote0) 0 0 edited in
  pendingChanges edited =
    pendingChanges edited1 ++ [mkChange (clock edited1) (count 2) Update] ∧
  settled r = true ∧
  data (state (final r)) = finalData ∧
  pendingChanges (final r) = [] ∧
  filter (λ e, isPush e = true) (trace r) =
    repeat (IoPush finalData false) 0 ++ [IoPush finalData true].
Proof.
  apply (update_during_sync_is_lost 3 1000 true true None None
           (render edited1) (networkUp remote0) edited1 (count 2) 0 0 remote0).
  - repeat split; reflexivity.
  - reflexivity.
  - lia.
  - intros j Hj. lia.
  - reflexivity.
  - reflexivity.
  - reflexivity.
  - discriminate.
  - lia.
  - intros j Hj. lia.
  - reflexivity.
  - reflexivity.
Defined.

End SyncRunFacts.

(* ===================================================================== *)
(** * Properties of [useSyncGroup] *)
(* ===================================================================== *)

Module SyncGroupFacts.
Import Sync SyncGroup.

Section facts.
Context {V : Type}.
#[local] Abbreviation SyncState := (@SyncState V).

Lemma groupLastSynced_snoc (syncs : list SyncState) s :
  groupLastSynced (syncs ++ [s]) = later (groupLastSynced syncs) s.
Proof. unfold groupLastSynced. by rewrite foldl_snoc. Qed.

(** X15: [lastSynced] of a group is the latest of the members' dates: it is
    [null] exactly when no member has synchronised yet, and otherwise
    it is the date of some member and no member has a later one. *)
Theorem group_lastSynced_is_latest (syncs : list SyncState) :
  (groupLastSynced syncs = None ↔ Forall (λ s, lastSynced s = None) syncs) ∧
  ∀ t, groupLastSynced syncs = Some t →
    (∃ s, s ∈ syncs ∧ lastSynced s = Some t) ∧
    Forall (λ s, ∀ t', lastSynced s = Some t' → (t' ≤ t)%Z) syncs.
Proof.
  induction syncs as [|s syncs [IHnone IHsome]] using rev_ind; [by split|].
  rewrite groupLastSynced_snoc. unfold later.
  destruct (groupLastSynced syncs) as [a|] eqn:G.
  - (* some earlier member has a date *)
    destruct (IHsome a eq_refl) as ((s0 & Hin & Hs0) & Hall).
    assert (Hnot : ¬ Forall (λ s, lastSynced s = None) (syncs ++ [s])).
    { rewrite Forall_app. intros [H _]. apply IHnone in H. done. }
    destruct (lastSynced s) as [t'|] eqn:Es; [case_bool_decide as Hgt|].
    + split; [by split|]. intros t [= <-]. split.
      * exists s. split; [|done]. apply elem_of_app. right. by apply list_elem_of_singleton.
      * rewrite Forall_app, Forall_singleton. split.
        -- eapply Forall_impl; [exact Hall|]. intros x Hx u Hu. specialize (Hx u Hu). lia.
        -- intros u Hu. rewrite Es in Hu. injection Hu as <-. lia.
    + split; [by split|]. intros t [= <-]. split.
      * exists s0. split; [|done]. apply elem_of_app. by left.
      * rewrite Forall_app, Forall_singleton. split; [done|].
        intros u Hu. rewrite Es in Hu. injection Hu as <-. lia.
    + split; [by split|]. intros t [= <-]. split.
      * exists s0. split; [|done]. apply elem_of_app. by left.
      * rewrite Forall_app, Forall_singleton. split; [done|].
        intros u Hu. by rewrite Es in Hu.
  - (* no earlier member has one *)
    assert (Hall : Forall (λ s, lastSynced s = None) syncs) by (by apply IHnone).
    split.
    + rewrite Forall_app, Forall_singleton. split; [by split|by intros [_ ?]].
    + intros t Ht. split.
      * exists s. split; [|done]. apply elem_of_app. right. by apply list_elem_of_singleton.
      * rewrite Forall_app, Forall_singleton. split.
        -- eapply Forall_impl; [exact Hall|]. intros x Hx u Hu. by rewrite Hx in Hu.
        -- intros u Hu. rewrite Ht in Hu. injection Hu as <-. lia.
Qed.

End facts.

(** The group of [SyncScenarios.members]: one member syncing, none in
    error, last synchronised at time 40. *)
Example group_of_three :
  groupIsSyncing SyncScenarios.members = true ∧
  hasError SyncScenarios.members = false ∧
  groupLastSynced SyncScenarios.members = Some 40%Z.
Proof. by vm_compute. Qed.

End SyncGroupFacts.

(* ===================================================================== *)
(** * Properties of the offline queue *)
(* ===================================================================== *)

Module OfflineFacts.
Import Offline.

Section facts.
Context {Req : Type}.
#[local] Abbreviation World := (@World Req).
#[local] Abbreviation Closure := (@Closure Req).

Lemma failures_cons ok n (r : Req) q :
  failures ok n (r :: q) =
    (if ok n then [] else [r]) ++ failures ok (S n) q.
Proof.
  unfold failures. simpl. rewrite Nat.add_0_r.
  assert (imap ((λ i request, if ok (n + i) then None else Some request) ∘ S) q
          = imap (λ i request, if ok (S n + i) then None else Some request) q) as ->.
  { apply imap_ext. intros i x _. simpl. by rewrite Nat.add_succ_r. }
  by destruct (ok n).
Qed.

(** The loop of [processQueue] from any cells. *)
Lemma attempts_spec ok (q : list Req) : ∀ w : World,
  issued (foldl (attempt ok) w q) = issued w ++ q ∧
  queue (foldl (attempt ok) w q) = queue w ++ failures ok (length (issued w)) q.
Proof.
  induction q as [|r q IH]; intros w.
  - simpl. by rewrite !app_nil_r.
  - cbn [foldl]. destruct (IH (attempt ok w r)) as [-> ->].
    rewrite failures_cons. unfold attempt.
    destruct (ok (length (issued w))); simpl; rewrite length_app; simpl;
      rewrite Nat.add_1_r, <- ?(assoc_L (++)); done.
Qed.

Lemma processQueue_spec (c : Closure) ok (w : World) :
  c_online c = true → c_queue c ≠ [] →
  issued (processQueue c ok w) = issued w ++ c_queue c ∧
  queue (processQueue c ok w) = failures ok (length (issued w)) (c_queue c).
Proof.
  intros Ho Hq. unfold processQueue. rewrite Ho.
  destruct (c_queue c) as [|r q] eqn:E; [done|]. cbn [negb orb length Nat.eqb].
  destruct (attempts_spec ok (r :: q) (setQueue (λ _, []) w)) as [-> ->]. done.
Qed.

(** X16: [processQueue] of an online render with a non-empty queue calls
    every request of that queue once, in order, and leaves in the queue
    cell exactly the requests whose call was rejected, in order;
    offline, or with an empty queue, it does nothing. *)
Theorem processQueue_requeues_failures (c : Closure) ok (w : World) :
  (c_online c = true → c_queue c ≠ [] →
   issued (processQueue c ok w) = issued w ++ c_queue c ∧
   queue (processQueue c ok w) = failures ok (length (issued w)) (c_queue c)) ∧
  (c_online c = false ∨ c_queue c = [] → processQueue c ok w = w).
Proof.
  split; [apply processQueue_spec|].
  unfold processQueue. intros [->| ->]; [done|]. by destruct (c_online c).
Qed.

Lemma elem_of_failures ok n (q : list Req) r : r ∈ failures ok n q → r ∈ q.
Proof.
  revert n. induction q as [|x q IH]; intros n; [by intros ?%elem_of_nil|].
  rewrite failures_cons, elem_of_app, elem_of_cons. intros [H|H].
  - left. destruct (ok n); [by apply elem_of_nil in H|by apply list_elem_of_singleton in H].
  - right. by apply (IH (S n)).
Qed.

(** X17: [enqueue] calls the [processQueue] of the render in which [online]
    last changed.  If the queue was empty in that render, the request
    is appended to the queue cell and nothing is called.  If it was not
    (requests queued while offline, then the connection returned), the
    call empties the queue cell after the request has been appended and
    calls the requests of the old queue again: the new request is
    neither called nor queued. *)
Theorem enqueue_after_reconnect_drops_request request (c : Closure) ok (w : World) :
  c_online c = true →
  let w' := (enqueue request c ok w).1 in
  (c_queue c = [] → w' = setQueue (λ prev, prev ++ [request]) w) ∧
  (c_queue c ≠ [] →
   issued w' = issued w ++ c_queue c ∧
   queue w' = failures ok (length (issued w)) (c_queue c) ∧
   (request ∉ c_queue c → request ∉ queue w')).
Proof.
  intros Ho w'. subst w'. unfold enqueue. rewrite Ho. cbn [fst]. split.
  - intros Hq. unfold processQueue. rewrite Hq. by destruct (c_online c).
  - intros Hq.
    destruct (processQueue_spec c ok (setQueue (λ prev, prev ++ [request]) w) Ho Hq)
      as [Hi Hqueue].
    split; [done|]. split; [done|]. rewrite Hqueue. intros Hnot Hin.
    by apply Hnot, (elem_of_failures ok _ _ _ Hin).
Qed.

End facts.

(** ** Scenarios *)

Lemma processQueue_witness :
  let c := mkClosure true ["a"; "b"; "c"] in
  let ok := (λ n, bool_decide (n ≠ 1)) in
  let w := mkWorld ["a"; "b"; "c"] [] in
  (c_online c = true → c_queue c ≠ [] →
   issued (processQueue c ok w) = issued w ++ c_queue c ∧
   queue (processQueue c ok w) = failures ok (length (issued w)) (c_queue c)) ∧
  (c_online c = false ∨ c_queue c = [] → processQueue c ok w = w).
Proof.
  exact (processQueue_requeues_failures (mkClosure true ["a"; "b"; "c"])
           (λ n, bool_decide (n ≠ 1)) (mkWorld ["a"; "b"; "c"] [])).
Defined.

Lemma enqueue_witness :
  let c := mkClosure true ["a"] in
  let w' := (enqueue "b" c (λ _, true) (mkWorld [] ["a"])).1 in
  (c_queue c = [] → w' = setQueue (λ prev, prev ++ ["b"]) (mkWorld [] ["a"])) ∧
  (c_queue c ≠ [] →
   issued w' = ["a"] ++ c_queue c ∧
   queue w' = failures (λ _, true) 1 (c_queue c) ∧
   ("b" ∉ c_queue c → "b" ∉ queue w')).
Proof.
  apply (enqueue_after_reconnect_drops_request "b" (mkClosure true ["a"]) (λ _, true)
           (mkWorld [] ["a"])).
  reflexivity.
Defined.

(** Requests queued offline, then the connection returns: the effect
    processes ["a"]; a later [enqueue("b")] calls ["a"] a second time
    and ["b"] is gone. *)
Example enqueue_after_reconnect :
  let c := mkClosure true ["a"] in
  let w1 := processQueue c (λ _, true) (mkWorld ["a"] []) in
  let w2 := (enqueue "b" c (λ _, true) w1).1 in
  w1 = mkWorld [] ["a"] ∧ w2 = mkWorld [] ["a"; "a"].
Proof. by vm_compute. Qed.

End OfflineFacts.

(* ===================================================================== *)
(** * Properties of the channel, continued *)
(* ===================================================================== *)

Module ChannelTimerFacts.
Import Channel ChannelTimers.

Section facts.
Context {Msg : Type}.
Variable encode : Msg → option string.
Variable reconnectAttempts : nat.
Variable heartbeatInterval : nat.
Variable heartbeatMessage : Msg.

#[local] Abbreviation World := (@World Msg).
#[local] Abbreviation Event := (@Event Msg).
#[local] Abbreviation send := (@send Msg encode).
#[local] Abbreviation flushQueue := (@flushQueue Msg encode).
#[local] Abbreviation onopen := (@onopen Msg encode heartbeatInterval).
#[local] Abbreviation step :=
  (@step Msg encode reconnectAttempts heartbeatInterval heartbeatMessage).
#[local] Abbreviation run :=
  (@run Msg encode reconnectAttempts heartbeatInterval heartbeatMessage).
#[local] Abbreviation onclose := (@onclose Msg reconnectAttempts).
#[local] Abbreviation commit := (@commit Msg reconnectAttempts).

(** ** Handlers that leave the timers alone *)

Lemma sameTimers_refl (w : World) : sameTimers w w.
Proof. done. Qed.

Lemma sameTimers_trans (w1 w2 w3 : World) :
  sameTimers w1 w2 → sameTimers w2 w3 → sameTimers w1 w3.
Proof. intros (? & ? & ?) (? & ? & ?). repeat split; congruence. Qed.

Lemma connect_timers c (w : World) : sameTimers w (connect c w).
Proof. unfold connect. by destruct (negb _ || _). Qed.

Lemma send_timers message (w : World) : sameTimers w (send message w).2.
Proof.
  unfold Channel.send. destruct (wsRef w) as [i|]; [|done].
  destruct (sockets w !! i) as [s|]; [|done].
  case_bool_decide; [|done]. by destruct (encode message).
Qed.

Lemma flushQueue_timers fuel : ∀ (w w' : World),
  flushQueue fuel w = Some w' → sameTimers w w'.
Proof.
  induction fuel as [|fuel IH]; intros w w'; simpl.
  - destruct (messageQueueRef w); [|done]. by intros [= <-].
  - destruct (messageQueueRef w) as [|message rest]; [by intros [= <-]|].
    intros H. apply IH in H.
    eapply sameTimers_trans; [|exact H].
    eapply sameTimers_trans; [|apply send_timers]. done.
Qed.

Lemma onopen_timers (w w' : World) : onopen w = Some w' → sameTimers w w'.
Proof.
  unfold Channel.onopen. intros H.
  destruct (Channel.flushQueue _ _ _) as [w2|] eqn:E; [|done].
  apply flushQueue_timers in E. simpl in H. injection H as <-.
  eapply sameTimers_trans; [exact E|]. by case_bool_decide.
Qed.

Lemma setReadyState_timers i r (w : World) : sameTimers w (setReadyState i r w).
Proof. unfold setReadyState. by destruct (sockets w !! i). Qed.

Lemma clearInterval_timers id (w : World) : sameTimers w (clearInterval id w).
Proof. by destruct id. Qed.

Lemma singleTimer_same (w w' : World) : sameTimers w w' → singleTimer w → singleTimer w'.
Proof.
  intros (Ht & Hr & Hf) H t [c Hc]. rewrite Ht in Hc. rewrite Hr, Hf. apply H. by exists c.
Qed.

(** ** Handlers that change them *)

(** After [clearTimeout] of the recorded timer no timer is pending. *)
Lemma clearTimeout_none (w : World) :
  singleTimer w → ∀ t, ¬ pending (clearTimeout (reconnectTimeoutRef w) w) t.
Proof.
  intros H t [c Hc]. unfold clearTimeout in Hc.
  destruct (reconnectTimeoutRef w) as [t0|] eqn:E.
  - destruct (timeouts w !! t0) as [[b c0]|] eqn:E0.
    + simpl in Hc. destruct (decide (t = t0)) as [->|Hne].
      * rewrite list_lookup_insert_eq in Hc by (by eapply lookup_lt_Some). done.
      * rewrite list_lookup_insert_ne in Hc by done.
        destruct (H t) as [_ Hf]; [by exists c|]. congruence.
    + destruct (H t) as [_ Hf]; [by exists c|]. congruence.
  - destruct (H t) as [_ Hf]; [by exists c|]. congruence.
Qed.

Lemma clearTimeout_frame id (w : World) :
  reconnectingRef (clearTimeout id w) = reconnectingRef w ∧
  reconnectTimeoutRef (clearTimeout id w) = reconnectTimeoutRef w.
Proof.
  unfold clearTimeout. destruct id as [t|]; [|done].
  by destruct (timeouts w !! t) as [[? ?]|].
Qed.

Lemma close_timers (w : World) :
  timeouts (close w) = timeouts (clearTimeout (reconnectTimeoutRef w) w) ∧
  reconnectingRef (close w) = reconnectingRef w ∧
  reconnectTimeoutRef (close w) = reconnectTimeoutRef w.
Proof.
  unfold close. set (w1 := clearTimeout _ w).
  destruct (clearTimeout_frame (reconnectTimeoutRef w) w) as (Hr & Hf).
  fold w1 in Hr, Hf.
  set (w2 := clearInterval _ w1).
  destruct (clearInterval_timers (heartbeatIntervalRef w1) w1) as (Ht2 & Hr2 & Hf2).
  fold w2 in Ht2, Hr2, Hf2.
  destruct (wsRef w2) as [i|]; simpl.
  - destruct (ws_readyState <$> sockets w2 !! i) as [[]|]; simpl;
      rewrite ?Ht2, ?Hr2, ?Hf2, ?Hr, ?Hf;
      try (destruct (setReadyState_timers i CLOSING w2) as (-> & -> & ->));
      rewrite ?Ht2, ?Hr2, ?Hf2, ?Hr, ?Hf; done.
  - by rewrite Ht2, Hr2, Hf2, Hr, Hf.
Qed.

Lemma close_none (w : World) : singleTimer w → ∀ t, ¬ pending (close w) t.
Proof.
  intros H t [c Hc]. destruct (close_timers w) as (Ht & _ & _). rewrite Ht in Hc.
  apply (clearTimeout_none w H t). by exists c.
Qed.

Lemma none_single (w : World) : (∀ t, ¬ pending w t) → singleTimer w.
Proof. intros H t Hp. by destruct (H t). Qed.

Lemma onclose_single c (w : World) : singleTimer w → singleTimer (onclose c w).
Proof.
  intros H. unfold Channel.onclose.
  set (w1 := setState _ w). set (w2 := clearInterval _ w1).
  assert (S2 : sameTimers w w2).
  { eapply sameTimers_trans; [|apply clearInterval_timers]. done. }
  pose proof (singleTimer_same _ _ S2 H) as H2.
  destruct (reconnectingRef w2) eqn:R; simpl; [done|].
  case_bool_decide; simpl; [|done].
  intros t [c' Hc']. simpl in *. split; [done|]. f_equal.
  apply lookup_app_Some in Hc' as [Hc'|[Hlen Hc']].
  - destruct (H2 t) as [Hr _]; [by exists c'|]. congruence.
  - apply list_lookup_singleton_Some in Hc' as [Hz _]. lia.
Qed.

Lemma fire_none t c (w : World) :
  singleTimer w → timeouts w !! t = Some (true, c) →
  ∀ t', ¬ pending (reconnect c (with_timeouts (<[t := (false, c)]> (timeouts w)) w)) t'.
Proof.
  intros H Ht t' [c' Hc'].
  unfold reconnect in Hc'.
  destruct (connect_timers c
      (with_reconnectingRef false
         (setState (λ prev, mkWsState (readyState prev) (connected prev) (error prev)
                              (lastMessage prev) (reconnectCount prev + 1))
            (with_timeouts (<[t := (false, c)]> (timeouts w)) w)))) as (Heq & _ & _).
  rewrite Heq in Hc'. simpl in Hc'.
  destruct (decide (t' = t)) as [->|Hne].
  - rewrite list_lookup_insert_eq in Hc' by (by eapply lookup_lt_Some). done.
  - rewrite list_lookup_insert_ne in Hc' by done.
    destruct (H t') as [_ Hf]; [by exists c'|].
    destruct (H t) as [_ Hf']; [by exists c|]. congruence.
Qed.

Lemma commit_single (w : World) : singleTimer w → singleTimer (commit w).
Proof.
  intros H. unfold Channel.commit.
  set (c := mkClosure _ _).
  assert (E1 : ∀ w0 : World, singleTimer w0 →
            singleTimer (if online w then connect c w0 else w0)).
  { intros w0 H0. destruct (online w); [|done].
    eapply singleTimer_same; [apply connect_timers|done]. }
  assert (E2 : ∀ w0 : World, singleTimer w0 →
            singleTimer (if online w && negb (connected (state w))
                            && bool_decide (reconnectCount (state w) < reconnectAttempts)
                         then connect c w0 else w0)).
  { intros w0 H0. destruct (_ && _); [|done].
    eapply singleTimer_same; [apply connect_timers|done]. }
  assert (HC : singleTimer (close w)) by (apply none_single, close_none, H).
  match goal with |- singleTimer (with_rendered _ ?x) =>
    apply (singleTimer_same x); [done|] end.
  destruct (rendered w) as [[[o' cn'] rc']|].
  - repeat case_bool_decide; auto.
  - auto.
Qed.

(** Every step keeps the invariant. *)
Lemma step_single e (w w' : World) :
  singleTimer w → step e w = Next w' → singleTimer w'.
Proof.
  intros H. destruct e; simpl.
  - intros [= <-]. by apply commit_single.
  - destruct (sockets w !! i) as [s|] eqn:E; [|done].
    case_bool_decide; [|done].
    destruct (Channel.onopen _ _ _) as [w2|] eqn:O; [|done]. intros [= <-].
    apply onopen_timers in O.
    eapply singleTimer_same; [|exact H].
    eapply sameTimers_trans; [apply setReadyState_timers|exact O].
  - destruct (sockets w !! i) as [s|] eqn:E; [|done].
    case_bool_decide; [done|]. intros [= <-].
    apply onclose_single. eapply singleTimer_same; [apply setReadyState_timers|done].
  - destruct (sockets w !! i) as [s|] eqn:E; [|done]. by intros [= <-].
  - destruct (sockets w !! i) as [s|] eqn:E; [|done].
    case_bool_decide; [|done]. by intros [= <-].
  - destruct (timeouts w !! t) as [[[] c]|] eqn:E; try done. intros [= <-].
    apply none_single. by apply fire_none.
  - destruct (intervals w !! h) as [[]|]; try done. intros [= <-].
    eapply singleTimer_same; [apply send_timers|done].
  - intros [= <-]. eapply singleTimer_same; [apply send_timers|done].
  - intros [= <-]. apply none_single, close_none, H.
  - destruct (rendered w) as [[[o cn] rc]|]; [|done]. intros [= <-].
    eapply singleTimer_same; [apply connect_timers|done].
  - by intros [= <-].
Qed.

Lemma run_single events : ∀ (w w' : World),
  singleTimer w → run events w = Next w' → singleTimer w'.
Proof.
  induction events as [|e events IH]; intros w w' H; simpl.
  - by intros [= <-].
  - destruct (Channel.step _ _ _ _ e w) as [w1| |] eqn:E; [|done..].
    apply IH. by eapply step_single.
Qed.

Lemma initial_single o : singleTimer (@initial Msg o).
Proof. intros t [c Hc]. simpl in Hc. by rewrite lookup_nil in Hc. Qed.

(** X18: Whatever happens to a hook, at most one reconnect timer is pending:
    a pending timer is the one recorded in [reconnectTimeoutRef], and
    [reconnectingRef] is set while it is pending. *)
Theorem at_most_one_reconnect_timer events o (w : World) t1 t2 :
  run events (initial o) = Next w →
  pending w t1 → pending w t2 →
  t1 = t2 ∧ reconnectTimeoutRef w = Some t1 ∧ reconnectingRef w = true.
Proof.
  intros Hrun H1 H2.
  pose proof (run_single events _ _ (initial_single o) Hrun) as H.
  destruct (H t1 H1) as [Hr Hf1]. destruct (H t2 H2) as [_ Hf2].
  split; [congruence|done].
Qed.

(** ** [close] while a reconnect is pending *)

Lemma clearTimeout_pending id (w : World) t :
  pending (clearTimeout id w) t → pending w t.
Proof.
  intros [c Hc]. unfold clearTimeout in Hc. destruct id as [t0|]; [|by exists c].
  destruct (timeouts w !! t0) as [[b c0]|] eqn:E0; [|by exists c].
  simpl in Hc. destruct (decide (t = t0)) as [->|Hne].
  - rewrite list_lookup_insert_eq in Hc by (by eapply lookup_lt_Some). done.
  - rewrite list_lookup_insert_ne in Hc by done. by exists c.
Qed.

Lemma stalled_same (w w' : World) : sameTimers w w' → stalled w → stalled w'.
Proof.
  intros (Ht & Hr & Hf) [H1 H2]. split; [congruence|].
  intros t [c Hc]. rewrite Ht in Hc. apply (H2 t). by exists c.
Qed.

Lemma close_stalled (w : World) : stalled w → stalled (close w).
Proof.
  intros [H1 H2]. destruct (close_timers w) as (Ht & Hr & _). split; [congruence|].
  intros t [c Hc]. rewrite Ht in Hc. apply (H2 t).
  apply (clearTimeout_pending (reconnectTimeoutRef w)). by exists c.
Qed.

Lemma onclose_stalled c (w : World) : stalled w → stalled (onclose c w).
Proof.
  intros H. unfold Channel.onclose.
  set (w1 := setState _ w). set (w2 := clearInterval _ w1).
  assert (S2 : sameTimers w w2).
  { eapply sameTimers_trans; [|apply clearInterval_timers]. done. }
  pose proof (stalled_same _ _ S2 H) as H2.
  destruct H2 as [R N]. rewrite R. simpl. by split.
Qed.

Lemma commit_stalled (w : World) : stalled w → stalled (commit w).
Proof.
  intros H. unfold Channel.commit.
  set (c := mkClosure _ _).
  assert (E1 : ∀ w0 : World, stalled w0 →
            stalled (if online w then connect c w0 else w0)).
  { intros w0 H0. destruct (online w); [|done].
    eapply stalled_same; [apply connect_timers|done]. }
  assert (E2 : ∀ w0 : World, stalled w0 →
            stalled (if online w && negb (connected (state w))
                        && bool_decide (reconnectCount (state w) < reconnectAttempts)
                     then connect c w0 else w0)).
  { intros w0 H0. destruct (_ && _); [|done].
    eapply stalled_same; [apply connect_timers|done]. }
  pose proof (close_stalled w H) as HC.
  match goal with |- stalled (with_rendered _ ?x) =>
    apply (stalled_same x); [done|] end.
  destruct (rendered w) as [[[o' cn'] rc']|].
  - repeat case_bool_decide; auto.
  - auto.
Qed.

Lemma step_stalled e (w w' : World) :
  stalled w → step e w = Next w' → stalled w'.
Proof.
  intros H. destruct e; simpl.
  - intros [= <-]. by apply commit_stalled.
  - destruct (sockets w !! i) as [s|] eqn:E; [|done].
    case_bool_decide; [|done].
    destruct (Channel.onopen _ _ _) as [w2|] eqn:O; [|done]. intros [= <-].
    apply onopen_timers in O.
    eapply stalled_same; [|exact H].
    eapply sameTimers_trans; [apply setReadyState_timers|exact O].
  - destruct (sockets w !! i) as [s|] eqn:E; [|done].
    case_bool_decide; [done|]. intros [= <-].
    apply onclose_stalled. eapply stalled_same; [apply setReadyState_timers|done].
  - destruct (sockets w !! i) as [s|] eqn:E; [|done]. by intros [= <-].
  - destruct (sockets w !! i) as [s|] eqn:E; [|done].
    case_bool_decide; [|done]. by intros [= <-].
  - destruct (timeouts w !! t) as [[[] c]|] eqn:E; try done.
    destruct H as [_ N]. destruct (N t). by exists c.
  - destruct (intervals w !! h) as [[]|]; try done. intros [= <-].
    eapply stalled_same; [apply send_timers|done].
  - intros [= <-]. eapply stalled_same; [apply send_timers|done].
  - intros [= <-]. by apply close_stalled.
  - destruct (rendered w) as [[[o cn] rc]|]; [|done]. intros [= <-].
    eapply stalled_same; [apply connect_timers|done].
  - by intros [= <-].
Qed.

Lemma run_stalled events : ∀ (w w' : World),
  stalled w → run events w = Next w' → stalled w'.
Proof.
  induction events as [|e events IH]; intros w w' H; simpl.
  - by intros [= <-].
  - destruct (Channel.step _ _ _ _ e w) as [w1| |] eqn:E; [|done..].
    apply IH. by eapply step_stalled.
Qed.

(** X19: [close()] cancels the pending reconnect timer and leaves
    [reconnectingRef] set.  From then on, whatever happens, the flag
    stays set and no reconnect timer is pending: a socket that closes
    later is never followed by an automatic reconnect. *)
Theorem close_during_reconnect_ends_reconnects events before o (w w' : World) :
  run before (initial o) = Next w → reconnectingRef w = true →
  run (CallClose :: events) w = Next w' →
  reconnectingRef w' = true ∧
  (∀ t, ¬ pending w' t) ∧
  (∀ i w'', step (WsClose i) w' = Next w'' → timeouts w'' = timeouts w').
Proof.
  intros Hbefore Hr Hrun.
  pose proof (run_single before _ _ (initial_single o) Hbefore) as Hs.
  assert (Hst : stalled (close w)).
  { split; [|by apply close_none]. destruct (close_timers w) as (_ & -> & _). done. }
  cbn [Channel.run Channel.step] in Hrun.
  pose proof (run_stalled events _ _ Hst Hrun) as [R N].
  split; [done|]. split; [done|].
  intros i w''. simpl. destruct (sockets w' !! i) as [s|] eqn:E; [|done].
  case_bool_decide; [done|]. intros [= <-].
  unfold Channel.onclose.
  set (w1 := setState _ _). set (w2 := clearInterval _ w1).
  assert (S2 : sameTimers w' w2).
  { eapply sameTimers_trans; [apply setReadyState_timers|].
    eapply sameTimers_trans; [|apply clearInterval_timers]. done. }
  destruct S2 as (Ht & Hrr & _). rewrite Hrr, R. simpl. exact Ht.
Qed.

(** ** A render in which [online] or [reconnectCount] changed *)

Lemma connect_queue c (w : World) : messageQueueRef (connect c w) = messageQueueRef w.
Proof. unfold connect. by destruct (negb _ || _). Qed.

Lemma connect_old_sockets c (w : World) i s :
  sockets w !! i = Some s → sockets (connect c w) !! i = Some s.
Proof.
  intros H. unfold connect. destruct (negb _ || _); [done|]. simpl.
  by apply lookup_app_l_Some.
Qed.

Lemma connect_offline c (w : World) : c_online c = false → connect c w = w.
Proof. intros H. unfold connect. by rewrite H. Qed.

Lemma close_effects (w : World) :
  messageQueueRef (close w) = [] ∧ wsRef (close w) = None ∧
  ∀ i s, wsRef w = Some i → sockets w !! i = Some s → ws_readyState s ≠ CLOSED →
    sockets (close w) !! i = Some (mkSocket CLOSING (ws_handlers s) (ws_sent s)).
Proof.
  unfold close.
  set (w1 := clearTimeout _ w). set (w2 := clearInterval _ w1).
  assert (Hw : wsRef w2 = wsRef w ∧ sockets w2 = sockets w).
  { unfold w2, w1, clearInterval, clearTimeout.
    destruct (reconnectTimeoutRef w) as [t|]; [destruct (timeouts w !! t) as [[? ?]|]|];
      simpl; by destruct (heartbeatIntervalRef w). }
  destruct Hw as [Hw Hs]. split; [|split].
  - done.
  - destruct (wsRef w2) eqn:E; [done|exact E].
  - intros i s Hi Hsi Hne. rewrite Hw, Hi. cbn [sockets setState with_state with_messageQueueRef with_wsRef].
    rewrite Hs, Hsi. cbn [fmap option_fmap option_map].
    destruct (ws_readyState s) eqn:R; try done;
      unfold setReadyState; rewrite Hs, Hsi; simpl;
      apply list_lookup_insert_eq; by eapply lookup_lt_Some.
Qed.

(** X20: A render whose [online] or [reconnectCount] differs from the last
    one runs the cleanup [close] of the first effect before connecting
    again: the messages queued so far are discarded unsent, and the
    socket that was current, unless already closed, is closing.
    Offline, no socket is current afterwards. *)
Theorem render_after_change_discards_queue (w : World) o' cn' rc' :
  rendered w = Some (o', cn', rc') →
  (o', rc') ≠ (online w, reconnectCount (state w)) →
  messageQueueRef (commit w) = [] ∧
  (∀ i s, wsRef w = Some i → sockets w !! i = Some s → ws_readyState s ≠ CLOSED →
     sockets (commit w) !! i = Some (mkSocket CLOSING (ws_handlers s) (ws_sent s))) ∧
  (online w = false → wsRef (commit w) = None).
Proof.
  intros Hr Hne. unfold Channel.commit. rewrite Hr.
  rewrite (bool_decide_false ((o', rc') = _)) by done.
  rewrite (bool_decide_false ((o', cn', rc') = _)) by (intros [= H1 H2 H3]; apply Hne; by rewrite H1, H3).
  destruct (close_effects w) as (Hq & Hw & Hs).
  set (c := mkClosure _ _). cbn [messageQueueRef sockets wsRef with_rendered].
  split; [|split].
  - destruct (online w); cbn [andb]; [|done].
    destruct (negb _ && _); by rewrite ?connect_queue.
  - intros i s Hi Hsi Hcl. specialize (Hs i s Hi Hsi Hcl).
    destruct (online w); cbn [andb]; [|done].
    destruct (negb _ && _); by repeat apply connect_old_sockets.
  - intros Ho. rewrite Ho. done.
Qed.

(** ** Heartbeat intervals *)

Lemma orphan_same h (w w' : World) : sameIntervals w w' → orphan h w → orphan h w'.
Proof. intros [Hi Hr] [H1 H2]. split; congruence. Qed.

Lemma sameIntervals_trans (w1 w2 w3 : World) :
  sameIntervals w1 w2 → sameIntervals w2 w3 → sameIntervals w1 w3.
Proof. intros [? ?] [? ?]. split; congruence. Qed.

Lemma connect_intervals c (w : World) : sameIntervals w (connect c w).
Proof. unfold connect. by destruct (negb _ || _). Qed.

Lemma send_intervals message (w : World) : sameIntervals w (send message w).2.
Proof.
  unfold Channel.send. destruct (wsRef w) as [i|]; [|done].
  destruct (sockets w !! i) as [s|]; [|done].
  case_bool_decide; [|done]. by destruct (encode message).
Qed.

Lemma flushQueue_intervals fuel : ∀ (w w' : World),
  flushQueue fuel w = Some w' → sameIntervals w w'.
Proof.
  induction fuel as [|fuel IH]; intros w w'; simpl.
  - destruct (messageQueueRef w); [|done]. by intros [= <-].
  - destruct (messageQueueRef w) as [|message rest]; [by intros [= <-]|].
    intros H. apply IH in H.
    eapply sameIntervals_trans; [|exact H].
    eapply sameIntervals_trans; [|apply send_intervals]. done.
Qed.

Lemma setReadyState_intervals i r (w : World) : sameIntervals w (setReadyState i r w).
Proof. unfold setReadyState. by destruct (sockets w !! i). Qed.

Lemma clearTimeout_intervals id (w : World) : sameIntervals w (clearTimeout id w).
Proof.
  unfold clearTimeout. destruct id as [t|]; [|done].
  by destruct (timeouts w !! t) as [[? ?]|].
Qed.

(** [clearInterval] of the recorded interval spares the others. *)
Lemma clearInterval_orphan h (w : World) :
  orphan h w → orphan h (clearInterval (heartbeatIntervalRef w) w).
Proof.
  intros [H1 H2]. unfold clearInterval.
  destruct (heartbeatIntervalRef w) as [r|] eqn:E; [|by split; [|rewrite E]].
  split; simpl; [|by rewrite E].
  rewrite list_lookup_insert_ne; [done|]. intros ->. by apply H2.
Qed.

Lemma onopen_orphan h (w w' : World) : orphan h w → onopen w = Some w' → orphan h w'.
Proof.
  intros Ho. unfold Channel.onopen. intros H.
  destruct (Channel.flushQueue _ _ _) as [w2|] eqn:E; [|done].
  apply flushQueue_intervals in E. simpl in H. injection H as <-.
  assert (H2 : orphan h w2) by (eapply orphan_same; [exact E|done]).
  case_bool_decide; [|done]. destruct H2 as [Hi Hr]. split; simpl.
  - by apply lookup_app_l_Some.
  - intros [= Heq]. apply lookup_lt_Some in Hi. lia.
Qed.

Lemma onclose_orphan h c (w : World) : orphan h w → orphan h (onclose c w).
Proof.
  intros H. unfold Channel.onclose.
  set (w1 := setState _ w).
  assert (H1 : orphan h w1) by done.
  pose proof (clearInterval_orphan h w1 H1) as H2.
  by destruct (negb _ && _).
Qed.

Lemma close_orphan h (w : World) : orphan h w → orphan h (close w).
Proof.
  intros H. unfold close.
  set (w1 := clearTimeout _ w).
  assert (H1 : orphan h w1) by (eapply orphan_same; [apply clearTimeout_intervals|done]).
  pose proof (clearInterval_orphan h w1 H1) as H2.
  set (w2 := clearInterval _ w1) in *.
  destruct (wsRef w2) as [i|]; [|done].
  destruct (setReadyState_intervals i CLOSING w2) as [Hi Hr].
  destruct (ws_readyState <$> sockets w2 !! i) as [[]|]; try done;
    (eapply orphan_same; [|exact H2]); by split.
Qed.

Lemma commit_orphan h (w : World) : orphan h w → orphan h (commit w).
Proof.
  intros H. unfold Channel.commit.
  set (c := mkClosure _ _).
  assert (E1 : ∀ w0 : World, orphan h w0 →
            orphan h (if online w then connect c w0 else w0)).
  { intros w0 H0. destruct (online w); [|done].
    eapply orphan_same; [apply connect_intervals|done]. }
  assert (E2 : ∀ w0 : World, orphan h w0 →
            orphan h (if online w && negb (connected (state w))
                         && bool_decide (reconnectCount (state w) < reconnectAttempts)
                      then connect c w0 else w0)).
  { intros w0 H0. destruct (_ && _); [|done].
    eapply orphan_same; [apply connect_intervals|done]. }
  pose proof (close_orphan h w H) as HC.
  match goal with |- orphan h (with_rendered _ ?x) =>
    apply (orphan_same h x); [done|] end.
  destruct (rendered w) as [[[o' cn'] rc']|].
  - repeat case_bool_decide; auto.
  - auto.
Qed.

Lemma step_orphan h e (w w' : World) :
  orphan h w → step e w = Next w' → orphan h w'.
Proof.
  intros H. destruct e; simpl.
  - intros [= <-]. by apply commit_orphan.
  - destruct (sockets w !! i) as [s|] eqn:E; [|done].
    case_bool_decide; [|done].
    destruct (Channel.onopen _ _ _) as [w2|] eqn:O; [|done]. intros [= <-].
    eapply onopen_orphan; [|exact O].
    eapply orphan_same; [apply setReadyState_intervals|done].
  - destruct (sockets w !! i) as [s|] eqn:E; [|done].
    case_bool_decide; [done|]. intros [= <-].
    apply onclose_orphan. eapply orphan_same; [apply setReadyState_intervals|done].
  - destruct (sockets w !! i) as [s|] eqn:E; [|done]. by intros [= <-].
  - destruct (sockets w !! i) as [s|] eqn:E; [|done].
    case_bool_decide; [|done]. by intros [= <-].
  - destruct (timeouts w !! t) as [[[] c]|] eqn:E; try done. intros [= <-].
    unfold reconnect. eapply orphan_same; [apply connect_intervals|done].
  - destruct (intervals w !! h0) as [[]|]; try done. intros [= <-].
    eapply orphan_same; [apply send_intervals|done].
  - intros [= <-]. eapply orphan_same; [apply send_intervals|done].
  - intros [= <-]. by apply close_orphan.
  - destruct (rendered w) as [[[o cn] rc]|]; [|done]. intros [= <-].
    eapply orphan_same; [apply connect_intervals|done].
  - by intros [= <-].
Qed.

(** X21: The handlers clear only the heartbeat interval recorded in
    [heartbeatIntervalRef].  An interval that is running while another
    one is recorded (the heartbeat of a socket that opened before the
    current one did) is therefore never cleared: whatever happens
    later, [close()] included, it keeps running. *)
Theorem unrecorded_heartbeat_never_stops events h (w w' : World) :
  orphan h w → run events w = Next w' → orphan h w'.
Proof.
  revert w. induction events as [|e events IH]; intros w H; simpl.
  - by intros [= <-].
  - destruct (Channel.step _ _ _ _ e w) as [w1| |] eqn:E; [|done..].
    apply IH. by eapply step_orphan.
Qed.

End facts.

(** ** Scenarios *)

Import Scenarios ChannelScenarios.

Lemma one_timer_witness :
  0 = 0 ∧ reconnectTimeoutRef dropped = Some 0 ∧ reconnectingRef dropped = true.
Proof.
  apply (at_most_one_reconnect_timer text 3 1000 "ping" [Commit; WsClose 1] true dropped 0 0).
  - vm_compute. reflexivity.
  - eexists. vm_compute. reflexivity.
  - eexists. vm_compute. reflexivity.
Defined.

Lemma heartbeat_witness :
  orphan 0 (worldAfter [Commit; WsOpen 0; WsOpen 1; WsClose 1; WsClose 0; CallClose]).
Proof.
  apply (unrecorded_heartbeat_never_stops text 3 1000 "ping"
           [WsClose 1; WsClose 0; CallClose] 0 bothOpen).
  - split; [by vm_compute|]. vm_compute. intros [=].
  - vm_compute. reflexivity.
Defined.

Lemma close_witness :
  let w' := worldAfter [Commit; WsClose 1; CallClose; CallConnect; WsClose 2] in
  reconnectingRef w' = true ∧
  (∀ t, ¬ pending w' t) ∧
  (∀ i w'', step text 3 1000 "ping" (WsClose i) w' = Next w'' → timeouts w'' = timeouts w').
Proof.
  apply (close_during_reconnect_ends_reconnects text 3 1000 "ping"
           [CallConnect; WsClose 2] [Commit; WsClose 1] true dropped).
  - vm_compute. reflexivity.
  - vm_compute. reflexivity.
  - vm_compute. reflexivity.
Defined.

Lemma render_witness :
  messageQueueRef reconnecting = ["m"] ∧
  messageQueueRef (commit 3 reconnecting) = [] ∧
  (∀ i s, wsRef reconnecting = Some i → sockets reconnecting !! i = Some s →
     ws_readyState s ≠ CLOSED →
     sockets (commit 3 reconnecting) !! i
       = Some (mkSocket CLOSING (ws_handlers s) (ws_sent s))) ∧
  (online reconnecting = false → wsRef (commit 3 reconnecting) = None).
Proof.
  split; [by vm_compute|].
  apply (render_after_change_discards_queue 3 reconnecting true false 0).
  - vm_compute. reflexivity.
  - vm_compute. intros [=].
Defined.

End ChannelTimerFacts.
